(** * Company-to-goldstock identity resolution: normalizers, alias expander,
      tiered matcher, record cache and checkpoint/resume driver.

    Shallow embedding of [supabase/mapping_script.py] (the strict rule set,
    module [Script1]) and [supabase/mapping_script2.py] (the extended rule
    set, module [Script2]).

    Text.  A Python [str] is a Stdlib [string]; the helpers that scan text work
    on its character list.  The character tables ([isspace], [isalpha],
    [isword], [upper_char], [lower_char]) are Python's on the code points
    0..127; the other byte values are caseless and neither white space nor
    word characters here, so the development speaks about ASCII text only.

    Regular expressions.  Every [re.sub]/[re.findall] of the two scripts uses a
    fixed pattern; each is embedded as the string function that the pattern
    computes, next to the pattern it stands for.

    Effects.  The dictionaries of the [CompanyMatcher] object, the three
    files and the requests sent to the site form a [Run.world], passed from
    step to step; [perform_matching] and [main] return the world they leave.
    The global flag [interrupted] is read through a schedule that tells its
    value at each reading; [main] is embedded for runs without interruption,
    and the worker pool of the fetch phase is serialised in ID order.

    Outside the scripts.  [fuzz.token_sort_ratio] is a parameter,
    [process.extractOne] follows the documentation of its package, and the
    result of one request with the extraction of the page is a
    [Run.response]. *)

From Stdlib Require Import Ascii String.
From stdpp Require Import gmap strings list fin_maps pretty.

Local Open Scope string_scope.
Local Open Scope list_scope.
Local Open Scope Z_scope.

(** ** Python text primitives *)
Module Py.

Definition code (c : ascii) : nat := nat_of_ascii c.

Definition between (lo hi : nat) (c : ascii) : bool :=
  (Nat.leb lo (code c)) && (Nat.leb (code c) hi).

(** [str.isspace] on one character, also the class [\s] of [re]:
    TAB LF VT FF CR, FS GS RS US and SPACE. *)
Definition isspace (c : ascii) : bool := between 9 13 c || between 28 32 c.

Definition isupper (c : ascii) : bool := between 65 90 c.
Definition islower (c : ascii) : bool := between 97 122 c.
Definition isdigit (c : ascii) : bool := between 48 57 c.
Definition isalpha (c : ascii) : bool := isupper c || islower c.

(** The class [\w] of [re]: letters, digits and the underscore. *)
Definition isword (c : ascii) : bool :=
  isalpha c || isdigit c || Ascii.eqb c "_".

Definition lower_char (c : ascii) : ascii :=
  if isupper c then ascii_of_nat (code c + 32) else c.
Definition upper_char (c : ascii) : ascii :=
  if islower c then ascii_of_nat (code c - 32) else c.

Definition lower_l (l : list ascii) : list ascii := map lower_char l.
Definition upper_l (l : list ascii) : list ascii := map upper_char l.

Fixpoint lstrip_l (l : list ascii) : list ascii :=
  match l with
  | c :: l' => if isspace c then lstrip_l l' else l
  | [] => []
  end.
Definition rstrip_l (l : list ascii) : list ascii := reverse (lstrip_l (reverse l)).
Definition strip_l (l : list ascii) : list ascii := rstrip_l (lstrip_l l).

(** [l.startswith(p)]: the rest of [l] after [p], when [p] starts [l]. *)
Fixpoint after_prefix (p l : list ascii) : option (list ascii) :=
  match p, l with
  | [], _ => Some l
  | a :: p', b :: l' => if Ascii.eqb a b then after_prefix p' l' else None
  | _ :: _, [] => None
  end.
Definition startswith_l (p l : list ascii) : bool :=
  match after_prefix p l with Some _ => true | None => false end.
Definition endswith_l (p l : list ascii) : bool := startswith_l (reverse p) (reverse l).

(** [p in l] for two strings: [p] occurs somewhere in [l]. *)
Fixpoint contains_l (p l : list ascii) : bool :=
  startswith_l p l || match l with [] => false | _ :: l' => contains_l p l' end.

(** [l.replace(old, new)] for a non-empty [old]: every occurrence of [old],
    found from the left and not overlapping an earlier one, becomes [new].
    [skip] counts the characters of the current occurrence still to drop. *)
Fixpoint replace_go (old new : list ascii) (skip : nat) (l : list ascii)
  : list ascii :=
  match l with
  | [] => []
  | c :: l' =>
      match skip with
      | S k => replace_go old new k l'
      | O => if startswith_l old l
             then new ++ replace_go old new (length old - 1) l'
             else c :: replace_go old new O l'
      end
  end.
Definition replace_l (old new l : list ascii) : list ascii :=
  replace_go old new O l.

(** [l.split()]: the maximal runs of characters that are not white space.
    [cur] is the run being read, in reverse. *)
Fixpoint split_go (cur : list ascii) (l : list ascii) : list (list ascii) :=
  match l with
  | [] => match cur with [] => [] | _ => [reverse cur] end
  | c :: l' =>
      if isspace c
      then match cur with [] => split_go [] l' | _ => reverse cur :: split_go [] l' end
      else split_go (c :: cur) l'
  end.
Definition split_l (l : list ascii) : list (list ascii) := split_go [] l.

Definition chars (s : string) : list ascii := list_ascii_of_string s.
Definition str (l : list ascii) : string := string_of_list_ascii l.

(** Lift a function on character lists to strings. *)
Definition on_chars (f : list ascii → list ascii) (s : string) : string :=
  str (f (chars s)).

Definition lower : string → string := on_chars lower_l.
Definition upper : string → string := on_chars upper_l.
Definition strip : string → string := on_chars strip_l.
Definition replace (old new : string) : string → string :=
  on_chars (replace_l (chars old) (chars new)).
Definition contains (p s : string) : bool := contains_l (chars p) (chars s).
Definition endswith (s p : string) : bool := endswith_l (chars p) (chars s).
Definition split (s : string) : list string := map str (split_l (chars s)).

(** Truth value of a string: non-empty. *)
Definition truthy (s : string) : bool :=
  match s with EmptyString => false | String _ _ => true end.

End Py.

(** ** The fixed [re] patterns of the scripts *)
Module Re.
Import Py.

(** Two characters match under [re.IGNORECASE] when they agree up to case. *)
Definition ci_eqb (a b : ascii) : bool := Ascii.eqb (lower_char a) (lower_char b).

(** The rest of [l] after a case-insensitive occurrence of [p] at its start. *)
Fixpoint ci_after_prefix (p l : list ascii) : option (list ascii) :=
  match p, l with
  | [], _ => Some l
  | a :: p', b :: l' => if ci_eqb a b then ci_after_prefix p' l' else None
  | _ :: _, [] => None
  end.

(** [re.sub(r'^(A1|...|An):', '', l, flags=re.IGNORECASE)]: the pattern is
    anchored at the start, so at most one match exists; the alternatives are
    tried in order and the first one followed by a colon is removed with it. *)
Fixpoint sub_exchange_prefix (alts : list string) (l : list ascii) : list ascii :=
  match alts with
  | [] => l
  | a :: alts' =>
      match ci_after_prefix (chars a ++ chars ":") l with
      | Some rest => rest
      | None => sub_exchange_prefix alts' l
      end
  end.

(** [$] without [re.MULTILINE] holds at the end of the text and just before a
    final line feed: [split_eol l] is the text up to that point and the final
    line feed, if any, that stays behind a match. *)
Definition LF : ascii := ascii_of_nat 10.
Definition split_eol (l : list ascii) : list ascii * list ascii :=
  match reverse l with
  | c :: r => if Ascii.eqb c LF then (reverse r, [LF]) else (l, [])
  | [] => (l, [])
  end.

(** The text before a case-insensitive occurrence of [p] at the end of [l]. *)
Definition ci_before_suffix (p l : list ascii) : option (list ascii) :=
  reverse <$> ci_after_prefix (reverse p) (reverse l).

Fixpoint first_suffix (alts : list (list ascii)) (l : list ascii)
  : option (list ascii) :=
  match alts with
  | [] => None
  | a :: alts' =>
      match ci_before_suffix a l with
      | Some body => Some body
      | None => first_suffix alts' l
      end
  end.

(** [re.sub(r'\.(A1|...|An)$', '', l, flags=re.IGNORECASE)]: a match is a dot,
    one alternative and the end [$]; no alternative holds a dot, so the match
    is unique when there is one. *)
Definition sub_exchange_suffix (alts : list string) (l : list ascii) : list ascii :=
  let '(body, eol) := split_eol l in
  match first_suffix (map (λ a, chars "." ++ chars a) alts) body with
  | Some body' => body' ++ eol
  | None => l
  end.

(** [re.sub(r'[.\-_]', '', l)]. *)
Definition is_ticker_punct (c : ascii) : bool :=
  Ascii.eqb c "." || Ascii.eqb c "-" || Ascii.eqb c "_".
Definition sub_ticker_punct (l : list ascii) : list ascii :=
  List.filter (λ c, negb (is_ticker_punct c)) l.

(** The text before the run of white space that ends [l], when that run is
    not empty: what is left of [l] once a final [\s+] is matched from the
    leftmost position possible. *)
Definition before_spaces (l : list ascii) : option (list ascii) :=
  match reverse l with
  | c :: r => if isspace c then Some (reverse (lstrip_l r)) else None
  | [] => None
  end.

(** A match of [\s+p$] in [body], the text up to [$]: what precedes it. *)
Definition ws_word_end (p body : list ascii) : option (list ascii) :=
  ci_before_suffix p body ≫= before_spaces.

(** [re.sub(r'\s+w$', '', l, flags=re.IGNORECASE)] for [opt = None], and
    [re.sub(r'\s+wc?$', ...)] for [opt = Some c]: the optional character is
    tried first (the quantifier is greedy), then the bare word. *)
Definition sub_name_suffix (sfx : string * option ascii) (l : list ascii)
  : list ascii :=
  let '(body, eol) := split_eol l in
  let m := match sfx.2 with
           | Some c =>
               match ws_word_end (chars sfx.1 ++ [c]) body with
               | Some b => Some b
               | None => ws_word_end (chars sfx.1) body
               end
           | None => ws_word_end (chars sfx.1) body
           end in
  match m with
  | Some body' => body' ++ eol
  | None => l
  end.

(** [re.sub(r'[^\w\s]', ' ', l)]. *)
Definition SP : ascii := " ".
Definition sub_special (l : list ascii) : list ascii :=
  map (λ c, if isword c || isspace c then c else SP) l.

(** [re.sub(r'\s+', ' ', l)]: [in_ws] tells that the run of white space being
    read has already produced its space. *)
Fixpoint collapse_go (in_ws : bool) (l : list ascii) : list ascii :=
  match l with
  | [] => []
  | c :: l' =>
      if isspace c
      then (if in_ws then collapse_go true l' else SP :: collapse_go true l')
      else c :: collapse_go false l'
  end.
Definition sub_spaces (l : list ascii) : list ascii := collapse_go false l.

(** The matches of [\([^)]+\)], found from the left: a piece of text is a
    character outside every match or the content of one match.  [open] holds,
    in reverse, what follows an opening parenthesis still waiting for its
    closing one; an empty content is no match, and an opening parenthesis
    never closed is plain text. *)
Inductive piece := Lit (c : ascii) | Group (content : list ascii).

Fixpoint paren_scan (open : option (list ascii)) (l : list ascii) : list piece :=
  match l with
  | [] =>
      match open with
      | None => []
      | Some acc => map Lit ("("%char :: reverse acc)
      end
  | c :: l' =>
      match open with
      | None =>
          if Ascii.eqb c "(" then paren_scan (Some []) l'
          else Lit c :: paren_scan None l'
      | Some acc =>
          if Ascii.eqb c ")" then
            match acc with
            | [] => Lit "(" :: Lit ")" :: paren_scan None l'
            | _ :: _ => Group (reverse acc) :: paren_scan None l'
            end
          else paren_scan (Some (c :: acc)) l'
      end
  end.

(** [re.sub(r'\([^)]+\)', '', l)]. *)
Definition sub_parens (l : list ascii) : list ascii :=
  flat_map (λ p, match p with Lit c => [c] | Group _ => [] end) (paren_scan None l).

(** [re.findall(r'\(([^)]+)\)', l)]. *)
Definition findall_parens (l : list ascii) : list (list ascii) :=
  flat_map (λ p, match p with Lit _ => [] | Group g => [g] end) (paren_scan None l).

End Re.

(** ** Data model, shared by the two scripts *)

Module Company.
Record t := mk {
  company_id : Z;
  company_name : string;
  tsx_code : option string }.
End Company.

(** [exchange] exists in [mapping_script2.py] only; [mapping_script.py]
    leaves it [None]. *)
Module GoldstockCompany.
Record t := mk {
  goldstock_id : string;
  company_name : string;
  ticker : option string;
  aliases : list string;
  exchange : option string }.
End GoldstockCompany.

Inductive status := matched | manual | unmatched.
Inductive method := known_mapping | exact_ticker | exact_name | fuzzy_name | none.

Module Mapping.
Record t := mk {
  company_id : Z;
  company_name : string;
  tsx_code : option string;
  goldstock_id : option string;
  goldstock_name : option string;
  match_status : status;
  confidence_score : Z;
  match_method : method }.
End Mapping.

(** One entry of [known_mappings]. *)
Module Known.
Record t := mk {
  goldstock_id : string;
  goldstock_name : string;
  confidence_score : Z }.
End Known.

(** The checkpoint dictionary [{"processed_ids": [...], "mappings": [...]}]. *)
Module Checkpoint.
Record t := mk {
  processed_ids : list Z;
  mappings : list Mapping.t }.
End Checkpoint.

Global Instance status_eq_dec : EqDecision status.
Proof. solve_decision. Defined.
Global Instance method_eq_dec : EqDecision method.
Proof. solve_decision. Defined.

(** ** Persisted state: files, [json.load] and [try]/[except] *)
Module Persist.

(** The exceptions that occur; all of them derive from [Exception]. *)
Inductive exn :=
  | OSError | UnicodeDecodeError | JSONDecodeError | ZeroDivisionError.

(** A JSON value, as [json.load] returns it (numbers are integers here). *)
Local Unset Elimination Schemes.
Inductive json :=
  | JNull
  | JBool (b : bool)
  | JInt (z : Z)
  | JStr (s : string)
  | JArr (items : list json)
  | JObj (members : list (string * json)).
Local Set Elimination Schemes.

(** What [open] followed by [json.load] makes of an existing file: an
    exception (the file cannot be read or decoded or is no JSON text) or the
    value it holds.  The value type is [json] for arbitrary content, and the
    typed cache or checkpoint for the files a run writes itself. *)
Inductive parsed (A : Type) := Unparseable (e : exn) | Parses (v : A).
Inductive file (A : Type) := Absent | Present (c : parsed A).
Global Arguments Unparseable {A} e.
Global Arguments Parses {A} v.
Global Arguments Absent {A}.
Global Arguments Present {A} c.

Inductive outcome (A : Type) := Returns (a : A) | Raises (e : exn).
Global Arguments Returns {A} a.
Global Arguments Raises {A} e.

Definition exists_ {A} (f : file A) : bool :=
  match f with Absent => false | Present _ => true end.

(** [with open(F) as f: return json.load(f)]. *)
Definition json_load {A} (c : parsed A) : outcome A :=
  match c with
  | Unparseable e => Raises e
  | Parses v => Returns v
  end.

(** [try: body  except: handler] and [except Exception as e: handler]. *)
Definition try_except {A} (body : outcome A) (handler : exn → outcome A)
  : outcome A :=
  match body with
  | Returns a => Returns a
  | Raises e => handler e
  end.

(** The literal [{}] and the literal [{"processed_ids": [], "mappings": []}]
    in a value type. *)
Class EmptyCheckpoint (A : Type) := empty_checkpoint : A.

Global Instance json_empty : Empty json := JObj [].
Global Instance json_empty_checkpoint : EmptyCheckpoint json :=
  JObj [("processed_ids", JArr []); ("mappings", JArr [])].
Global Instance typed_empty_checkpoint : EmptyCheckpoint Checkpoint.t :=
  Checkpoint.mk [] [].

(** [CompanyMatcher.load_cache]; the two scripts differ in the log line of
    the handler only. *)
Definition load_cache {A} `{Empty A} (CACHE_FILE : file A) : outcome A :=
  match CACHE_FILE with
  | Present c => try_except (json_load c) (λ _, Returns ∅)
  | Absent => Returns ∅
  end.

(** [CompanyMatcher.load_checkpoint]. *)
Definition load_checkpoint {A} `{EmptyCheckpoint A} (CHECKPOINT_FILE : file A)
  : outcome A :=
  match CHECKPOINT_FILE with
  | Present c => try_except (json_load c) (λ _, Returns empty_checkpoint)
  | Absent => Returns empty_checkpoint
  end.

Definition is_dict (j : json) : bool :=
  match j with JObj _ => true | _ => false end.

End Persist.

(** ** The fuzzy-matching library *)
Module Fuzzy.
Section Extract.

(** [fuzz.token_sort_ratio] with the preprocessing [process] applies to both
    strings: the similarity score of a query and a choice. *)
Variable scorer : string → string → Z.

(** Modelled from the spec: [process.extractOne] belongs to the fuzzywuzzy
    package, not to the scripts.  It scores every choice against the query,
    keeps the choices whose score reaches [score_cutoff] (0 when the caller
    gives none), and returns the pair (choice, score) of maximal score, the
    first one encountered on ties, or [None] when no choice is kept. *)
Definition extractWithoutOrder (query : string) (choices : list string)
  (score_cutoff : Z) : list (string * Z) :=
  List.filter (λ r, score_cutoff <=? r.2)
              (map (λ c, (c, scorer query c)) choices).

(** [max(best_list, key=lambda i: i[1])] seeded with the first element: a
    later element replaces the best one only when its score is greater. *)
Fixpoint max_by_score (best : string * Z) (l : list (string * Z)) : string * Z :=
  match l with
  | [] => best
  | r :: l' => max_by_score (if best.2 <? r.2 then r else best) l'
  end.

Definition extractOne (query : string) (choices : list string)
  (score_cutoff : Z) : option (string * Z) :=
  match extractWithoutOrder query choices score_cutoff with
  | [] => None
  | r :: l => Some (max_by_score r l)
  end.

End Extract.
End Fuzzy.

(** ** The run: matcher state, files and the external site *)
Module Run.
Import Persist.

(** What one request to the site, followed by the extraction of the page,
    comes to in [fetch_company_by_id]. *)
Inductive response :=
  | Status404
  | NoCompanyName
  | Found (company_name : string) (ticker exchange : option string)
  | RequestFailed.

(** The cache dictionary: key to record, or to [None] for a confirmed absence. *)
Abbreviation Cache := (gmap string (option GoldstockCompany.t)).

(** [cache] and [checkpoint] are the two dictionaries held by the
    [CompanyMatcher] object, shared by everything that receives [matcher];
    the three files are those the scripts name; [requests] lists the IDs
    requested from the site, oldest first. *)
Record world := mkWorld {
  cache : Cache;
  checkpoint : Checkpoint.t;
  CACHE_FILE : file Cache;
  CHECKPOINT_FILE : file Checkpoint.t;
  OUTPUT_FILE : option (list Mapping.t);
  requests : list Z }.

Definition set_cache (f : Cache → Cache) (w : world) : world :=
  mkWorld (f (cache w)) (checkpoint w) (CACHE_FILE w) (CHECKPOINT_FILE w)
          (OUTPUT_FILE w) (requests w).
Definition set_checkpoint (c : Checkpoint.t) (w : world) : world :=
  mkWorld (cache w) c (CACHE_FILE w) (CHECKPOINT_FILE w)
          (OUTPUT_FILE w) (requests w).
Definition set_CACHE_FILE (f : file Cache) (w : world) : world :=
  mkWorld (cache w) (checkpoint w) f (CHECKPOINT_FILE w)
          (OUTPUT_FILE w) (requests w).
Definition set_CHECKPOINT_FILE (f : file Checkpoint.t) (w : world) : world :=
  mkWorld (cache w) (checkpoint w) (CACHE_FILE w) f
          (OUTPUT_FILE w) (requests w).
Definition set_OUTPUT_FILE (o : option (list Mapping.t)) (w : world) : world :=
  mkWorld (cache w) (checkpoint w) (CACHE_FILE w) (CHECKPOINT_FILE w)
          o (requests w).
Definition add_request (gid : Z) (w : world) : world :=
  mkWorld (cache w) (checkpoint w) (CACHE_FILE w) (CHECKPOINT_FILE w)
          (OUTPUT_FILE w) (requests w ++ [gid]).

(** [CompanyMatcher.save_cache]: the file receives a copy of the dictionary
    (the write is taken to succeed). *)
Definition save_cache (w : world) : world :=
  set_CACHE_FILE (Present (Parses (cache w))) w.

(** [CompanyMatcher.save_checkpoint]: the two entries of the dictionary
    [self.checkpoint] are replaced in place, then the dictionary is written. *)
Definition save_checkpoint (mappings : list Mapping.t) (w : world) : world :=
  let c := Checkpoint.mk (map Mapping.company_id mappings) mappings in
  set_CHECKPOINT_FILE (Present (Parses c)) (set_checkpoint c w).

(** [save_mappings]: the table is rewritten with one row per mapping. *)
Definition save_mappings (mappings : list Mapping.t) (w : world) : world :=
  set_OUTPUT_FILE (Some mappings) w.

(** [f"goldstock_{goldstock_id}"]. *)
Definition cache_key (goldstock_id : Z) : string :=
  "goldstock_" +:+ pretty goldstock_id.

(** [if len(self.matcher.cache) % 50 == 0: self.matcher.save_cache()]. *)
Definition save_cache_periodically (w : world) : world :=
  if (size (cache w) mod 50 =? 0)%nat then save_cache w else w.

(** The command line; [--workers] sizes the pool, which is serialised here. *)
Record args := mkArgs {
  limit : option Z;
  max_id : Z;
  resume : bool;
  clear_cache : bool }.

(** How [main] ends: it returns, an exception escapes, or [sys.exit(code)]. *)
Inductive ending := Completed | Crashed (e : exn) | Exited (code : Z).

(** [data[:limit]]. *)
Definition slice_to {A} (limit : Z) (data : list A) : list A :=
  if limit <? 0 then take (length data - Z.to_nat (- limit)) data
  else take (Z.to_nat limit) data.

End Run.

(** ** [mapping_script.py]: the strict rule set *)
Module Script1.
Import Py Re.

Definition exchange_prefixes : list string :=
  ["CVE"; "TSE"; "TSX"; "TSXV"; "CSE"; "CNSX"; "NYSE"; "NASDAQ"; "OTC"].
Definition exchange_suffixes : list string :=
  ["V"; "TO"; "CN"; "T"; "VN"; "WT"].

(** [ticker[:-3]]. *)
Definition drop_last3 (s : string) : string :=
  on_chars (λ l, take (length l - 3) l) s.

Definition normalize_ticker (ticker : option string) : option string :=
  match ticker with
  | None => None
  | Some t =>
      if negb (truthy t) then None
      else if endswith t ".CN" then Some (upper (strip (drop_last3 t)))
      else
        let t := on_chars (sub_exchange_prefix exchange_prefixes) t in
        let t := on_chars (sub_exchange_suffix exchange_suffixes) t in
        let t := on_chars sub_ticker_punct t in
        Some (upper (strip t))
  end.

Definition suffixes : list (string * option ascii) :=
  [("inc", Some "."%char); ("ltd", Some "."%char); ("limited", None);
   ("corp", Some "."%char); ("corporation", None); ("plc", None);
   ("llc", None); ("sa", None); ("ag", None); ("mining", None);
   ("mines", None); ("resources", None); ("minerals", None); ("gold", None);
   ("silver", None); ("metals", None); ("exploration", None)].

Definition strip_suffixes (l : list ascii) : list ascii :=
  fold_left (λ name sfx, sub_name_suffix sfx name) suffixes l.

Definition normalize_name (name : option string) : string :=
  match name with
  | None => ""
  | Some n =>
      if negb (truthy n) then ""
      else
        let n := lower n in
        let n := on_chars strip_suffixes n in
        let n := on_chars sub_special n in
        let n := on_chars sub_spaces n in
        strip n
  end.

(** [''.join(w[0].upper() for w in words if w)]. *)
Definition abbrev (words : list string) : string :=
  str (flat_map (λ w, match chars w with c :: _ => [upper_char c] | [] => [] end) words).

Definition extract_company_aliases (name : string) : list string :=
  let aliases := [name] in
  let aliases :=
    if contains "(" name && contains ")" name then
      let clean_name := strip (on_chars sub_parens name) in
      if truthy clean_name then aliases ++ [clean_name] else aliases
    else aliases in
  let words := split name in
  let aliases :=
    if (1 <? length words)%nat then
      if (1 <? String.length (abbrev words))%nat then aliases ++ [abbrev words]
      else aliases
    else aliases in
  let aliases :=
    if contains "&" name then aliases ++ [replace "&" "and" name] else aliases in
  let aliases :=
    if contains " and " name then aliases ++ [replace " and " " & " name]
    else aliases in
  elements (list_to_set aliases : gset string).

(** *** The indexes built at the start of [perform_matching] *)

Definition index_ticker (gs_by_ticker : gmap string GoldstockCompany.t)
  (gs : GoldstockCompany.t) : gmap string GoldstockCompany.t :=
  match GoldstockCompany.ticker gs with
  | Some t =>
      if truthy t then
        match normalize_ticker (Some t) with
        | Some normalized_ticker =>
            if truthy normalized_ticker
            then <[normalized_ticker := gs]> gs_by_ticker
            else gs_by_ticker
        | None => gs_by_ticker
        end
      else gs_by_ticker
  | None => gs_by_ticker
  end.

Definition index_one_name (gs : GoldstockCompany.t)
  (gs_by_normalized_name : gmap string GoldstockCompany.t) (name : string)
  : gmap string GoldstockCompany.t :=
  let normalized := normalize_name (Some name) in
  if truthy normalized then <[normalized := gs]> gs_by_normalized_name
  else gs_by_normalized_name.

Definition index_names (gs_by_normalized_name : gmap string GoldstockCompany.t)
  (gs : GoldstockCompany.t) : gmap string GoldstockCompany.t :=
  fold_left (index_one_name gs) (GoldstockCompany.aliases gs)
            (index_one_name gs gs_by_normalized_name (GoldstockCompany.company_name gs)).

Definition gs_by_ticker (goldstock_companies : list GoldstockCompany.t)
  : gmap string GoldstockCompany.t :=
  fold_left index_ticker goldstock_companies ∅.

Definition gs_by_normalized_name (goldstock_companies : list GoldstockCompany.t)
  : gmap string GoldstockCompany.t :=
  fold_left index_names goldstock_companies ∅.

(** *** The tiers of [perform_matching] *)
Section Matching.

Variable scorer : string → string → Z.
Variable goldstock_companies : list GoldstockCompany.t.
Variable known_mappings : gmap Z Known.t.

Definition matched_with (company : Company.t) (gs : GoldstockCompany.t)
  (st : status) (confidence : Z) (m : method) : Mapping.t :=
  Mapping.mk (Company.company_id company) (Company.company_name company)
             (Company.tsx_code company)
             (Some (GoldstockCompany.goldstock_id gs))
             (Some (GoldstockCompany.company_name gs)) st confidence m.

Definition known_tier (company : Company.t) : option Mapping.t :=
  match known_mappings !! Company.company_id company with
  | Some known =>
      Some (Mapping.mk (Company.company_id company) (Company.company_name company)
                       (Company.tsx_code company)
                       (Some (Known.goldstock_id known))
                       (Some (Known.goldstock_name known))
                       matched (Known.confidence_score known) known_mapping)
  | None => None
  end.

Definition ticker_tier (company : Company.t) : option Mapping.t :=
  match Company.tsx_code company with
  | Some t =>
      if truthy t then
        match normalize_ticker (Some t) with
        | Some normalized_ticker =>
            if truthy normalized_ticker then
              match gs_by_ticker goldstock_companies !! normalized_ticker with
              | Some gs => Some (matched_with company gs matched 100 exact_ticker)
              | None => None
              end
            else None
        | None => None
        end
      else None
  | None => None
  end.

Definition name_tier (company : Company.t) : option Mapping.t :=
  let normalized_name := normalize_name (Some (Company.company_name company)) in
  match gs_by_normalized_name goldstock_companies !! normalized_name with
  | Some gs => Some (matched_with company gs matched 95 exact_name)
  | None => None
  end.

(** The three tiers that end the iteration with [continue]. *)
Definition early_tiers (company : Company.t) : option Mapping.t :=
  match known_tier company with
  | Some m => Some m
  | None =>
      match ticker_tier company with
      | Some m => Some m
      | None => name_tier company
      end
  end.

(** The search for the best fuzzy candidate: [best_match] and [best_score]
    once the block [if normalized_name and all_gs_names] is over. *)
Definition fuzzy_best (company : Company.t) : option GoldstockCompany.t * Z :=
  let normalized_name := normalize_name (Some (Company.company_name company)) in
  match goldstock_companies with
  | [] => (None, 0)
  | _ :: _ =>
      if truthy normalized_name then
        let normalized_gs_names :=
          map (λ gs, normalize_name (Some (GoldstockCompany.company_name gs)))
              goldstock_companies in
        match Fuzzy.extractOne scorer normalized_name normalized_gs_names 0 with
        | Some (matched_name, score) =>
            match List.find (λ gs, String.eqb
                      (normalize_name (Some (GoldstockCompany.company_name gs)))
                      matched_name) goldstock_companies with
            | Some gs => if 80 <=? score then (Some gs, score) else (None, 0)
            | None => (None, 0)
            end
        | None => (None, 0)
        end
      else (None, 0)
  end.

Definition unmatched_mapping (company : Company.t) : Mapping.t :=
  Mapping.mk (Company.company_id company) (Company.company_name company)
             (Company.tsx_code company) None None unmatched 0 none.

Definition fuzzy_tier (company : Company.t) : Mapping.t :=
  match fuzzy_best company with
  | (Some best_match, best_score) =>
      if 80 <=? best_score then
        matched_with company best_match
          (if 90 <=? best_score then matched else manual) best_score fuzzy_name
      else unmatched_mapping company
  | (None, _) => unmatched_mapping company
  end.

(** The mapping one iteration appends. *)
Definition match_company (company : Company.t) : Mapping.t :=
  match early_tiers company with
  | Some m => m
  | None => fuzzy_tier company
  end.

(** The loop over [companies]: [interrupted i] is the value of the global
    flag when iteration [i] reads it.  The periodic save is reached by the
    iterations that no [continue] ended. *)
Fixpoint matching_loop (interrupted : nat → bool) (i : nat)
  (companies : list Company.t) (mappings : list Mapping.t) (w : Run.world)
  : list Mapping.t * Run.world :=
  match companies with
  | [] => (mappings, w)
  | company :: companies' =>
      if interrupted i then (mappings, w)
      else
        match early_tiers company with
        | Some m => matching_loop interrupted (S i) companies' (mappings ++ [m]) w
        | None =>
            let mappings := mappings ++ [fuzzy_tier company] in
            let w := if (length mappings mod 10 =? 0)%nat
                     then Run.save_mappings mappings (Run.save_checkpoint mappings w)
                     else w in
            matching_loop interrupted (S i) companies' mappings w
        end
  end.

Definition perform_matching (interrupted : nat → bool)
  (companies : list Company.t) (w : Run.world) : list Mapping.t * Run.world :=
  let '(mappings, w) := matching_loop interrupted 0 companies [] w in
  (mappings, Run.save_checkpoint mappings (Run.save_mappings mappings w)).

End Matching.

(** *** The fetcher *)
Section Fetch.
Import Persist Run.

Variable web : Z → response.

(** [GoldstockScraper.fetch_company_by_id].  A key found in the cache answers
    without a request.  The 404 branch stores [None] and returns; the two
    other storing branches also save the cache when its size is a multiple
    of 50. *)
Definition fetch_company_by_id (goldstock_id : Z) (w : world)
  : option GoldstockCompany.t * world :=
  let cache_key := cache_key goldstock_id in
  match cache w !! cache_key with
  | Some cached => (cached, w)
  | None =>
      let w := add_request goldstock_id w in
      match web goldstock_id with
      | Status404 => (None, set_cache (insert cache_key None) w)
      | NoCompanyName =>
          (None, save_cache_periodically (set_cache (insert cache_key None) w))
      | Found company_name ticker _ =>
          let result :=
            GoldstockCompany.mk (pretty goldstock_id) company_name ticker
                                (extract_company_aliases company_name) None in
          (Some result,
           save_cache_periodically (set_cache (insert cache_key (Some result)) w))
      | RequestFailed => (None, w)
      end
  end.

(** [fetch_companies_parallel] with the pool serialised: the IDs of
    [range(start_id, max_id + 1)] are fetched one after the other, in
    increasing order, and the records found are collected in that order. *)
Definition fetch_companies_parallel (start_id max_id : Z) (w : world)
  : list GoldstockCompany.t * world :=
  fold_left (λ '(companies, w) gid,
               match fetch_company_by_id gid w with
               | (Some result, w') => (companies ++ [result], w')
               | (None, w') => (companies, w')
               end)
            (seqZ start_id (max_id + 1 - start_id)) ([], w).

End Fetch.

(** *** The driver *)
Section Main.
Import Persist Run.

Variable scorer : string → string → Z.

Definition known_mappings : gmap Z Known.t :=
  list_to_map
    [(8, Known.mk "1" "Abcourt Mines Inc" 100);
     (10, Known.mk "8" "Agnico Eagle Mines Ltd" 100);
     (331, Known.mk "374" "Probe Gold Inc" 100);
     (48, Known.mk "1470" "Aya Gold & Silver Inc." 100);
     (313, Known.mk "605" "Aura Minerals Inc." 100)].

(** [load_companies]: [JSON_FILE] is the list the input file decodes to, or
    [None] when it is missing or is no JSON text. *)
Definition load_companies (limit : option Z) (JSON_FILE : option (list Company.t))
  : list Company.t :=
  match JSON_FILE with
  | Some data =>
      match limit with
      | Some l => if l =? 0 then data else slice_to l data
      | None => data
      end
  | None => []
  end.

(** [CompanyMatcher.__init__]. *)
Definition CompanyMatcher (w : world) : outcome world :=
  match load_cache (CACHE_FILE w) with
  | Raises e => Raises e
  | Returns c =>
      match load_checkpoint (CHECKPOINT_FILE w) with
      | Raises e => Raises e
      | Returns k => Returns (set_checkpoint k (set_cache (λ _, c) w))
      end
  end.

(** [main], for a run that no signal interrupts. *)
Definition main (a : args) (JSON_FILE : option (list Company.t))
  (web : Z → response) (w : world) : ending * world :=
  let w := if clear_cache a && exists_ (CACHE_FILE w)
           then set_CACHE_FILE Absent w else w in
  match CompanyMatcher w with
  | Raises e => (Crashed e, w)
  | Returns w =>
      let companies := load_companies (limit a) JSON_FILE in
      match companies with
      | [] => (Completed, w)
      | _ :: _ =>
          let companies :=
            match resume a, Checkpoint.processed_ids (checkpoint w) with
            | true, _ :: _ =>
                let processed_ids : gset Z :=
                  list_to_set (Checkpoint.processed_ids (checkpoint w)) in
                List.filter (λ c, negb (bool_decide (Company.company_id c ∈ processed_ids)))
                            companies
            | _, _ => companies
            end in
          let '(goldstock_companies, w) :=
            fetch_companies_parallel web 1 (max_id a) w in
          match goldstock_companies with
          | [] => (Completed, w)
          | _ :: _ =>
              let '(mappings, w) :=
                perform_matching scorer goldstock_companies known_mappings
                                 (λ _, false) companies w in
              let mappings :=
                match resume a, Checkpoint.mappings (checkpoint w) with
                | true, _ :: _ => Checkpoint.mappings (checkpoint w) ++ mappings
                | _, _ => mappings
                end in
              let w := save_mappings mappings w in
              (* the summary divides by [len(mappings)] *)
              match mappings with
              | [] => (Crashed ZeroDivisionError, w)
              | _ :: _ =>
                  let w := if exists_ (CHECKPOINT_FILE w)
                           then set_CHECKPOINT_FILE Absent w else w in
                  (Completed, w)
              end
          end
      end
  end.

End Main.

End Script1.

(** ** [mapping_script2.py]: the extended rule set *)
Module Script2.
Import Py Re.

Definition exchange_prefixes : list string :=
  ["CVE"; "TSE"; "TSX"; "TSXV"; "CSE"; "CNSX"; "NYSE"; "NASDAQ"; "OTC"; "NEO"].
Definition exchange_suffixes : list string :=
  ["V"; "TO"; "CN"; "T"; "VN"; "WT"; "CSE"; "NEO"].

Definition normalize_ticker (ticker : option string) : option string :=
  match ticker with
  | None => None
  | Some t =>
      if negb (truthy t) then None
      else
        let t := on_chars (sub_exchange_prefix exchange_prefixes) t in
        let t := on_chars (sub_exchange_suffix exchange_suffixes) t in
        let t := on_chars sub_ticker_punct t in
        Some (upper (strip t))
  end.

Definition suffixes : list (string * option ascii) :=
  [("inc", Some "."%char); ("ltd", Some "."%char); ("limited", None);
   ("corp", Some "."%char); ("corporation", None); ("plc", None);
   ("llc", None); ("sa", None); ("ag", None); ("mining", None);
   ("mines", None); ("resources", None); ("minerals", None); ("gold", None);
   ("silver", None); ("metals", None); ("exploration", None);
   ("venture", Some "s"%char); ("holding", Some "s"%char); ("group", None);
   ("international", None)].

Definition strip_suffixes (l : list ascii) : list ascii :=
  fold_left (λ name sfx, sub_name_suffix sfx name) suffixes l.

Definition normalize_name (name : option string) : string :=
  match name with
  | None => ""
  | Some n =>
      if negb (truthy n) then ""
      else
        let n := lower n in
        let n := on_chars strip_suffixes n in
        let n := on_chars sub_special n in
        let n := on_chars sub_spaces n in
        strip n
  end.

(** [''.join(w[0].upper() for w in words if w and w[0].isalpha())]. *)
Definition abbrev (words : list string) : string :=
  str (flat_map (λ w, match chars w with
                      | c :: _ => if isalpha c then [upper_char c] else []
                      | [] => []
                      end) words).

Definition extract_company_aliases (name : string) : list string :=
  let aliases := [name] in
  let aliases :=
    if contains "(" name && contains ")" name then
      let clean_name := strip (on_chars sub_parens name) in
      let aliases := if truthy clean_name then aliases ++ [clean_name] else aliases in
      let matches := map str (findall_parens (chars name)) in
      aliases ++ matches
    else aliases in
  let words := split name in
  let aliases :=
    if (1 <? length words)%nat then
      if (1 <? String.length (abbrev words))%nat then aliases ++ [abbrev words]
      else aliases
    else aliases in
  let aliases :=
    if contains "&" name then aliases ++ [replace "&" "and" name] else aliases in
  let aliases :=
    if contains " and " (lower name) then aliases ++ [replace " and " " & " name]
    else aliases in
  elements (list_to_set aliases : gset string).

(** *** The indexes built at the start of [perform_matching] *)

Definition index_ticker (gs_by_ticker : gmap string GoldstockCompany.t)
  (gs : GoldstockCompany.t) : gmap string GoldstockCompany.t :=
  match GoldstockCompany.ticker gs with
  | Some t =>
      if truthy t then
        match normalize_ticker (Some t) with
        | Some normalized_ticker =>
            if truthy normalized_ticker
            then <[normalized_ticker := gs]> gs_by_ticker
            else gs_by_ticker
        | None => gs_by_ticker
        end
      else gs_by_ticker
  | None => gs_by_ticker
  end.

Definition index_one_name (gs : GoldstockCompany.t)
  (gs_by_normalized_name : gmap string GoldstockCompany.t) (name : string)
  : gmap string GoldstockCompany.t :=
  let normalized := normalize_name (Some name) in
  if truthy normalized then <[normalized := gs]> gs_by_normalized_name
  else gs_by_normalized_name.

Definition index_names (gs_by_normalized_name : gmap string GoldstockCompany.t)
  (gs : GoldstockCompany.t) : gmap string GoldstockCompany.t :=
  fold_left (index_one_name gs) (GoldstockCompany.aliases gs)
            (index_one_name gs gs_by_normalized_name (GoldstockCompany.company_name gs)).

Definition gs_by_ticker (goldstock_companies : list GoldstockCompany.t)
  : gmap string GoldstockCompany.t :=
  fold_left index_ticker goldstock_companies ∅.

Definition gs_by_normalized_name (goldstock_companies : list GoldstockCompany.t)
  : gmap string GoldstockCompany.t :=
  fold_left index_names goldstock_companies ∅.

(** *** The tiers of [perform_matching] *)
Section Matching.

Variable scorer : string → string → Z.
Variable goldstock_companies : list GoldstockCompany.t.
Variable known_mappings : gmap Z Known.t.

(** The local variables one iteration sets before it builds the mapping. *)
Record locals := mkLocals {
  match_ : option GoldstockCompany.t;
  confidence : Z;
  status_ : status;
  goldstock_id : option string;
  goldstock_name : option string;
  match_method : method }.

Definition found (gs : GoldstockCompany.t) (confidence : Z) (st : status)
  (m : method) : locals :=
  mkLocals (Some gs) confidence st (Some (GoldstockCompany.goldstock_id gs))
           (Some (GoldstockCompany.company_name gs)) m.

Definition known_tier (company : Company.t) (l : locals) : locals :=
  match known_mappings !! Company.company_id company with
  | Some known =>
      found (GoldstockCompany.mk (Known.goldstock_id known)
                                 (Known.goldstock_name known) None [] None)
            (Known.confidence_score known) matched known_mapping
  | None => l
  end.

Definition ticker_tier (normalized_tsx_code : option string) (l : locals) : locals :=
  match match_ l, normalized_tsx_code with
  | None, Some n =>
      if truthy n then
        match gs_by_ticker goldstock_companies !! n with
        | Some gs => found gs 100 matched exact_ticker
        | None => l
        end
      else l
  | _, _ => l
  end.

Definition name_tier (normalized_company_name : string) (l : locals) : locals :=
  match match_ l with
  | None =>
      match gs_by_normalized_name goldstock_companies !! normalized_company_name with
      | Some gs => found gs 95 matched exact_name
      | None => l
      end
  | Some _ => l
  end.

(** [choices.index(matched_name)] cannot fail: [extractOne] returns one of
    the choices. *)
Definition fuzzy_tier (normalized_company_name : string) (l : locals) : locals :=
  match match_ l with
  | None =>
      if truthy normalized_company_name then
        let choices :=
          map (λ gs, normalize_name (Some (GoldstockCompany.company_name gs)))
              goldstock_companies in
        match Fuzzy.extractOne scorer normalized_company_name choices 70 with
        | Some (matched_name, score) =>
            match list_find (λ c, c = matched_name) choices with
            | Some (idx, _) =>
                match goldstock_companies !! idx with
                | Some gs =>
                    found gs score (if 85 <=? score then matched else manual)
                          fuzzy_name
                | None => l
                end
            | None => l
            end
        | None => l
        end
      else l
  | Some _ => l
  end.

(** The mapping one iteration appends. *)
Definition match_company (company : Company.t) : Mapping.t :=
  let normalized_tsx_code := normalize_ticker (Company.tsx_code company) in
  let normalized_company_name :=
    normalize_name (Some (Company.company_name company)) in
  let l := mkLocals None 0 unmatched None None none in
  let l := known_tier company l in
  let l := ticker_tier normalized_tsx_code l in
  let l := name_tier normalized_company_name l in
  let l := fuzzy_tier normalized_company_name l in
  Mapping.mk (Company.company_id company) (Company.company_name company)
             (Company.tsx_code company) (goldstock_id l) (goldstock_name l)
             (status_ l) (confidence l) (match_method l).

(** The loop over [companies], [n] of them in all: the global flag is read at
    the top of iteration [i], value [interrupted (2 * i)], and at its bottom,
    value [interrupted (2 * i + 1)]. *)
Fixpoint matching_loop (interrupted : nat → bool) (n i : nat)
  (companies : list Company.t) (mappings : list Mapping.t) (w : Run.world)
  : list Mapping.t * Run.world :=
  match companies with
  | [] => (mappings, w)
  | company :: companies' =>
      if interrupted (2 * i)%nat then (mappings, w)
      else
        let mappings := mappings ++ [match_company company] in
        let w := if ((i + 1) mod 10 =? 0)%nat || (i =? n - 1)%nat
                 then Run.save_checkpoint mappings (Run.save_mappings mappings w)
                 else w in
        if interrupted (2 * i + 1)%nat
        then (mappings, Run.save_checkpoint mappings (Run.save_mappings mappings w))
        else matching_loop interrupted n (S i) companies' mappings w
  end.

Definition perform_matching (interrupted : nat → bool)
  (companies : list Company.t) (w : Run.world) : list Mapping.t * Run.world :=
  match goldstock_companies with
  | [] => ([], w)
  | _ :: _ => matching_loop interrupted (length companies) 0 companies [] w
  end.

End Matching.

(** *** The fetcher *)
Section Fetch.
Import Persist Run.

Variable web : Z → response.

(** [GoldstockScraper.fetch_company_by_id].  A key found in the cache answers
    without a request; every storing branch saves the cache when its size is
    a multiple of 50. *)
Definition fetch_company_by_id (goldstock_id : Z) (w : world)
  : option GoldstockCompany.t * world :=
  let cache_key := cache_key goldstock_id in
  match cache w !! cache_key with
  | Some cached => (cached, w)
  | None =>
      let w := add_request goldstock_id w in
      match web goldstock_id with
      | Status404 | NoCompanyName =>
          (None, save_cache_periodically (set_cache (insert cache_key None) w))
      | Found company_name ticker exchange =>
          let result :=
            GoldstockCompany.mk (pretty goldstock_id) company_name ticker
                                (extract_company_aliases company_name) exchange in
          (Some result,
           save_cache_periodically (set_cache (insert cache_key (Some result)) w))
      | RequestFailed => (None, w)
      end
  end.

(** [fetch_companies_parallel] with the pool serialised, as in [Script1]. *)
Definition fetch_companies_parallel (start_id max_id : Z) (w : world)
  : list GoldstockCompany.t * world :=
  fold_left (λ '(companies, w) gid,
               match fetch_company_by_id gid w with
               | (Some result, w') => (companies ++ [result], w')
               | (None, w') => (companies, w')
               end)
            (seqZ start_id (max_id + 1 - start_id)) ([], w).

End Fetch.

(** *** The driver *)
Section Main.
Import Persist Run.

Variable scorer : string → string → Z.

Definition known_mappings : gmap Z Known.t :=
  list_to_map
    [(8, Known.mk "1" "Abcourt Mines Inc" 100);
     (10, Known.mk "8" "Agnico Eagle Mines Ltd" 100);
     (331, Known.mk "374" "Probe Gold Inc" 100);
     (48, Known.mk "1470" "Aya Gold & Silver Inc." 100);
     (313, Known.mk "605" "Aura Minerals Inc." 100)].

(** [load_companies]; here [limit] is applied whenever it is given. *)
Definition load_companies (limit : option Z) (JSON_FILE : option (list Company.t))
  : list Company.t :=
  match JSON_FILE with
  | Some data =>
      match limit with
      | Some l => slice_to l data
      | None => data
      end
  | None => []
  end.

(** [CompanyMatcher.__init__]. *)
Definition CompanyMatcher (w : world) : outcome world :=
  match load_cache (CACHE_FILE w) with
  | Raises e => Raises e
  | Returns c =>
      match load_checkpoint (CHECKPOINT_FILE w) with
      | Raises e => Raises e
      | Returns k => Returns (set_checkpoint k (set_cache (λ _, c) w))
      end
  end.

(** [main], for a run that no signal interrupts.  The probe for logos, which
    only sends requests and writes log lines, is left out. *)
Definition main (a : args) (JSON_FILE : option (list Company.t))
  (web : Z → response) (w : world) : ending * world :=
  let w := if clear_cache a
           then set_CHECKPOINT_FILE Absent (set_CACHE_FILE Absent w) else w in
  match CompanyMatcher w with
  | Raises e => (Crashed e, w)
  | Returns w =>
      let companies := load_companies (limit a) JSON_FILE in
      match companies with
      | [] => (Exited 1, w)
      | _ :: _ =>
          let companies :=
            match resume a, Checkpoint.processed_ids (checkpoint w) with
            | true, _ :: _ =>
                let processed_ids : gset Z :=
                  list_to_set (Checkpoint.processed_ids (checkpoint w)) in
                List.filter (λ c, negb (bool_decide (Company.company_id c ∈ processed_ids)))
                            companies
            | _, _ => companies
            end in
          let '(goldstock_companies, w) :=
            fetch_companies_parallel web 1 (max_id a) w in
          match goldstock_companies with
          | [] => (Exited 1, w)
          | _ :: _ =>
              let '(mappings, w) :=
                perform_matching scorer goldstock_companies known_mappings
                                 (λ _, false) companies w in
              let mappings :=
                match resume a, Checkpoint.mappings (checkpoint w) with
                | true, _ :: _ => Checkpoint.mappings (checkpoint w) ++ mappings
                | _, _ => mappings
                end in
              let w := save_cache (save_checkpoint mappings (save_mappings mappings w)) in
              (* the summary divides by [len(mappings)] *)
              match mappings with
              | [] => (Crashed ZeroDivisionError, w)
              | _ :: _ =>
                  let w := if exists_ (CHECKPOINT_FILE w)
                           then set_CHECKPOINT_FILE Absent w else w in
                  (Exited 0, w)
              end
          end
      end
  end.

End Main.

End Script2.




(** ** Predicates of the statements *)
Module Stable.
Import Py Re.

(** [l] begins with one of the exchange codes and a colon, in any case. *)
Definition has_exchange_prefix (alts : list string) (l : list ascii) : bool :=
  existsb (λ a, bool_decide (is_Some (ci_after_prefix (chars a ++ chars ":") l))) alts.

(** [l] holds one of the characters [.], [-], [_]. *)
Definition has_ticker_punct (l : list ascii) : bool := existsb is_ticker_punct l.

(** A normalized ticker on which normalizing again changes nothing: no
    ticker at all, or a non-empty one without exchange prefix and without
    punctuation left. *)
Definition ticker_fixed (prefixes : list string) (r : option string) : bool :=
  match r with
  | None => true
  | Some t =>
      truthy t && negb (has_exchange_prefix prefixes (chars t))
      && negb (has_ticker_punct (chars t))
  end.

(** [l] ends with a space and the word of [sfx], with or without the optional
    character of [sfx]. *)
Definition ends_with_suffix (sfx : string * option ascii) (l : list ascii) : bool :=
  endswith_l (SP :: chars sfx.1) l
  || match sfx.2 with
     | Some c => endswith_l (SP :: chars sfx.1 ++ [c]) l
     | None => false
     end.

(** A normalized name that ends with none of the suffix words. *)
Definition name_fixed (suffixes : list (string * option ascii)) (r : string) : bool :=
  forallb (λ sfx, negb (ends_with_suffix sfx (chars r))) suffixes.

(** [l] does not begin with white space. *)
Definition head_ok (l : list ascii) : bool :=
  match l with c :: _ => negb (isspace c) | [] => true end.

(** The steps of [normalize_ticker] after its guards, on character lists. *)
Definition ticker_pipeline (prefixes suffixes : list string) (l : list ascii)
  : list ascii :=
  upper_l (strip_l (sub_ticker_punct
    (sub_exchange_suffix suffixes (sub_exchange_prefix prefixes l)))).

(** The steps of [normalize_name] after its guard, on character lists. *)
Definition name_pipeline (suffixes : list (string * option ascii))
  (l : list ascii) : list ascii :=
  strip_l (sub_spaces (sub_special
    (fold_left (λ name sfx, sub_name_suffix sfx name) suffixes (lower_l l)))).

(** [c] is unchanged by [lower]. *)
Definition lower_fixed (c : ascii) : bool := Ascii.eqb (lower_char c) c.

(** A character of a normalized name: a word character that is not an upper
    case letter, or a space. *)
Definition name_char (c : ascii) : bool :=
  (isword c && lower_fixed c) || Ascii.eqb c SP.

(** Every white space of [l] is one space that follows no white space;
    [prev_ws] tells whether white space precedes [l]. *)
Fixpoint single_spaced (prev_ws : bool) (l : list ascii) : bool :=
  match l with
  | [] => true
  | c :: l' =>
      if isspace c
      then Ascii.eqb c SP && negb prev_ws && single_spaced true l'
      else single_spaced false l'
  end.

(** The pattern of [sfx] matches [l]. *)
Definition suffix_match (sfx : string * option ascii) (l : list ascii)
  : option (list ascii) :=
  let '(body, eol) := split_eol l in
  match sfx.2 with
  | Some c =>
      match ws_word_end (chars sfx.1 ++ [c]) body with
      | Some b => Some b
      | None => ws_word_end (chars sfx.1) body
      end
  | None => ws_word_end (chars sfx.1) body
  end.

(** The word of [sfx] and its optional character are written in lower case. *)
Definition lower_sfx (sfx : string * option ascii) : bool :=
  forallb lower_fixed (chars sfx.1)
  && match sfx.2 with Some o => lower_fixed o | None => true end.

(** The outcome the override [known] gives to [company]. *)
Definition override_mapping (company : Company.t) (known : Known.t) : Mapping.t :=
  Mapping.mk (Company.company_id company) (Company.company_name company)
             (Company.tsx_code company)
             (Some (Known.goldstock_id known)) (Some (Known.goldstock_name known))
             matched (Known.confidence_score known) known_mapping.

(** The invariant of a mapping: unmatched, without external ID, without
    method and with confidence 0 all at once, or none of them. *)
Definition coherent (m : Mapping.t) : Prop :=
  (Mapping.match_status m = unmatched ↔ Mapping.goldstock_id m = None)
  ∧ (Mapping.goldstock_id m = None ↔ Mapping.match_method m = none)
  ∧ (Mapping.match_method m = none ↔ Mapping.confidence_score m = 0).

(** The greatest score of a non-empty list of choices. *)
Definition best_score (scorer : string → string → Z) (query : string)
  (choices : list string) : Z :=
  match choices with
  | [] => 0
  | c :: cs => foldr (λ c' acc, Z.max (scorer query c') acc) (scorer query c) cs
  end.

(** A mapping is either the unmatched one or a full one. *)
Definition well_formed (m : Mapping.t) : Prop :=
  (Mapping.match_status m = unmatched ∧ Mapping.goldstock_id m = None
   ∧ Mapping.match_method m = none ∧ Mapping.confidence_score m = 0)
  ∨ (Mapping.match_status m ≠ unmatched ∧ Mapping.goldstock_id m ≠ None
     ∧ Mapping.match_method m ≠ none ∧ 0 < Mapping.confidence_score m).

(** The local variables of an iteration of [mapping_script2.py] before any
    tier has matched, and the condition they meet at any time. *)
Definition no_match : Script2.locals :=
  Script2.mkLocals None 0 unmatched None None none.

Definition locals_ok (l : Script2.locals) : Prop :=
  l = no_match
  ∨ (is_Some (Script2.match_ l) ∧ Script2.status_ l ≠ unmatched
     ∧ Script2.goldstock_id l ≠ None ∧ Script2.match_method l ≠ none
     ∧ 0 < Script2.confidence l).

(** The outcome of the fuzzy tier for a company whose normalized name is
    [query], when [top] is the greatest score of an external record:
    accepted from [floor] on, matched from [split] on, unmatched below
    [floor]. *)
Definition fuzzy_outcome (scorer : string → string → Z)
  (normalize_name : option string → string)
  (goldstock_companies : list GoldstockCompany.t)
  (floor split : Z) (query : string) (top : Z) (m : Mapping.t) : Prop :=
  (floor ≤ top →
     Mapping.match_method m = fuzzy_name
     ∧ Mapping.confidence_score m = top
     ∧ Mapping.match_status m = (if split <=? top then matched else manual)
     ∧ ∃ gs, gs ∈ goldstock_companies
         ∧ scorer query (normalize_name (Some (GoldstockCompany.company_name gs))) = top
         ∧ Mapping.goldstock_id m = Some (GoldstockCompany.goldstock_id gs)
         ∧ Mapping.goldstock_name m = Some (GoldstockCompany.company_name gs))
  ∧ (top < floor →
     Mapping.match_status m = unmatched ∧ Mapping.confidence_score m = 0
     ∧ Mapping.match_method m = none ∧ Mapping.goldstock_id m = None
     ∧ Mapping.goldstock_name m = None).

(** What a fetch leaves alone, and what it requests. *)
Definition fetch_frame (w w' : Run.world) : Prop :=
  Run.checkpoint w' = Run.checkpoint w
  ∧ Run.CHECKPOINT_FILE w' = Run.CHECKPOINT_FILE w
  ∧ Run.OUTPUT_FILE w' = Run.OUTPUT_FILE w
  ∧ (∀ k v, Run.cache w !! k = Some v → Run.cache w' !! k = Some v)
  ∧ ∃ new, Run.requests w' = Run.requests w ++ new
           ∧ ∀ g, g ∈ new → Run.cache w !! Run.cache_key g = None.

End Stable.

(** ** A small run, used to evaluate the drivers *)
Module Scenario.
Import Persist Run.

(** A stand-in for [fuzz.token_sort_ratio]: equal strings score 100, others 0. *)
Definition scorer (a b : string) : Z := if String.eqb a b then 100 else 0.

(** The input list holds one company. *)
Definition acme : Company.t := Company.mk 1 "Acme Mining" (Some "TSX:ACM").

(** The site knows company 1 and answers 404 for every other ID. *)
Definition site (goldstock_id : Z) : response :=
  if goldstock_id =? 1 then Found "Acme Mining Corp" (Some "ACM.TO") None
  else Status404.

(** The mapping of [acme] to company 1 of the site. *)
Definition acme_mapping : Mapping.t :=
  Mapping.mk 1 "Acme Mining" (Some "TSX:ACM") (Some "1")
             (Some "Acme Mining Corp") matched 100 exact_ticker.

(** Nothing on disk. *)
Definition fresh : world :=
  mkWorld ∅ (Checkpoint.mk [] []) Absent Absent None [].

(** On disk, the checkpoint of a run that had processed [acme]. *)
Definition checkpointed : world :=
  mkWorld ∅ (Checkpoint.mk [] []) Absent
          (Present (Parses (Checkpoint.mk [1] [acme_mapping]))) None [].

(** [--max-id 2], and [--max-id 2 --resume]. *)
Definition plain : args := mkArgs None 2 false false.
Definition resuming : args := mkArgs None 2 true false.

(** The override of the specification: company 10 is external company 8. *)
Definition agnico : Company.t :=
  Company.mk 10 "Agnico Eagle Mines Ltd" (Some "TSX:AEM").
Definition agnico_override : gmap Z Known.t :=
  {[ 10 := Known.mk "8" "Agnico Eagle Mines Ltd" 100 ]}.

(** A company and an external record that only the fuzzy tier can relate,
    with a scorer that gives them 78. *)
Definition probe : Company.t := Company.mk 5 "Probe Gold Group" None.
Definition probe_record : GoldstockCompany.t :=
  GoldstockCompany.mk "374" "Probe Gold Corp" None [] None.
Definition score_78 (a b : string) : Z := 78.

(** The external record of company 1 of [site], as the fetcher builds it. *)
Definition acme_record : GoldstockCompany.t :=
  GoldstockCompany.mk "1" "Acme Mining Corp" (Some "ACM.TO")
    (Script2.extract_company_aliases "Acme Mining Corp") None.

End Scenario.

(** ** Predicates of the further properties *)
Module More.
Import Py Re.

(** The records of [goldstock_companies] that the ticker index files under
    [key]: those whose ticker normalizes to [key], a non-empty string. *)
Definition filed_by_ticker (normalize_ticker : option string → option string)
  (key : string) (goldstock_companies : list GoldstockCompany.t)
  : list GoldstockCompany.t :=
  List.filter
    (λ gs, bool_decide (key ≠ ""
                        ∧ normalize_ticker (GoldstockCompany.ticker gs) = Some key))
    goldstock_companies.

(** The records that the name index files under [key]: those whose name or
    one of whose aliases normalizes to [key], a non-empty string. *)
Definition filed_by_name (normalize_name : option string → string)
  (key : string) (goldstock_companies : list GoldstockCompany.t)
  : list GoldstockCompany.t :=
  List.filter
    (λ gs, bool_decide
             (key ≠ ""
              ∧ key ∈ map (λ n, normalize_name (Some n))
                          (GoldstockCompany.company_name gs
                             :: GoldstockCompany.aliases gs)))
    goldstock_companies.

(** The mapping [m] carries the identity of the external record [gs]. *)
Definition carries (gs : GoldstockCompany.t) (m : Mapping.t) : Prop :=
  Mapping.goldstock_id m = Some (GoldstockCompany.goldstock_id gs)
  ∧ Mapping.goldstock_name m = Some (GoldstockCompany.company_name gs).

(** What the method of the mapping [m] of [company] tells about where its
    external identity comes from: the override table, a record of the list
    with the same non-empty normalized ticker, a record of the list one of
    whose names normalizes as the name of [company] does, or a record of the
    list whose normalized name scores [confidence_score m], at least
    [floor], against it. *)
Definition explained (normalize_ticker : option string → option string)
  (normalize_name : option string → string) (scorer : string → string → Z)
  (floor : Z) (goldstock_companies : list GoldstockCompany.t)
  (known_mappings : gmap Z Known.t) (company : Company.t) (m : Mapping.t)
  : Prop :=
  let query := normalize_name (Some (Company.company_name company)) in
  match Mapping.match_method m with
  | none =>
      Mapping.goldstock_id m = None ∧ Mapping.goldstock_name m = None
      ∧ Mapping.match_status m = unmatched
  | known_mapping =>
      ∃ known, known_mappings !! Company.company_id company = Some known
               ∧ Mapping.goldstock_id m = Some (Known.goldstock_id known)
               ∧ Mapping.goldstock_name m = Some (Known.goldstock_name known)
  | exact_ticker =>
      ∃ gs key, gs ∈ goldstock_companies ∧ carries gs m ∧ key ≠ ""
                ∧ normalize_ticker (Company.tsx_code company) = Some key
                ∧ normalize_ticker (GoldstockCompany.ticker gs) = Some key
  | exact_name =>
      ∃ gs, gs ∈ goldstock_companies ∧ carries gs m ∧ query ≠ ""
            ∧ query ∈ map (λ n, normalize_name (Some n))
                          (GoldstockCompany.company_name gs
                             :: GoldstockCompany.aliases gs)
  | fuzzy_name =>
      ∃ gs, gs ∈ goldstock_companies ∧ carries gs m ∧ query ≠ ""
            ∧ Mapping.confidence_score m
              = scorer query
                  (normalize_name (Some (GoldstockCompany.company_name gs)))
            ∧ floor ≤ Mapping.confidence_score m
  end.

(** The table, the checkpoint file and the checkpoint dictionary hold
    exactly [mappings]. *)
Definition saved (mappings : list Mapping.t) (w' : Run.world) : Prop :=
  let c := Checkpoint.mk (map Mapping.company_id mappings) mappings in
  Run.OUTPUT_FILE w' = Some mappings
  ∧ Run.CHECKPOINT_FILE w' = Persist.Present (Persist.Parses c)
  ∧ Run.checkpoint w' = c.

(** What the matching of a run that started in [w] has put on disk when it
    ends in [w'], [mappings] being the part of its result that was saved:
    nothing yet, or exactly [mappings]. *)
Definition persisted (mappings : list Mapping.t) (w w' : Run.world) : Prop :=
  match mappings with
  | [] => Run.OUTPUT_FILE w' = Run.OUTPUT_FILE w
          ∧ Run.CHECKPOINT_FILE w' = Run.CHECKPOINT_FILE w
          ∧ Run.checkpoint w' = Run.checkpoint w
  | _ :: _ => saved mappings w'
  end.

(** What the matching leaves alone: the cache, its file and the network. *)
Definition matching_frame (w w' : Run.world) : Prop :=
  Run.cache w' = Run.cache w ∧ Run.CACHE_FILE w' = Run.CACHE_FILE w
  ∧ Run.requests w' = Run.requests w.

(** The cache [c] holds nothing under the key of [goldstock_id]. *)
Definition uncached (c : Run.Cache) (goldstock_id : Z) : bool :=
  bool_decide (c !! Run.cache_key goldstock_id = None).

(** The request for [goldstock_id] fails on [web]. *)
Definition fails (web : Z → Run.response) (goldstock_id : Z) : bool :=
  match web goldstock_id with Run.RequestFailed => true | _ => false end.

(** The companies a run still has to process: with [--resume], those whose
    ID the checkpoint does not list. *)
Definition remaining (resume : bool) (k : Checkpoint.t)
  (companies : list Company.t) : list Company.t :=
  if resume
  then List.filter
         (λ c, negb (bool_decide
                       (Company.company_id c ∈ Checkpoint.processed_ids k)))
         companies
  else companies.

(** The rows [main] writes at its end, [new] being the mappings of this run
    and [old] those of the checkpoint it started from: as the checkpoint
    dictionary holds [new] by then whenever [new] is not empty, a resumed run
    appends [new] to itself. *)
Definition rows_written (resume : bool) (old new : list Mapping.t)
  : list Mapping.t :=
  if resume
  then match new with [] => old | _ :: _ => new ++ new end
  else new.

(** The cache a run starts with: that of the cache file when it parses and
    [--clear-cache] is not given, the empty one otherwise. *)
Definition starting_cache (clear_cache : bool) (CACHE_FILE : Persist.file Run.Cache)
  : Run.Cache :=
  if clear_cache then ∅
  else match CACHE_FILE with
       | Persist.Present (Persist.Parses c) => c
       | _ => ∅
       end.




End More.

(** * Properties *)

Import Py Re Persist Run Stable.

(** ** Characters and text *)

Ltac each_char c := destruct c as [[] [] [] [] [] [] [] []]; try reflexivity; try discriminate.

Lemma chars_str l : chars (str l) = l.
Proof. apply list_ascii_of_string_of_list_ascii. Qed.

Lemma str_chars s : str (chars s) = s.
Proof. apply string_of_list_ascii_of_string. Qed.

Lemma str_inj l1 l2 : str l1 = str l2 → l1 = l2.
Proof. intros H. rewrite <- (chars_str l1), <- (chars_str l2). by rewrite H. Qed.

Lemma truthy_str l : truthy (str l) = match l with [] => false | _ => true end.
Proof. by destruct l. Qed.

Lemma truthy_chars s : truthy s = match chars s with [] => false | _ => true end.
Proof. by destruct s. Qed.

Lemma length_str l : String.length (str l) = length l.
Proof. induction l; simpl; [done | by f_equal]. Qed.

Lemma length_chars s : String.length s = length (chars s).
Proof. by rewrite <- (length_str (chars s)), str_chars. Qed.

Lemma upper_char_idem c : upper_char (upper_char c) = upper_char c.
Proof. each_char c. Qed.

Lemma lower_char_idem c : lower_char (lower_char c) = lower_char c.
Proof. each_char c. Qed.

Lemma isspace_upper_char c : isspace (upper_char c) = isspace c.
Proof. each_char c. Qed.

Lemma isspace_lower_char c : isspace (lower_char c) = isspace c.
Proof. each_char c. Qed.

Lemma punct_upper_char c : is_ticker_punct (upper_char c) = is_ticker_punct c.
Proof. each_char c. Qed.

Lemma ci_dot c : ci_eqb "." c = true → c = "."%char.
Proof. each_char c. Qed.

Lemma upper_l_idem l : upper_l (upper_l l) = upper_l l.
Proof.
  unfold upper_l. rewrite map_map. apply map_ext. intros; apply upper_char_idem.
Qed.

Lemma lower_l_idem l : lower_l (lower_l l) = lower_l l.
Proof.
  unfold lower_l. rewrite map_map. apply map_ext. intros; apply lower_char_idem.
Qed.

(** *** Stripping white space *)

Lemma lstrip_head_ok l : head_ok (lstrip_l l) = true.
Proof.
  induction l as [|c l IH]; simpl; [done|].
  destruct (isspace c) eqn:E; [done | by simpl; rewrite E].
Qed.

Lemma lstrip_fixed l : head_ok l = true → lstrip_l l = l.
Proof. destruct l as [|c l]; simpl; [done|]. by destruct (isspace c). Qed.

Lemma lstrip_snoc l c :
  lstrip_l (l ++ [c]) =
  match lstrip_l l with
  | [] => if isspace c then [] else [c]
  | m => m ++ [c]
  end.
Proof.
  induction l as [|a l IH]; simpl; [done|].
  destruct (isspace a); [apply IH | done].
Qed.

Lemma rstrip_cons c l :
  rstrip_l (c :: l) =
  match rstrip_l l with
  | [] => if isspace c then [] else [c]
  | m => c :: m
  end.
Proof.
  unfold rstrip_l. rewrite reverse_cons, lstrip_snoc.
  destruct (lstrip_l (reverse l)) as [|a m] eqn:E.
  - rewrite reverse_nil. by destruct (isspace c).
  - rewrite reverse_app. simpl.
    destruct (reverse (a :: m)) eqn:E2; [|done].
    apply (f_equal reverse) in E2. by rewrite reverse_involutive in E2.
Qed.

Lemma rstrip_nil : rstrip_l [] = [].
Proof. done. Qed.

Lemma rstrip_head_ok l : head_ok l = true → head_ok (rstrip_l l) = true.
Proof.
  destruct l as [|c l]; [done|]. simpl. intros H. rewrite rstrip_cons.
  destruct (rstrip_l l); simpl; [|done].
  destruct (isspace c) eqn:E; simpl; [done | by rewrite E].
Qed.

Lemma rstrip_last_ok l : head_ok (reverse (rstrip_l l)) = true.
Proof. unfold rstrip_l. rewrite reverse_involutive. apply lstrip_head_ok. Qed.

Lemma rstrip_fixed l : head_ok (reverse l) = true → rstrip_l l = l.
Proof.
  intros H. unfold rstrip_l. rewrite lstrip_fixed by done.
  apply reverse_involutive.
Qed.

Lemma strip_l_fixed l :
  head_ok l = true → head_ok (reverse l) = true → strip_l l = l.
Proof. intros H1 H2. unfold strip_l. rewrite lstrip_fixed by done. by apply rstrip_fixed. Qed.

Lemma strip_l_ends l :
  head_ok (strip_l l) = true ∧ head_ok (reverse (strip_l l)) = true.
Proof.
  split; [apply rstrip_head_ok, lstrip_head_ok | apply rstrip_last_ok].
Qed.

Lemma strip_l_idem l : strip_l (strip_l l) = strip_l l.
Proof. destruct (strip_l_ends l). by apply strip_l_fixed. Qed.

Lemma lstrip_map f l :
  (∀ c, isspace (f c) = isspace c) → lstrip_l (map f l) = map f (lstrip_l l).
Proof.
  intros Hf. induction l as [|c l IH]; simpl; [done|].
  rewrite Hf. by destruct (isspace c).
Qed.

Lemma map_reverse' {A B} (f : A → B) l : map f (reverse l) = reverse (map f l).
Proof. apply (fmap_reverse f l). Qed.

Lemma rstrip_map f l :
  (∀ c, isspace (f c) = isspace c) → rstrip_l (map f l) = map f (rstrip_l l).
Proof.
  intros Hf. unfold rstrip_l.
  by rewrite <- map_reverse', lstrip_map, map_reverse'.
Qed.

Lemma strip_map f l :
  (∀ c, isspace (f c) = isspace c) → strip_l (map f l) = map f (strip_l l).
Proof. intros Hf. unfold strip_l. by rewrite lstrip_map, rstrip_map. Qed.

Lemma lstrip_split l :
  ∃ ws, l = ws ++ lstrip_l l ∧ Forall (λ c, isspace c = true) ws.
Proof.
  induction l as [|c l (ws & E & F)]; simpl; [by exists []|].
  destruct (isspace c) eqn:Hc.
  - exists (c :: ws). split; [by simpl; f_equal | by constructor].
  - by exists [].
Qed.

Lemma rstrip_split l :
  ∃ ws, l = rstrip_l l ++ ws ∧ Forall (λ c, isspace c = true) ws.
Proof.
  destruct (lstrip_split (reverse l)) as (ws & E & F).
  exists (reverse ws). split; [|by apply Forall_reverse].
  unfold rstrip_l. rewrite <- reverse_app, <- E. by rewrite reverse_involutive.
Qed.

Lemma strip_split l :
  ∃ ws1 ws2, l = ws1 ++ strip_l l ++ ws2.
Proof.
  destruct (lstrip_split l) as (ws1 & E1 & _).
  destruct (rstrip_split (lstrip_l l)) as (ws2 & E2 & _).
  exists ws1, ws2. unfold strip_l. by rewrite <- E2.
Qed.

Lemma strip_length l : (length (strip_l l) ≤ length l)%nat.
Proof.
  destruct (strip_split l) as (ws1 & ws2 & E).
  rewrite E at 2. rewrite !length_app. lia.
Qed.

Lemma strip_Forall (P : ascii → Prop) l : Forall P l → Forall P (strip_l l).
Proof.
  destruct (strip_split l) as (ws1 & ws2 & E). rewrite E at 1.
  rewrite !Forall_app. tauto.
Qed.

(** *** Matching a fixed text, case-insensitively *)

Lemma ci_after_prefix_spec p l rest :
  ci_after_prefix p l = Some rest →
  ∃ m, l = m ++ rest ∧ Forall2 (λ a b, ci_eqb a b = true) p m.
Proof.
  revert l. induction p as [|a p IH]; intros l; simpl.
  - intros [= ->]. by exists [].
  - destruct l as [|b l]; [done|].
    destruct (ci_eqb a b) eqn:E; [|done].
    intros (m & -> & F)%IH. exists (b :: m). split; [done | by constructor].
Qed.

Lemma ci_after_prefix_complete p m rest :
  Forall2 (λ a b, ci_eqb a b = true) p m →
  ci_after_prefix p (m ++ rest) = Some rest.
Proof.
  induction 1 as [|a b p m E F IH]; simpl; [done | by rewrite E].
Qed.

Lemma ci_before_suffix_spec p l body :
  ci_before_suffix p l = Some body →
  ∃ m, l = body ++ m ∧ Forall2 (λ a b, ci_eqb a b = true) p m.
Proof.
  unfold ci_before_suffix. intros H.
  destruct (ci_after_prefix (reverse p) (reverse l)) as [r|] eqn:E; [|done].
  injection H as <-.
  apply ci_after_prefix_spec in E as (m & E & F).
  exists (reverse m). split.
  - apply (f_equal reverse) in E. rewrite reverse_involutive in E.
    by rewrite E, reverse_app.
  - apply Forall2_reverse in F. by rewrite reverse_involutive in F.
Qed.

Lemma ci_before_suffix_complete p m body :
  Forall2 (λ a b, ci_eqb a b = true) p m →
  ci_before_suffix p (body ++ m) = Some body.
Proof.
  intros F. unfold ci_before_suffix. rewrite reverse_app.
  rewrite (ci_after_prefix_complete (reverse p) (reverse m)).
  - simpl. by rewrite reverse_involutive.
  - by apply Forall2_reverse.
Qed.

Lemma split_eol_spec l body eol :
  split_eol l = (body, eol) → l = body ++ eol ∧ (eol = [] ∨ eol = [LF]).
Proof.
  unfold split_eol. destruct (reverse l) as [|c r] eqn:E.
  - intros [= <- <-]. rewrite app_nil_r. auto.
  - destruct (Ascii.eqb c LF) eqn:Ec.
    + intros [= <- <-]. apply Ascii.eqb_eq in Ec as ->.
      apply (f_equal reverse) in E. rewrite reverse_involutive in E.
      rewrite E, reverse_cons. auto.
    + intros [= <- <-]. rewrite app_nil_r. auto.
Qed.

(** ** Tickers *)

Lemma ci_after_prefix_length p l rest :
  ci_after_prefix p l = Some rest → length l = (length p + length rest)%nat.
Proof.
  intros (m & -> & F)%ci_after_prefix_spec.
  rewrite length_app. by rewrite (Forall2_length _ _ _ F).
Qed.

Lemma sub_exchange_prefix_none alts l :
  has_exchange_prefix alts l = false → sub_exchange_prefix alts l = l.
Proof.
  induction alts as [|a alts IH]; simpl; [done|].
  intros [H1 H2]%orb_false_elim.
  destruct (ci_after_prefix _ l) eqn:E; [|by apply IH].
  apply bool_decide_eq_false in H1. destruct H1. by eexists.
Qed.

Lemma sub_exchange_prefix_some alts l :
  has_exchange_prefix alts l = true →
  (length (sub_exchange_prefix alts l) < length l)%nat.
Proof.
  induction alts as [|a alts IH]; simpl; [done|].
  destruct (ci_after_prefix _ l) as [rest|] eqn:E.
  - intros _. apply ci_after_prefix_length in E. rewrite E, length_app. simpl. lia.
  - intros [H|H]%orb_true_elim; [|by apply IH].
    apply bool_decide_eq_true in H. by destruct H.
Qed.

Lemma sub_exchange_prefix_length alts l :
  (length (sub_exchange_prefix alts l) ≤ length l)%nat.
Proof.
  destruct (has_exchange_prefix alts l) eqn:E.
  - apply sub_exchange_prefix_some in E. lia.
  - by rewrite sub_exchange_prefix_none.
Qed.

Lemma first_suffix_spec alts l body :
  first_suffix alts l = Some body →
  ∃ a, a ∈ alts ∧ ci_before_suffix a l = Some body.
Proof.
  induction alts as [|a alts IH]; simpl; [done|].
  destruct (ci_before_suffix a l) as [b|] eqn:E.
  - intros [= ->]. exists a. split; [left | done].
  - intros (a' & ? & ?)%IH. exists a'. split; [by right | done].
Qed.

Lemma sub_exchange_suffix_length alts l :
  (length (sub_exchange_suffix alts l) ≤ length l)%nat.
Proof.
  unfold sub_exchange_suffix. destruct (split_eol l) as [body eol] eqn:E.
  apply split_eol_spec in E as [-> _].
  destruct (first_suffix _ body) as [b|] eqn:F; [|done].
  apply first_suffix_spec in F as (a & _ & (m & -> & _)%ci_before_suffix_spec).
  rewrite !length_app. lia.
Qed.

Lemma sub_exchange_suffix_nodot alts l :
  has_ticker_punct l = false → sub_exchange_suffix alts l = l.
Proof.
  intros H. unfold sub_exchange_suffix.
  destruct (split_eol l) as [body eol] eqn:E.
  apply split_eol_spec in E as [-> _].
  destruct (first_suffix _ body) as [b|] eqn:F; [|done].
  apply first_suffix_spec in F as (a & Ha & (m & -> & F)%ci_before_suffix_spec).
  apply list_elem_of_In, in_map_iff in Ha as (a' & <- & _).
  simpl in F. inversion F as [|? d ? m' Hd _]; subst.
  apply ci_dot in Hd as ->.
  unfold has_ticker_punct in H. rewrite !existsb_app in H. simpl in H.
  by rewrite orb_true_r in H.
Qed.


Lemma sub_ticker_punct_fixed l :
  has_ticker_punct l = false → sub_ticker_punct l = l.
Proof.
  induction l as [|c l IH]; simpl; [done|].
  intros [-> H]%orb_false_elim. simpl. f_equal. by apply IH.
Qed.

Lemma sub_ticker_punct_length l :
  (length (sub_ticker_punct l) ≤ length l)%nat.
Proof. apply List.filter_length_le. Qed.

Lemma sub_ticker_punct_shorter l :
  has_ticker_punct l = true → (length (sub_ticker_punct l) < length l)%nat.
Proof.
  induction l as [|c l IH]; simpl; [done|].
  destruct (is_ticker_punct c) eqn:E; simpl.
  - intros _. pose proof (sub_ticker_punct_length l). lia.
  - intros H. apply IH in H. lia.
Qed.

Lemma upper_strip_fixed l :
  strip_l (upper_l (strip_l l)) = upper_l (strip_l l)
  ∧ upper_l (upper_l (strip_l l)) = upper_l (strip_l l).
Proof.
  split; [|apply upper_l_idem].
  unfold upper_l. rewrite strip_map by apply isspace_upper_char.
  by rewrite strip_l_idem.
Qed.




Lemma sub_exchange_suffix_shorter alts l :
  sub_exchange_suffix alts l = l
  ∨ (length (sub_exchange_suffix alts l) < length l)%nat.
Proof.
  unfold sub_exchange_suffix. destruct (split_eol l) as [body eol] eqn:E.
  apply split_eol_spec in E as [-> _].
  destruct (first_suffix _ body) as [b|] eqn:F; [right | by left].
  apply first_suffix_spec in F as (a & Ha & (m & -> & F)%ci_before_suffix_spec).
  apply list_elem_of_In, in_map_iff in Ha as (a' & <- & _).
  simpl in F. inversion F; subst. rewrite !length_app. simpl. lia.
Qed.


Lemma upper_l_length l : length (upper_l l) = length l.
Proof. apply length_map. Qed.

Lemma ticker_pipeline_length P S l :
  (length (ticker_pipeline P S l) ≤ length l)%nat
  ∧ (has_exchange_prefix P l = true ∨ has_ticker_punct l = true →
     (length (ticker_pipeline P S l) < length l)%nat).
Proof.
  unfold ticker_pipeline. rewrite upper_l_length.
  set (l1 := sub_exchange_prefix P l). set (l2 := sub_exchange_suffix S l1).
  pose proof (strip_length (sub_ticker_punct l2)) as H3.
  pose proof (sub_ticker_punct_length l2) as H2.
  pose proof (sub_exchange_suffix_length S l1) as H1.
  pose proof (sub_exchange_prefix_length P l) as H0.
  fold l1 l2 in H0, H1. split; [lia|].
  intros [H|H].
  - apply sub_exchange_prefix_some in H. fold l1 in H. lia.
  - destruct (has_exchange_prefix P l) eqn:HP.
    + apply sub_exchange_prefix_some in HP. fold l1 in HP. lia.
    + assert (l1 = l) as El1 by (by apply sub_exchange_prefix_none).
      destruct (sub_exchange_suffix_shorter S l1) as [E|E]; fold l2 in E.
      * rewrite E, El1 in *. apply sub_ticker_punct_shorter in H. lia.
      * lia.
Qed.

Lemma ticker_pipeline_fixed P S R :
  strip_l R = R → upper_l R = R →
  has_ticker_punct R = false → has_exchange_prefix P R = false →
  ticker_pipeline P S R = R.
Proof.
  intros H1 H2 H3 H4. unfold ticker_pipeline.
  rewrite sub_exchange_prefix_none by done.
  rewrite sub_exchange_suffix_nodot by done.
  rewrite sub_ticker_punct_fixed by done.
  by rewrite H1.
Qed.

Lemma after_prefix_spec p l rest :
  after_prefix p l = Some rest → l = p ++ rest.
Proof.
  revert l. induction p as [|a p IH]; intros [|b l]; simpl; try done.
  - by intros [= ->].
  - by intros [= ->].
  - destruct (Ascii.eqb a b) eqn:E; [|done].
    apply Ascii.eqb_eq in E as ->. intros ->%IH. done.
Qed.

Lemma endswith_l_spec p l : endswith_l p l = true → ∃ b, l = b ++ p.
Proof.
  unfold endswith_l, startswith_l.
  destruct (after_prefix (reverse p) (reverse l)) as [r|] eqn:E; [|done].
  intros _. apply after_prefix_spec in E. exists (reverse r).
  apply (f_equal reverse) in E. rewrite reverse_involutive in E.
  by rewrite E, reverse_app, reverse_involutive.
Qed.

Lemma script2_normalize_ticker_eq t :
  Script2.normalize_ticker (Some t) =
  if truthy t
  then Some (str (ticker_pipeline Script2.exchange_prefixes
                                  Script2.exchange_suffixes (chars t)))
  else None.
Proof.
  unfold Script2.normalize_ticker. destruct (truthy t); simpl; [|done].
  unfold upper, strip, on_chars, ticker_pipeline. by rewrite !chars_str.
Qed.

Lemma script1_normalize_ticker_eq t :
  Script1.normalize_ticker (Some t) =
  if truthy t then
    if endswith t ".CN"
    then Some (str (upper_l (strip_l (take (length (chars t) - 3) (chars t)))))
    else Some (str (ticker_pipeline Script1.exchange_prefixes
                                    Script1.exchange_suffixes (chars t)))
  else None.
Proof.
  unfold Script1.normalize_ticker. destruct (truthy t); simpl; [|done].
  destruct (endswith t ".CN").
  - unfold upper, strip, Script1.drop_last3, on_chars. by rewrite !chars_str.
  - unfold upper, strip, on_chars, ticker_pipeline. by rewrite !chars_str.
Qed.

(** When normalizing a normalized ticker again changes nothing: the argument
    is shared by the two scripts, which differ in their tables and in the
    [.CN] shortcut of [mapping_script.py]. *)
Section TickerFixed.

Variable normalize_ticker : option string → option string.
Variable prefixes : list string.

Hypothesis nt_None : normalize_ticker None = None.
Hypothesis nt_empty : normalize_ticker (Some "") = None.
Hypothesis nt_shape : ∀ t r,
  normalize_ticker (Some t) = Some r →
  (∃ l, r = str (upper_l (strip_l l)))
  ∧ (String.length r ≤ String.length t)%nat
  ∧ (has_exchange_prefix prefixes (chars t) = true
     ∨ has_ticker_punct (chars t) = true →
     (String.length r < String.length t)%nat).
Hypothesis nt_fixed : ∀ R,
  R ≠ [] → strip_l R = R → upper_l R = R →
  has_ticker_punct R = false → has_exchange_prefix prefixes R = false →
  normalize_ticker (Some (str R)) = Some (str R).

Lemma ticker_fixed_iff x :
  normalize_ticker (normalize_ticker x) = normalize_ticker x
  ↔ ticker_fixed prefixes (normalize_ticker x) = true.
Proof using All.
  destruct (normalize_ticker x) as [r|] eqn:E; [|by rewrite nt_None].
  destruct x as [t|]; [|by rewrite nt_None in E].
  destruct (nt_shape t r E) as ((l & ->) & _ & _).
  simpl. rewrite chars_str, truthy_str. split.
  - intros H. destruct (nt_shape _ _ H) as (_ & _ & Hlt).
    rewrite chars_str in Hlt.
    destruct (upper_l (strip_l l)) as [|c R] eqn:ER.
    { simpl in H. by rewrite nt_empty in H. }
    rewrite <- ER in *. clear ER.
    destruct (has_exchange_prefix prefixes _) eqn:HP;
      [specialize (Hlt ltac:(auto)); lia|].
    destruct (has_ticker_punct _) eqn:HQ;
      [specialize (Hlt ltac:(auto)); lia|].
    done.
  - destruct (upper_l (strip_l l)) as [|c R] eqn:ER; [done|].
    rewrite <- ER in *.
    intros [[_ HP%negb_true_iff]%andb_true_iff HQ%negb_true_iff]%andb_true_iff.
    destruct (upper_strip_fixed l).
    apply nt_fixed; try done. by rewrite ER.
Qed.

End TickerFixed.

Lemma script2_ticker_shape t r :
  Script2.normalize_ticker (Some t) = Some r →
  (∃ l, r = str (upper_l (strip_l l)))
  ∧ (String.length r ≤ String.length t)%nat
  ∧ (has_exchange_prefix Script2.exchange_prefixes (chars t) = true
     ∨ has_ticker_punct (chars t) = true →
     (String.length r < String.length t)%nat).
Proof.
  rewrite script2_normalize_ticker_eq. destruct (truthy t); [|done].
  intros [= <-]. rewrite length_str, length_chars.
  split; [by eexists|].
  apply ticker_pipeline_length.
Qed.

Lemma script2_ticker_fixed R :
  R ≠ [] → strip_l R = R → upper_l R = R →
  has_ticker_punct R = false →
  has_exchange_prefix Script2.exchange_prefixes R = false →
  Script2.normalize_ticker (Some (str R)) = Some (str R).
Proof.
  intros HR H1 H2 H3 H4. rewrite script2_normalize_ticker_eq, truthy_str.
  destruct R; [done|]. rewrite chars_str.
  by rewrite ticker_pipeline_fixed.
Qed.

Lemma endswith_CN_punct l :
  endswith_l (chars ".CN") l = true →
  has_ticker_punct l = true ∧ (3 ≤ length l)%nat.
Proof.
  intros (b & ->)%endswith_l_spec. unfold has_ticker_punct.
  rewrite existsb_app, length_app. simpl. split; [by rewrite orb_true_r | lia].
Qed.

Lemma script1_ticker_shape t r :
  Script1.normalize_ticker (Some t) = Some r →
  (∃ l, r = str (upper_l (strip_l l)))
  ∧ (String.length r ≤ String.length t)%nat
  ∧ (has_exchange_prefix Script1.exchange_prefixes (chars t) = true
     ∨ has_ticker_punct (chars t) = true →
     (String.length r < String.length t)%nat).
Proof.
  rewrite script1_normalize_ticker_eq. destruct (truthy t); [|done].
  destruct (endswith t ".CN") eqn:E.
  - intros [= <-]. rewrite length_str, length_chars. split; [by eexists|].
    apply endswith_CN_punct in E as [_ E].
    rewrite upper_l_length.
    pose proof (strip_length (take (length (chars t) - 3) (chars t))) as H.
    rewrite length_take in H. split; [lia | intros _; lia].
  - intros [= <-]. rewrite length_str, length_chars.
    split; [by eexists|]. apply ticker_pipeline_length.
Qed.

Lemma script1_ticker_fixed R :
  R ≠ [] → strip_l R = R → upper_l R = R →
  has_ticker_punct R = false →
  has_exchange_prefix Script1.exchange_prefixes R = false →
  Script1.normalize_ticker (Some (str R)) = Some (str R).
Proof.
  intros HR H1 H2 H3 H4. rewrite script1_normalize_ticker_eq, truthy_str.
  destruct R as [|c R]; [done|]. unfold endswith. rewrite chars_str.
  destruct (endswith_l (chars ".CN") (c :: R)) eqn:E.
  - apply endswith_CN_punct in E as [E _]. congruence.
  - by rewrite ticker_pipeline_fixed.
Qed.

(** C4 (as stated, refuted): a ticker that carries two exchange prefixes
    loses one of them at each call, and a ticker made of a prefix only is
    normalized to the empty string, which the next call turns into [None];
    [normalize_ticker] is idempotent on neither, in either script. *)
Lemma normalize_ticker_not_idempotent :
  Script2.normalize_ticker (Some "TSX:TSX:ABC") = Some "TSX:ABC"
  ∧ Script2.normalize_ticker (Some "TSX:ABC") = Some "ABC"
  ∧ Script1.normalize_ticker (Some "TSX:TSX:ABC") = Some "TSX:ABC"
  ∧ Script1.normalize_ticker (Some "TSX:ABC") = Some "ABC"
  ∧ Script2.normalize_ticker (Some "TSX:") = Some ""
  ∧ Script2.normalize_ticker (Some "") = None
  ∧ ¬ (∀ x, Script1.normalize_ticker (Script1.normalize_ticker x)
            = Script1.normalize_ticker x)
  ∧ ¬ (∀ x, Script2.normalize_ticker (Script2.normalize_ticker x)
            = Script2.normalize_ticker x).
Proof.
  split_and!;
    try (intros H; specialize (H (Some "TSX:TSX:ABC")); vm_compute in H;
         discriminate);
    by vm_compute.
Qed.

(** C4 (amended): in both scripts, normalizing a normalized ticker again
    returns it unchanged exactly when the first result is [None], or is a
    non-empty string that does not begin with an exchange prefix and a colon
    and holds none of [.], [-], [_]. *)
Theorem normalize_ticker_idempotent_iff (x : option string) :
  (Script1.normalize_ticker (Script1.normalize_ticker x)
     = Script1.normalize_ticker x
   ↔ ticker_fixed Script1.exchange_prefixes (Script1.normalize_ticker x) = true)
  ∧
  (Script2.normalize_ticker (Script2.normalize_ticker x)
     = Script2.normalize_ticker x
   ↔ ticker_fixed Script2.exchange_prefixes (Script2.normalize_ticker x) = true).
Proof.
  split.
  - apply ticker_fixed_iff; try done.
    + apply script1_ticker_shape.
    + apply script1_ticker_fixed.
  - apply ticker_fixed_iff; try done.
    + apply script2_ticker_shape.
    + apply script2_ticker_fixed.
Qed.


Example normalize_ticker_examples :
  Script2.normalize_ticker (Some "CVE:ABC") = Some "ABC"
  ∧ Script2.normalize_ticker (Some "ABC.V") = Some "ABC"
  ∧ Script1.normalize_ticker (Some "X.V.CN") = Some "X.V"
  ∧ Script1.normalize_ticker (Some "X.V") = Some "X"
  ∧ Script2.normalize_ticker (Some "tsxv:a-b_c.to") = Some "ABC"
  ∧ Script2.normalize_ticker None = None.
Proof. split_and!; by vm_compute. Qed.

(** ** Names *)

Lemma script1_normalize_name_eq n :
  Script1.normalize_name (Some n) =
  if truthy n then str (name_pipeline Script1.suffixes (chars n)) else "".
Proof.
  unfold Script1.normalize_name. destruct (truthy n); cbn [negb]; [|done].
  unfold strip, lower, on_chars, name_pipeline, Script1.strip_suffixes.
  by rewrite !chars_str.
Qed.

Lemma script2_normalize_name_eq n :
  Script2.normalize_name (Some n) =
  if truthy n then str (name_pipeline Script2.suffixes (chars n)) else "".
Proof.
  unfold Script2.normalize_name. destruct (truthy n); cbn [negb]; [|done].
  unfold strip, lower, on_chars, name_pipeline, Script2.strip_suffixes.
  by rewrite !chars_str.
Qed.

(** *** Collapsing white space *)

Lemma collapse_spaced b l : single_spaced b (collapse_go b l) = true.
Proof.
  revert b. induction l as [|c l IH]; intros b; simpl; [done|].
  destruct (isspace c) eqn:E.
  - destruct b; [apply IH|]. simpl.
    replace (isspace SP) with true by done. simpl. apply IH.
  - simpl. rewrite E. apply IH.
Qed.

Lemma spaced_fixed b l : single_spaced b l = true → collapse_go b l = l.
Proof.
  revert b. induction l as [|c l IH]; intros b; simpl; [done|].
  destruct (isspace c) eqn:E.
  - intros [[Hc Hb%negb_true_iff]%andb_true_iff H]%andb_true_iff.
    subst b. apply Ascii.eqb_eq in Hc as ->. f_equal. by apply IH.
  - intros H. f_equal. by apply IH.
Qed.

Lemma spaced_weaken b l : single_spaced b l = true → single_spaced false l = true.
Proof.
  destruct l as [|c l]; simpl; [done|].
  destruct (isspace c); [|done].
  intros [[-> _]%andb_true_iff ->]%andb_true_iff. done.
Qed.

Lemma spaced_app b l1 l2 :
  single_spaced b (l1 ++ l2) = true →
  single_spaced b l1 = true ∧ single_spaced false l2 = true.
Proof.
  revert b. induction l1 as [|c l1 IH]; intros b; simpl.
  - intros H. split; [done | by eapply spaced_weaken].
  - destruct (isspace c).
    + intros [[-> ->]%andb_true_iff H]%andb_true_iff. simpl. by apply IH.
    + apply IH.
Qed.

Lemma spaced_strip l :
  single_spaced false l = true → single_spaced false (strip_l l) = true.
Proof.
  destruct (strip_split l) as (ws1 & ws2 & E). rewrite E at 1.
  intros [_ H]%spaced_app. by apply spaced_app in H as [H _].
Qed.

Lemma collapse_length b l : (length (collapse_go b l) ≤ length l)%nat.
Proof.
  revert b. induction l as [|c l IH]; intros b; simpl; [done|].
  pose proof (IH true). pose proof (IH false).
  destruct (isspace c); [destruct b|]; simpl; lia.
Qed.

Lemma collapse_Forall (P : ascii → Prop) b l :
  P SP → Forall P l →
  Forall (λ c, P c ∧ (isspace c = true → c = SP)) (collapse_go b l).
Proof.
  intros HP. revert b. induction l as [|c l IH]; intros b; simpl; [constructor|].
  intros [Hc Hl]%Forall_cons. destruct (isspace c) eqn:E.
  - destruct b; [by apply IH|]. constructor; [done | by apply IH].
  - constructor; [|by apply IH]. split; [done | congruence].
Qed.

(** *** Stripping one corporate suffix *)

Lemma sub_name_suffix_eq sfx l :
  sub_name_suffix sfx l =
  match suffix_match sfx l with
  | Some b => b ++ (split_eol l).2
  | None => l
  end.
Proof.
  unfold sub_name_suffix, suffix_match. by destruct (split_eol l).
Qed.

Lemma before_spaces_spec b b' :
  before_spaces b = Some b' →
  ∃ ws c, b = b' ++ ws ++ [c] ∧ isspace c = true.
Proof.
  unfold before_spaces. destruct (reverse b) as [|c r] eqn:E; [done|].
  destruct (isspace c) eqn:Hc; [|done]. intros [= <-].
  destruct (lstrip_split r) as (ws0 & Er & _).
  exists (reverse ws0), c. split; [|done].
  apply (f_equal reverse) in E. rewrite reverse_involutive in E.
  rewrite E, reverse_cons. rewrite Er at 1. by rewrite reverse_app, <- app_assoc.
Qed.

Lemma before_spaces_complete b c :
  isspace c = true → is_Some (before_spaces (b ++ [c])).
Proof.
  intros Hc. unfold before_spaces. rewrite reverse_app. simpl.
  rewrite Hc. by eexists.
Qed.

Lemma ws_word_end_spec p body b' :
  ws_word_end p body = Some b' →
  ∃ ws c m, body = b' ++ ws ++ [c] ++ m ∧ isspace c = true
            ∧ Forall2 (λ a b, ci_eqb a b = true) p m.
Proof.
  unfold ws_word_end. destruct (ci_before_suffix p body) as [b|] eqn:E; [|done].
  simpl. intros (ws & c & -> & Hc)%before_spaces_spec.
  apply ci_before_suffix_spec in E as (m & -> & F).
  exists ws, c, m. by rewrite <- !app_assoc.
Qed.

Lemma suffix_match_spec sfx l b' :
  suffix_match sfx l = Some b' →
  ∃ ws c m p, l = b' ++ ws ++ [c] ++ m ++ (split_eol l).2
    ∧ isspace c = true
    ∧ Forall2 (λ a b, ci_eqb a b = true) p m
    ∧ (p = chars sfx.1 ∨ ∃ o, sfx.2 = Some o ∧ p = chars sfx.1 ++ [o]).
Proof.
  unfold suffix_match. destruct (split_eol l) as [body eol] eqn:E.
  apply split_eol_spec in E as [-> _]. simpl.
  destruct sfx.2 as [o|].
  - destruct (ws_word_end (chars sfx.1 ++ [o]) body) as [b|] eqn:E1.
    + intros [= ->]. apply ws_word_end_spec in E1 as (ws & c & m & -> & Hc & F).
      exists ws, c, m, (chars sfx.1 ++ [o]).
      rewrite <- !app_assoc. eauto 10.
    + intros (ws & c & m & -> & Hc & F)%ws_word_end_spec.
      exists ws, c, m, (chars sfx.1). rewrite <- !app_assoc. eauto 10.
  - intros (ws & c & m & -> & Hc & F)%ws_word_end_spec.
    exists ws, c, m, (chars sfx.1). rewrite <- !app_assoc. eauto 10.
Qed.

Lemma sub_name_suffix_shorter sfx l :
  is_Some (suffix_match sfx l) →
  (length (sub_name_suffix sfx l) < length l)%nat.
Proof.
  intros [b E]. rewrite sub_name_suffix_eq, E.
  apply suffix_match_spec in E as (ws & c & m & p & E & _).
  rewrite E at 2. rewrite !length_app. simpl. lia.
Qed.

Lemma sub_name_suffix_none sfx l :
  suffix_match sfx l = None → sub_name_suffix sfx l = l.
Proof. intros E. by rewrite sub_name_suffix_eq, E. Qed.

Lemma sub_name_suffix_length sfx l :
  (length (sub_name_suffix sfx l) ≤ length l)%nat.
Proof.
  destruct (suffix_match sfx l) eqn:E.
  - pose proof (sub_name_suffix_shorter sfx l) as H. rewrite E in H.
    specialize (H ltac:(by eexists)). lia.
  - by rewrite sub_name_suffix_none.
Qed.

Lemma sub_name_suffix_Forall (P : ascii → Prop) sfx l :
  Forall P l → Forall P (sub_name_suffix sfx l).
Proof.
  rewrite sub_name_suffix_eq. destruct (suffix_match sfx l) as [b|] eqn:E; [|done].
  apply suffix_match_spec in E as (ws & c & m & p & E & _).
  rewrite E at 1. rewrite !Forall_app. tauto.
Qed.

Lemma strip_suffixes_length sfxs l :
  (length (fold_left (λ name sfx, sub_name_suffix sfx name) sfxs l) ≤ length l)%nat.
Proof.
  revert l. induction sfxs as [|s sfxs IH]; intros l; simpl; [done|].
  etrans; [apply IH | apply sub_name_suffix_length].
Qed.

Lemma strip_suffixes_Forall (P : ascii → Prop) sfxs l :
  Forall P l → Forall P (fold_left (λ name sfx, sub_name_suffix sfx name) sfxs l).
Proof.
  revert l. induction sfxs as [|s sfxs IH]; intros l; simpl; [done|].
  intros H. by apply IH, sub_name_suffix_Forall.
Qed.

Lemma strip_suffixes_none sfxs l :
  Forall (λ sfx, suffix_match sfx l = None) sfxs →
  fold_left (λ name sfx, sub_name_suffix sfx name) sfxs l = l.
Proof.
  induction 1 as [|s sfxs H _ IH]; simpl; [done|].
  by rewrite sub_name_suffix_none.
Qed.

Lemma strip_suffixes_shorter sfxs l :
  Exists (λ sfx, is_Some (suffix_match sfx l)) sfxs →
  (length (fold_left (λ name sfx, sub_name_suffix sfx name) sfxs l) < length l)%nat.
Proof.
  induction sfxs as [|s sfxs IH]; simpl; [by intros ?%Exists_nil|].
  destruct (suffix_match s l) eqn:E.
  - intros _. eapply Nat.le_lt_trans; [apply strip_suffixes_length|].
    apply sub_name_suffix_shorter. by rewrite E.
  - intros [H|H]%Exists_cons; [by rewrite E in H; destruct H|].
    rewrite sub_name_suffix_none by done. by apply IH.
Qed.

(** *** Normalized names *)

Ltac char_cases c :=
  destruct c as [[] [] [] [] [] [] [] []]; vm_compute; try reflexivity;
  try (intros; discriminate); try (intros; reflexivity).

Lemma name_char_lower c : name_char c = true → lower_char c = c.
Proof. char_cases c. Qed.

Lemma name_char_space c : name_char c = true → isspace c = true → c = SP.
Proof. char_cases c. Qed.

Lemma name_char_special c :
  name_char c = true → (if isword c || isspace c then c else SP) = c.
Proof. char_cases c. Qed.

Lemma name_char_intro c :
  lower_fixed c = true → isword c || isspace c = true →
  (isspace c = true → c = SP) → name_char c = true.
Proof.
  intros H1 H2 H3. unfold name_char. destruct (isspace c) eqn:E.
  - rewrite H3 by done. done.
  - rewrite orb_false_r in H2. by rewrite H1, H2.
Qed.

Lemma special_char_ok c :
  lower_fixed c = true →
  let d := if isword c || isspace c then c else SP in
  lower_fixed d = true ∧ isword d || isspace d = true.
Proof. char_cases c; by split. Qed.

Lemma lower_fixed_lower c : lower_fixed (lower_char c) = true.
Proof. char_cases c. Qed.

Lemma ci_lower_fixed a b :
  lower_fixed a = true → lower_fixed b = true → ci_eqb a b = true → a = b.
Proof.
  unfold lower_fixed, ci_eqb. intros Ha%Ascii.eqb_eq Hb%Ascii.eqb_eq.
  rewrite Ha, Hb. apply Ascii.eqb_eq.
Qed.

Lemma ci_refl a : ci_eqb a a = true.
Proof. apply Ascii.eqb_refl. Qed.

Lemma ci_Forall2_eq p m :
  Forall (λ c, lower_fixed c = true) p → Forall (λ c, lower_fixed c = true) m →
  Forall2 (λ a b, ci_eqb a b = true) p m → p = m.
Proof.
  intros Hp Hm F. induction F as [|a b p m E F IH]; [done|].
  apply Forall_cons in Hp as [Ha Hp]. apply Forall_cons in Hm as [Hb Hm].
  f_equal; [by apply ci_lower_fixed | by apply IH].
Qed.

Lemma name_pipeline_clean sfxs l :
  Forall (λ c, name_char c = true) (name_pipeline sfxs l)
  ∧ strip_l (name_pipeline sfxs l) = name_pipeline sfxs l
  ∧ single_spaced false (name_pipeline sfxs l) = true.
Proof.
  unfold name_pipeline. split; [|split].
  - apply strip_Forall. unfold sub_spaces.
    eapply Forall_impl;
      [apply (collapse_Forall
                (λ c, lower_fixed c = true ∧ isword c || isspace c = true))|].
    + done.
    + unfold sub_special. apply Forall_map.
      eapply Forall_impl;
        [apply (strip_suffixes_Forall (λ c, lower_fixed c = true))|].
      * unfold lower_l. apply Forall_map, Forall_forall.
        intros; apply lower_fixed_lower.
      * intros c Hc. by apply special_char_ok.
    + intros c [[H1 H2] H3]. by apply name_char_intro.
  - apply strip_l_idem.
  - apply spaced_strip, collapse_spaced.
Qed.

Lemma clean_lower R :
  Forall (λ c, name_char c = true) R → lower_l R = R.
Proof.
  induction 1 as [|c R Hc _ IH]; simpl; [done|].
  by rewrite name_char_lower, IH.
Qed.

Lemma clean_special R :
  Forall (λ c, name_char c = true) R → sub_special R = R.
Proof.
  induction 1 as [|c R Hc _ IH]; simpl; [done|].
  by rewrite name_char_special, IH.
Qed.

Lemma name_pipeline_fixed sfxs R :
  Forall (λ c, name_char c = true) R → strip_l R = R →
  single_spaced false R = true →
  Forall (λ sfx, suffix_match sfx R = None) sfxs →
  name_pipeline sfxs R = R.
Proof.
  intros H1 H2 H3 H4. unfold name_pipeline.
  rewrite clean_lower, strip_suffixes_none, clean_special by done.
  unfold sub_spaces. by rewrite spaced_fixed.
Qed.

Lemma name_pipeline_shorter sfxs R :
  Forall (λ c, name_char c = true) R →
  Exists (λ sfx, is_Some (suffix_match sfx R)) sfxs →
  (length (name_pipeline sfxs R) < length R)%nat.
Proof.
  intros H1 H2. unfold name_pipeline. rewrite clean_lower by done.
  eapply Nat.le_lt_trans; [apply strip_length|].
  eapply Nat.le_lt_trans; [apply collapse_length|].
  unfold sub_special. rewrite length_map.
  by apply strip_suffixes_shorter.
Qed.

Lemma clean_split_eol R : head_ok (reverse R) = true → split_eol R = (R, []).
Proof.
  unfold split_eol. destruct (reverse R) as [|c r]; [done|]. simpl.
  destruct (Ascii.eqb c LF) eqn:E; [|done].
  apply Ascii.eqb_eq in E as ->. done.
Qed.

Lemma after_prefix_complete p rest : after_prefix p (p ++ rest) = Some rest.
Proof.
  induction p as [|a p IH]; simpl; [by destruct rest|].
  by rewrite Ascii.eqb_refl.
Qed.

Lemma endswith_l_complete b p : endswith_l p (b ++ p) = true.
Proof.
  unfold endswith_l, startswith_l.
  by rewrite reverse_app, after_prefix_complete.
Qed.

Lemma name_char_lower_fixed c : name_char c = true → lower_fixed c = true.
Proof. intros H%name_char_lower. unfold lower_fixed. rewrite H. apply Ascii.eqb_refl. Qed.

Lemma ws_word_end_clean p R :
  Forall (λ c, name_char c = true) R →
  Forall (λ c, lower_fixed c = true) p →
  is_Some (ws_word_end p R) ↔ endswith_l (SP :: p) R = true.
Proof.
  intros HR Hp. split.
  - intros [b' (ws & c & m & -> & Hc & F)%ws_word_end_spec].
    rewrite !Forall_app in HR. destruct HR as (_ & _ & [Hcn _]%Forall_cons & Hm).
    apply name_char_space in Hc as ->; [|done].
    assert (p = m) as <-.
    { apply ci_Forall2_eq; [done| |done].
      eapply Forall_impl; [exact Hm|]. apply name_char_lower_fixed. }
    replace (b' ++ ws ++ [SP] ++ p) with ((b' ++ ws) ++ SP :: p)
      by (by rewrite <- app_assoc).
    apply endswith_l_complete.
  - intros (b & ->)%endswith_l_spec.
    unfold ws_word_end.
    replace (b ++ SP :: p) with ((b ++ [SP]) ++ p) by (by rewrite <- app_assoc).
    rewrite ci_before_suffix_complete.
    + simpl. by apply before_spaces_complete.
    + apply Forall_Forall2_diag, Forall_forall. intros; apply ci_refl.
Qed.

Lemma suffix_match_clean sfx R :
  Forall (λ c, name_char c = true) R → head_ok (reverse R) = true →
  lower_sfx sfx = true →
  is_Some (suffix_match sfx R) ↔ ends_with_suffix sfx R = true.
Proof.
  intros HR Hend [Hw Ho]%andb_true_iff.
  assert (Forall (λ c, lower_fixed c = true) (chars sfx.1)) as Hw'.
  { apply Forall_forall. intros c Hc%list_elem_of_In.
    by apply (proj1 (forallb_forall _ _) Hw). }
  clear Hw.
  unfold suffix_match, ends_with_suffix. rewrite clean_split_eol by done.
  destruct sfx.2 as [o|].
  - rewrite orb_true_iff.
    rewrite <- (ws_word_end_clean (chars sfx.1) R) by done.
    rewrite <- (ws_word_end_clean (chars sfx.1 ++ [o]) R)
      by first [done | apply Forall_app; split; [done | by repeat constructor]].
    destruct (ws_word_end (chars sfx.1 ++ [o]) R) eqn:E.
    + split; [by right | by eexists].
    + split; [by left | intros [H|[? H]]; [done | done]].
  - rewrite orb_false_r. by apply ws_word_end_clean.
Qed.

Lemma name_fixed_Forall sfxs R :
  Forall (λ c, name_char c = true) R → head_ok (reverse R) = true →
  forallb lower_sfx sfxs = true →
  name_fixed sfxs (str R) = true ↔ Forall (λ sfx, suffix_match sfx R = None) sfxs.
Proof.
  intros HR Hend Hs. unfold name_fixed. rewrite chars_str.
  rewrite forallb_forall, Forall_forall.
  rewrite forallb_forall in Hs.
  split; intros H sfx Hin.
  - apply list_elem_of_In in Hin.
    specialize (H sfx Hin). apply negb_true_iff in H.
    destruct (suffix_match sfx R) eqn:E; [|done].
    assert (is_Some (suffix_match sfx R)) as HS by (by rewrite E).
    apply suffix_match_clean in HS; [congruence | done | done | by apply Hs].
  - apply negb_true_iff. destruct (ends_with_suffix sfx R) eqn:E; [|done].
    apply suffix_match_clean in E; [|done|done|by apply Hs].
    rewrite H in E by (by apply list_elem_of_In). by destruct E.
Qed.

Lemma name_fixed_Exists sfxs R :
  Forall (λ c, name_char c = true) R → head_ok (reverse R) = true →
  forallb lower_sfx sfxs = true →
  name_fixed sfxs (str R) = false →
  Exists (λ sfx, is_Some (suffix_match sfx R)) sfxs.
Proof.
  intros HR Hend Hs H.
  destruct (decide (Forall (λ sfx, suffix_match sfx R = None) sfxs)) as [F|F].
  - apply name_fixed_Forall in F; [congruence | done..].
  - apply not_Forall_Exists in F; [|intros x; apply _].
    eapply Exists_impl; [exact F|]. intros sfx Hn. simpl in Hn.
    destruct (suffix_match sfx R); [by eexists | done].
Qed.

(** When normalizing a normalized name again changes nothing; the two
    scripts differ in their suffix lists only. *)
Section NameFixed.

Variable normalize_name : option string → string.
Variable suffixes : list (string * option ascii).

Hypothesis nn_None : normalize_name None = "".
Hypothesis nn_Some : ∀ n,
  normalize_name (Some n) =
  if truthy n then str (name_pipeline suffixes (chars n)) else "".
Hypothesis suffixes_lower : forallb lower_sfx suffixes = true.

Lemma normalized_clean x :
  ∃ R, normalize_name x = str R
       ∧ Forall (λ c, name_char c = true) R
       ∧ strip_l R = R ∧ single_spaced false R = true.
Proof using nn_None nn_Some.
  destruct x as [n|]; [rewrite nn_Some; destruct (truthy n)|rewrite nn_None].
  - eexists. split; [done|]. apply name_pipeline_clean.
  - by exists [].
  - by exists [].
Qed.

Lemma name_fixed_iff x :
  normalize_name (Some (normalize_name x)) = normalize_name x
  ↔ name_fixed suffixes (normalize_name x) = true.
Proof using All.
  destruct (normalized_clean x) as (R & -> & H1 & H2 & H3).
  assert (head_ok (reverse R) = true) as Hend.
  { rewrite <- H2. apply strip_l_ends. }
  rewrite nn_Some, truthy_str, chars_str.
  destruct R as [|c R].
  - split; [intros _ | done].
    apply name_fixed_Forall; [done..|].
    apply Forall_forall. intros sfx _.
    destruct (suffix_match sfx []) as [b|] eqn:E; [|done].
    apply suffix_match_spec in E as (ws & a & m & p & E & _).
    by destruct b, ws.
  - split.
    + intros E%str_inj.
      destruct (name_fixed suffixes (str (c :: R))) eqn:F; [done|].
      apply name_fixed_Exists in F; [|done..].
      apply (name_pipeline_shorter suffixes) in F; [|done].
      rewrite E in F. lia.
    + intros F. f_equal. apply name_pipeline_fixed; try done.
      by apply name_fixed_Forall.
Qed.

End NameFixed.

(** C5 (as stated, refuted): the suffixes are tried once each, in the order
    of the list, so of two stacked suffixes the outer one is removed and the
    inner one stays when the inner one comes first in the list; the next call
    removes it.  [normalize_name] is not idempotent on its own output. *)
Lemma normalize_name_not_idempotent :
  Script1.normalize_name (Some "abc inc ltd") = "abc inc"
  ∧ Script1.normalize_name (Some "abc inc") = "abc"
  ∧ Script2.normalize_name (Some "abc inc ltd") = "abc inc"
  ∧ Script2.normalize_name (Some "abc inc") = "abc"
  ∧ ¬ (∀ x, Script1.normalize_name (Some (Script1.normalize_name x))
            = Script1.normalize_name x)
  ∧ ¬ (∀ x, Script2.normalize_name (Some (Script2.normalize_name x))
            = Script2.normalize_name x).
Proof.
  split_and!;
    try (intros H; specialize (H (Some "abc inc ltd")); vm_compute in H;
         discriminate);
    by vm_compute.
Qed.

(** C5 (amended): [normalize_name] returns the empty string for [None] and
    for the empty string; and, in both scripts, normalizing a normalized name
    again returns it unchanged exactly when it does not end with a space
    followed by one of the suffix words of the script's list. *)
Theorem normalize_name_idempotent_iff (x : option string) :
  Script1.normalize_name None = "" ∧ Script1.normalize_name (Some "") = ""
  ∧ Script2.normalize_name None = "" ∧ Script2.normalize_name (Some "") = ""
  ∧ (Script1.normalize_name (Some (Script1.normalize_name x))
       = Script1.normalize_name x
     ↔ name_fixed Script1.suffixes (Script1.normalize_name x) = true)
  ∧ (Script2.normalize_name (Some (Script2.normalize_name x))
       = Script2.normalize_name x
     ↔ name_fixed Script2.suffixes (Script2.normalize_name x) = true).
Proof.
  split_and!.
  - by vm_compute.
  - by vm_compute.
  - by vm_compute.
  - by vm_compute.
  - apply name_fixed_iff; [done | apply script1_normalize_name_eq | by vm_compute].
  - apply name_fixed_iff; [done | apply script2_normalize_name_eq | by vm_compute].
Qed.

Example normalize_name_examples :
  Script2.normalize_name (Some "Probe Gold Inc.") = "probe"
  ∧ Script1.normalize_name (Some "Agnico Eagle Mines Ltd") = "agnico eagle"
  ∧ Script2.normalize_name (Some "abc ltd inc") = "abc"
  ∧ Script1.normalize_name (Some "Foo   Ventures") = "foo ventures"
  ∧ Script2.normalize_name (Some "Foo   Ventures") = "foo"
  ∧ Script2.normalize_name (Some "Aya Gold & Silver Inc.") = "aya gold".
Proof. split_and!; by vm_compute. Qed.

(** ** Aliases *)

Lemma contains_char c l : contains_l [c] l = true ↔ c ∈ l.
Proof.
  induction l as [|a l IH]; simpl.
  - split; [done | by intros ?%elem_of_nil].
  - unfold startswith_l at 1. simpl. rewrite elem_of_cons, <- IH.
    destruct (Ascii.eqb c a) eqn:E.
    + apply Ascii.eqb_eq in E. split; [by left | done].
    + apply Ascii.eqb_neq in E. simpl. split; [by right | by intros [?|?]].
Qed.

Lemma paren_scan_group open l g :
  Group g ∈ paren_scan open l →
  ")"%char ∈ l ∧ (open = None → "("%char ∈ l).
Proof.
  revert open. induction l as [|c l IH]; intros open; simpl.
  - destruct open as [acc|]; [|by intros ?%elem_of_nil].
    intros [[=]|H]%elem_of_cons. exfalso.
    apply list_elem_of_In, in_map_iff in H as (x & [=] & _).
  - destruct open as [acc|].
    + destruct (Ascii.eqb c ")") eqn:E.
      * apply Ascii.eqb_eq in E as ->. intros _. split; [left | done].
      * intros [H _]%IH. split; [by right | done].
    + destruct (Ascii.eqb c "(") eqn:E.
      * apply Ascii.eqb_eq in E as ->. intros [H _]%IH.
        split; [by right | intros _; left].
      * rewrite elem_of_cons. intros [[=]|[H1 H2]%IH].
        split; [by right | intros _; right; auto].
Qed.

Lemma findall_parens_contains name g :
  g ∈ findall_parens (chars name) →
  contains "(" name && contains ")" name = true.
Proof.
  unfold findall_parens. intros H.
  apply list_elem_of_In, in_flat_map in H as ([c|g'] & Hin & Hg); [done|].
  destruct Hg as [->|[]].
  apply list_elem_of_In, paren_scan_group in Hin as [H1 H2].
  unfold contains. apply andb_true_iff.
  split; apply contains_char; auto.
Qed.

Lemma script2_aliases_elem name x :
  x ∈ Script2.extract_company_aliases name ↔
  x = name
  ∨ (contains "(" name && contains ")" name = true
     ∧ ((truthy (strip (on_chars sub_parens name)) = true
         ∧ x = strip (on_chars sub_parens name))
        ∨ x ∈ map str (findall_parens (chars name))))
  ∨ ((1 <? length (split name))%nat = true
     ∧ (1 <? String.length (Script2.abbrev (split name)))%nat = true
     ∧ x = Script2.abbrev (split name))
  ∨ (contains "&" name = true ∧ x = replace "&" "and" name)
  ∨ (contains " and " (lower name) = true ∧ x = replace " and " " & " name).
Proof.
  unfold Script2.extract_company_aliases.
  rewrite elem_of_elements, elem_of_list_to_set.
  destruct (contains "(" name && contains ")" name);
    destruct (truthy (strip (on_chars sub_parens name)));
    destruct (1 <? length (split name))%nat;
    destruct (1 <? String.length (Script2.abbrev (split name)))%nat;
    destruct (contains "&" name);
    destruct (contains " and " (lower name));
    rewrite ?elem_of_app, ?list_elem_of_singleton; intuition congruence.
Qed.

Lemma script1_aliases_elem name x :
  x ∈ Script1.extract_company_aliases name ↔
  x = name
  ∨ (contains "(" name && contains ")" name = true
     ∧ truthy (strip (on_chars sub_parens name)) = true
     ∧ x = strip (on_chars sub_parens name))
  ∨ ((1 <? length (split name))%nat = true
     ∧ (1 <? String.length (Script1.abbrev (split name)))%nat = true
     ∧ x = Script1.abbrev (split name))
  ∨ (contains "&" name = true ∧ x = replace "&" "and" name)
  ∨ (contains " and " name = true ∧ x = replace " and " " & " name).
Proof.
  unfold Script1.extract_company_aliases.
  rewrite elem_of_elements, elem_of_list_to_set.
  destruct (contains "(" name && contains ")" name);
    destruct (truthy (strip (on_chars sub_parens name)));
    destruct (1 <? length (split name))%nat;
    destruct (1 <? String.length (Script1.abbrev (split name)))%nat;
    destruct (contains "&" name);
    destruct (contains " and " name);
    rewrite ?elem_of_app, ?list_elem_of_singleton; intuition congruence.
Qed.

(** C7 (as stated, refuted): [mapping_script.py] adds the name without its
    parenthetical segments but never their contents; and in both scripts the
    name without its segments is left out when nothing remains of it. *)
Lemma aliases_without_contents :
  findall_parens (chars "Foo (Bar)") = [chars "Bar"]
  ∧ ("Bar" ∉ Script1.extract_company_aliases "Foo (Bar)")
  ∧ on_chars sub_parens "(ABC)" = ""
  ∧ ("" ∉ Script2.extract_company_aliases "(ABC)").
Proof.
  split_and!.
  - by vm_compute.
  - apply (proj1 (bool_decide_eq_false _)). by vm_compute.
  - by vm_compute.
  - apply (proj1 (bool_decide_eq_false _)). by vm_compute.
Qed.

(** C7 (amended): both scripts return the name itself and, for a name that
    holds an opening and a closing parenthesis, the name with its
    parenthetical segments removed and stripped of surrounding white space,
    unless that is empty; [mapping_script2.py] also returns the content of
    every parenthetical segment. *)
Theorem aliases_parenthetical (name : string) :
  name ∈ Script1.extract_company_aliases name
  ∧ name ∈ Script2.extract_company_aliases name
  ∧ (∀ g, g ∈ findall_parens (chars name) →
          str g ∈ Script2.extract_company_aliases name)
  ∧ (contains "(" name && contains ")" name = true →
     truthy (strip (on_chars sub_parens name)) = true →
     strip (on_chars sub_parens name) ∈ Script1.extract_company_aliases name
     ∧ strip (on_chars sub_parens name) ∈ Script2.extract_company_aliases name).
Proof.
  split; [|split; [|split]].
  - apply script1_aliases_elem. by left.
  - apply script2_aliases_elem. by left.
  - intros g Hg. apply script2_aliases_elem. right; left.
    split; [by eapply findall_parens_contains|].
    right. apply list_elem_of_In, in_map, list_elem_of_In, Hg.
  - intros H1 H2. split.
    + apply script1_aliases_elem. right; left. done.
    + apply script2_aliases_elem. right; left. split; [done|]. by left.
Qed.

Example aliases_examples :
  "Bar" ∈ Script2.extract_company_aliases "Foo (Bar) Baz & Co and Sons"
  ∧ "Foo  Baz & Co and Sons" ∈ Script2.extract_company_aliases "Foo (Bar) Baz & Co and Sons"
  ∧ "FBCAS" ∈ Script2.extract_company_aliases "Foo (Bar) Baz & Co and Sons"
  ∧ "Foo (Bar) Baz and Co and Sons" ∈ Script2.extract_company_aliases "Foo (Bar) Baz & Co and Sons"
  ∧ "Foo (Bar) Baz & Co & Sons" ∈ Script2.extract_company_aliases "Foo (Bar) Baz & Co and Sons"
  ∧ "F(" ∈ Script1.extract_company_aliases "Foo (Bar)"
  ∧ sub_parens (chars "a ((b)) () c (d") = chars "a ) () c (d"
  ∧ findall_parens (chars "a ((b)) () c (d") = [chars "(b"].
Proof.
  split_and!; try (apply (bool_decide_unpack _); by vm_compute); by vm_compute.
Qed.

(** ** The resolution engine *)

(** *** What [perform_matching] returns *)

Section Emitted.

Variable scorer : string → string → Z.
Variable goldstock_companies : list GoldstockCompany.t.
Variable known_mappings : gmap Z Known.t.

Lemma script1_loop_emits interrupted i companies mappings w :
  ∃ n, (n ≤ length companies)%nat
    ∧ (Script1.matching_loop scorer goldstock_companies known_mappings
         interrupted i companies mappings w).1
      = mappings ++ map (Script1.match_company scorer goldstock_companies
                                               known_mappings)
                        (take n companies)
    ∧ ((∀ k, interrupted k = false) → n = length companies).
Proof.
  revert i mappings w.
  induction companies as [|c cs IH]; intros i mappings w; simpl.
  - exists 0%nat. by rewrite app_nil_r.
  - destruct (interrupted i) eqn:Ei.
    + exists 0%nat. simpl. rewrite app_nil_r.
      split; [lia | split; [done|]]. intros H. by rewrite H in Ei.
    + unfold Script1.match_company.
      destruct (Script1.early_tiers goldstock_companies known_mappings c)
        as [m|] eqn:Em.
      * destruct (IH (S i) (mappings ++ [m]) w) as (n & Hn & E & Hall).
        exists (S n). simpl. rewrite Em, E, <- app_assoc. simpl.
        split; [lia | split; [done|]]. intros H. by rewrite Hall.
      * match goal with
        | |- context [Script1.matching_loop _ _ _ _ _ _ ?ms ?w'] =>
            destruct (IH (S i) ms w') as (n & Hn & E & Hall)
        end.
        exists (S n). simpl. rewrite Em, E, <- app_assoc. simpl.
        split; [lia | split; [done|]]. intros H. by rewrite Hall.
Qed.

Lemma script1_emits interrupted companies w :
  ∃ n, (n ≤ length companies)%nat
    ∧ (Script1.perform_matching scorer goldstock_companies known_mappings
         interrupted companies w).1
      = map (Script1.match_company scorer goldstock_companies known_mappings)
            (take n companies)
    ∧ ((∀ k, interrupted k = false) → n = length companies).
Proof.
  unfold Script1.perform_matching.
  destruct (script1_loop_emits interrupted 0 companies [] w) as (n & Hn & E & Hall).
  destruct (Script1.matching_loop _ _ _ _ _ _ _ _) as [ms w'].
  exists n. simpl in *. done.
Qed.

Lemma script2_loop_emits interrupted total i companies mappings w :
  ∃ n, (n ≤ length companies)%nat
    ∧ (Script2.matching_loop scorer goldstock_companies known_mappings
         interrupted total i companies mappings w).1
      = mappings ++ map (Script2.match_company scorer goldstock_companies
                                               known_mappings)
                        (take n companies)
    ∧ ((∀ k, interrupted k = false) → n = length companies).
Proof.
  revert i mappings w.
  induction companies as [|c cs IH]; intros i mappings w.
  - exists 0%nat. simpl. by rewrite app_nil_r.
  - cbn [Script2.matching_loop].
    destruct (interrupted (2 * i)%nat) eqn:Ei.
    + exists 0%nat. simpl. rewrite app_nil_r.
      split; [lia | split; [done|]]. intros H. by rewrite H in Ei.
    + destruct (interrupted (2 * i + 1)%nat) eqn:Ej.
      * exists 1%nat. simpl. rewrite ?take_0.
        split; [lia | split; [done|]]. intros H. by rewrite H in Ej.
      * match goal with
        | |- context [Script2.matching_loop _ _ _ _ _ _ _ ?ms ?w'] =>
            destruct (IH (S i) ms w') as (n & Hn & E & Hall)
        end.
        exists (S n). rewrite E, <- app_assoc. simpl.
        split; [lia | split; [done|]]. intros H. by rewrite Hall.
Qed.

Lemma script2_emits interrupted companies w :
  ∃ n, (n ≤ length companies)%nat
    ∧ (Script2.perform_matching scorer goldstock_companies known_mappings
         interrupted companies w).1
      = map (Script2.match_company scorer goldstock_companies known_mappings)
            (take n companies)
    ∧ ((∀ k, interrupted k = false) → goldstock_companies ≠ [] →
       n = length companies).
Proof.
  unfold Script2.perform_matching.
  destruct goldstock_companies as [|g gs] eqn:Eg.
  - exists 0%nat. simpl. split; [lia | split; [by destruct companies | done]].
  - rewrite <- Eg.
    destruct (script2_loop_emits interrupted (length companies) 0 companies [] w)
      as (n & Hn & E & Hall).
    exists n. split; [done | split; [done | auto]].
Qed.

(** Every mapping returned is the outcome of one of the companies. *)
Lemma script1_emitted_from interrupted companies w m :
  m ∈ (Script1.perform_matching scorer goldstock_companies known_mappings
         interrupted companies w).1 →
  ∃ c, c ∈ companies
       ∧ m = Script1.match_company scorer goldstock_companies known_mappings c.
Proof.
  destruct (script1_emits interrupted companies w) as (n & _ & -> & _).
  intros (c & -> & Hc)%list_elem_of_fmap.
  exists c. split; [|done]. by eapply subseteq_take.
Qed.

Lemma script2_emitted_from interrupted companies w m :
  m ∈ (Script2.perform_matching scorer goldstock_companies known_mappings
         interrupted companies w).1 →
  ∃ c, c ∈ companies
       ∧ m = Script2.match_company scorer goldstock_companies known_mappings c.
Proof.
  destruct (script2_emits interrupted companies w) as (n & _ & -> & _).
  intros (c & -> & Hc)%list_elem_of_fmap.
  exists c. split; [|done]. by eapply subseteq_take.
Qed.

End Emitted.

(** *** Tier 1: the known mappings *)

Section Tiers.

Variable scorer : string → string → Z.
Variable goldstock_companies : list GoldstockCompany.t.
Variable known_mappings : gmap Z Known.t.

Lemma script1_known company known :
  known_mappings !! Company.company_id company = Some known →
  Script1.match_company scorer goldstock_companies known_mappings company
  = override_mapping company known.
Proof.
  intros H. unfold Script1.match_company, Script1.early_tiers, Script1.known_tier.
  by rewrite H.
Qed.

Lemma script2_known company known :
  known_mappings !! Company.company_id company = Some known →
  Script2.match_company scorer goldstock_companies known_mappings company
  = override_mapping company known.
Proof.
  intros H. unfold Script2.match_company, Script2.known_tier. by rewrite H.
Qed.

Lemma script1_company_id company :
  Mapping.company_id
    (Script1.match_company scorer goldstock_companies known_mappings company)
  = Company.company_id company.
Proof.
  unfold Script1.match_company, Script1.early_tiers, Script1.known_tier,
    Script1.ticker_tier, Script1.name_tier, Script1.fuzzy_tier,
    Script1.matched_with, Script1.unmatched_mapping.
  repeat case_match; simplify_eq; done.
Qed.

Lemma script2_company_id company :
  Mapping.company_id
    (Script2.match_company scorer goldstock_companies known_mappings company)
  = Company.company_id company.
Proof. done. Qed.

End Tiers.

(** C1: in both scripts, a mapping returned by [perform_matching] for a
    company whose ID is a key of [known_mappings] is the override: method
    [known_mapping], status [matched], ID and name of the entry, and its
    confidence, whatever the external records, tickers and names are; and a
    run that is not interrupted returns that mapping for every such company
    (in [mapping_script2.py] provided some external record was fetched;
    without any it returns no mapping at all). *)
Theorem known_override_wins (scorer : string → string → Z)
  (goldstock_companies : list GoldstockCompany.t)
  (known_mappings : gmap Z Known.t) (interrupted : nat → bool)
  (companies : list Company.t) (w : world) :
  let emitted1 := (Script1.perform_matching scorer goldstock_companies
                     known_mappings interrupted companies w).1 in
  let emitted2 := (Script2.perform_matching scorer goldstock_companies
                     known_mappings interrupted companies w).1 in
  (∀ m known,
     m ∈ emitted1 ∨ m ∈ emitted2 →
     known_mappings !! Mapping.company_id m = Some known →
     Mapping.match_method m = known_mapping
     ∧ Mapping.match_status m = matched
     ∧ Mapping.goldstock_id m = Some (Known.goldstock_id known)
     ∧ Mapping.goldstock_name m = Some (Known.goldstock_name known)
     ∧ Mapping.confidence_score m = Known.confidence_score known)
  ∧ (∀ company known,
       (∀ k, interrupted k = false) →
       company ∈ companies →
       known_mappings !! Company.company_id company = Some known →
       override_mapping company known ∈ emitted1
       ∧ (goldstock_companies ≠ [] → override_mapping company known ∈ emitted2)).
Proof.
  intros emitted1 emitted2. split.
  - intros m known [(c & _ & ->)%script1_emitted_from
                   |(c & _ & ->)%script2_emitted_from].
    + rewrite script1_company_id. intros H.
      by rewrite (script1_known _ _ _ _ _ H).
    + rewrite script2_company_id. intros H.
      by rewrite (script2_known _ _ _ _ _ H).
  - intros c known Hint Hc Hk. split.
    + subst emitted1.
      destruct (script1_emits scorer goldstock_companies known_mappings
                  interrupted companies w) as (n & _ & -> & Hall).
      rewrite (Hall Hint), firstn_all, <- (script1_known scorer goldstock_companies _ _ _ Hk).
      by apply list_elem_of_fmap_2.
    + intros Hg. subst emitted2.
      destruct (script2_emits scorer goldstock_companies known_mappings
                  interrupted companies w) as (n & _ & -> & Hall).
      rewrite (Hall Hint Hg), firstn_all, <- (script2_known scorer goldstock_companies _ _ _ Hk).
      by apply list_elem_of_fmap_2.
Qed.

(** *** The fuzzy library *)

Section FuzzyFacts.

Variable scorer : string → string → Z.

Lemma max_by_score_spec best l :
  Fuzzy.max_by_score best l ∈ best :: l
  ∧ ∀ r, r ∈ best :: l → r.2 ≤ (Fuzzy.max_by_score best l).2.
Proof.
  revert best. induction l as [|x l IH]; intros best; simpl.
  - split; [left|]. by intros r ->%list_elem_of_singleton.
  - destruct (IH (if best.2 <? x.2 then x else best)) as [Hin Hmax].
    split.
    + destruct (best.2 <? x.2); [by right|].
      apply elem_of_cons in Hin as [->|Hin]; [left | by right; right].
    + intros r Hr.
      assert (r.2 ≤ (if best.2 <? x.2 then x else best).2 ∨ r ∈ l) as [H|H].
      { apply elem_of_cons in Hr as [->|[->|Hr]%elem_of_cons]; [| |by right];
          left; destruct (Z.ltb_spec best.2 x.2); lia. }
      * etrans; [exact H|]. apply Hmax. left.
      * apply Hmax. by right.
Qed.

Lemma extractWithoutOrder_elem query choices cutoff r :
  r ∈ Fuzzy.extractWithoutOrder scorer query choices cutoff ↔
  r.1 ∈ choices ∧ r.2 = scorer query r.1 ∧ cutoff ≤ r.2.
Proof.
  unfold Fuzzy.extractWithoutOrder.
  rewrite list_elem_of_In, filter_In, <- list_elem_of_In, Z.leb_le.
  split.
  - intros [(c & -> & Hc)%list_elem_of_fmap Hle]. done.
  - intros (Hc & Hs & Hle). split; [|done].
    apply list_elem_of_fmap. exists r.1. split; [|done].
    destruct r; simpl in *. by rewrite Hs.
Qed.

Lemma extractOne_Some query choices cutoff c s :
  Fuzzy.extractOne scorer query choices cutoff = Some (c, s) →
  c ∈ choices ∧ s = scorer query c ∧ cutoff ≤ s
  ∧ ∀ c', c' ∈ choices → cutoff ≤ scorer query c' → scorer query c' ≤ s.
Proof.
  unfold Fuzzy.extractOne.
  destruct (Fuzzy.extractWithoutOrder scorer query choices cutoff)
    as [|r l] eqn:E; [done|].
  intros [= H]. destruct (max_by_score_spec r l) as [Hin Hmax].
  rewrite H in Hin, Hmax. rewrite <- E in Hin, Hmax.
  apply extractWithoutOrder_elem in Hin as (H1 & H2 & H3).
  split; [done | split; [done | split; [done|]]].
  intros c' Hc' Hle.
  apply (Hmax (c', scorer query c')). by apply extractWithoutOrder_elem.
Qed.

Lemma extractOne_None query choices cutoff :
  Fuzzy.extractOne scorer query choices cutoff = None →
  ∀ c, c ∈ choices → scorer query c < cutoff.
Proof.
  unfold Fuzzy.extractOne.
  destruct (Fuzzy.extractWithoutOrder scorer query choices cutoff)
    as [|r l] eqn:E; [|done].
  intros _ c Hc. destruct (Z.lt_ge_cases (scorer query c) cutoff); [done|].
  assert ((c, scorer query c)
          ∈ Fuzzy.extractWithoutOrder scorer query choices cutoff) as H'
    by (by apply extractWithoutOrder_elem).
  rewrite E in H'. by apply elem_of_nil in H'.
Qed.

Lemma best_score_spec query c cs :
  (∃ c', c' ∈ c :: cs ∧ best_score scorer query (c :: cs) = scorer query c')
  ∧ ∀ c', c' ∈ c :: cs → scorer query c' ≤ best_score scorer query (c :: cs).
Proof.
  simpl. induction cs as [|d cs [(c' & Hin & E) Hmax]]; simpl.
  - split; [exists c; split; [left | done]|].
    by intros c' ->%list_elem_of_singleton.
  - split.
    + destruct (Z.max_spec (scorer query d)
                  (foldr (λ c' acc, Z.max (scorer query c') acc) (scorer query c) cs))
        as [[_ ->]|[_ ->]].
      * exists c'. split; [|done].
        apply elem_of_cons in Hin as [->|Hin]; [left | by right; right].
      * exists d. split; [right; left | done].
    + intros x [->|[->|Hx]%elem_of_cons]%elem_of_cons.
      * etrans; [apply Hmax; left | apply Z.le_max_r].
      * apply Z.le_max_l.
      * etrans; [apply Hmax; by right | apply Z.le_max_r].
Qed.

(** With a cut-off that the best score reaches, [extractOne] returns a choice
    of that score; otherwise it returns a lower score or nothing. *)
Lemma extractOne_best query c cs cutoff :
  cutoff ≤ best_score scorer query (c :: cs) →
  ∃ c', Fuzzy.extractOne scorer query (c :: cs) cutoff
        = Some (c', best_score scorer query (c :: cs))
        ∧ c' ∈ c :: cs.
Proof.
  intros Hle. destruct (best_score_spec query c cs) as [(b & Hb & Eb) Hmax].
  destruct (Fuzzy.extractOne scorer query (c :: cs) cutoff) as [[c' s]|] eqn:E.
  - apply extractOne_Some in E as (H1 & -> & H3 & H4).
    exists c'. split; [|done]. do 2 f_equal.
    apply Z.le_antisymm; [by apply Hmax|].
    rewrite Eb. apply H4; [done | by rewrite <- Eb].
  - pose proof (extractOne_None _ _ _ E b Hb). lia.
Qed.

End FuzzyFacts.

(** *** The invariant of the mappings *)

Section Coherent.

Variable scorer : string → string → Z.
Variable goldstock_companies : list GoldstockCompany.t.
Variable known_mappings : gmap Z Known.t.

Hypothesis known_positive : ∀ id known,
  known_mappings !! id = Some known → 0 < Known.confidence_score known.

Lemma well_formed_coherent m :
  well_formed m →
  coherent m
  ∧ (Mapping.match_status m ≠ unmatched →
     Mapping.goldstock_id m ≠ None ∧ Mapping.match_method m ≠ none
     ∧ 0 < Mapping.confidence_score m).
Proof.
  unfold coherent. intros [(H1 & H2 & H3 & H4)|(H1 & H2 & H3 & H4)].
  - rewrite H1, H2, H3, H4. done.
  - split; [|done]. split_and!; split; intros; try done; lia.
Qed.

Lemma script1_well_formed company :
  well_formed (Script1.match_company scorer goldstock_companies
                 known_mappings company).
Proof using known_positive.
  unfold Script1.match_company, Script1.early_tiers, Script1.known_tier,
    Script1.ticker_tier, Script1.name_tier, Script1.fuzzy_tier,
    Script1.matched_with, Script1.unmatched_mapping.
  destruct (known_mappings !! Company.company_id company) as [k|] eqn:Ek.
  { right. simpl. apply known_positive in Ek. done. }
  repeat case_match; simplify_eq; simpl;
    repeat match goal with
           | H : (_ <=? _) = true |- _ => apply Z.leb_le in H
           end;
    first [by left | right; simpl; split_and!; (done || lia)].
Qed.

Lemma found_ok gs confidence st m :
  st ≠ unmatched → m ≠ none → 0 < confidence →
  locals_ok (Script2.found gs confidence st m).
Proof. intros. right. simpl. split_and!; by eauto. Qed.

Lemma known_tier_ok company l :
  locals_ok l → locals_ok (Script2.known_tier known_mappings company l).
Proof using known_positive.
  intros Hl. unfold Script2.known_tier.
  destruct (known_mappings !! Company.company_id company) as [k|] eqn:Ek; [|done].
  apply found_ok; [done..|]. by eapply known_positive.
Qed.

Lemma ticker_tier_ok n l :
  locals_ok l → locals_ok (Script2.ticker_tier goldstock_companies n l).
Proof.
  intros Hl. unfold Script2.ticker_tier.
  repeat case_match; try done. by apply found_ok.
Qed.

Lemma name_tier_ok n l :
  locals_ok l → locals_ok (Script2.name_tier goldstock_companies n l).
Proof.
  intros Hl. unfold Script2.name_tier.
  repeat case_match; try done. by apply found_ok.
Qed.

Lemma fuzzy_tier_ok n l :
  locals_ok l → locals_ok (Script2.fuzzy_tier scorer goldstock_companies n l).
Proof.
  intros Hl. unfold Script2.fuzzy_tier.
  repeat case_match; try done; simplify_eq;
    match goal with
    | H : Fuzzy.extractOne _ _ _ _ = Some _ |- _ =>
        apply extractOne_Some in H as (_ & _ & Hs & _)
    end;
    (apply found_ok; [done | done | lia]).
Qed.

Lemma script2_well_formed company :
  well_formed (Script2.match_company scorer goldstock_companies
                 known_mappings company).
Proof using known_positive.
  unfold Script2.match_company.
  match goal with
  | |- context [Script2.fuzzy_tier ?s ?g ?n ?l] =>
      assert (locals_ok (Script2.fuzzy_tier s g n l)) as H;
      [|destruct (Script2.fuzzy_tier s g n l)]
  end.
  { apply fuzzy_tier_ok, name_tier_ok, ticker_tier_ok, known_tier_ok. by left. }
  destruct H as [[=]|(_ & ? & ? & ? & ?)]; simpl in *.
  - subst. by left.
  - by right.
Qed.

End Coherent.

(** C2: in both scripts, when every confidence of [known_mappings] is
    positive, every mapping returned by [perform_matching] is unmatched,
    without external ID, without method and with confidence 0 all at once or
    not at all; so a matched or manual mapping has an external ID, a method
    and a positive confidence. *)
Theorem mapping_invariant (scorer : string → string → Z)
  (goldstock_companies : list GoldstockCompany.t)
  (known_mappings : gmap Z Known.t) (interrupted : nat → bool)
  (companies : list Company.t) (w : world) (m : Mapping.t) :
  (∀ id known, known_mappings !! id = Some known →
               0 < Known.confidence_score known) →
  m ∈ (Script1.perform_matching scorer goldstock_companies known_mappings
         interrupted companies w).1
  ∨ m ∈ (Script2.perform_matching scorer goldstock_companies known_mappings
           interrupted companies w).1 →
  coherent m
  ∧ (Mapping.match_status m ≠ unmatched →
     Mapping.goldstock_id m ≠ None ∧ Mapping.match_method m ≠ none
     ∧ 0 < Mapping.confidence_score m).
Proof.
  intros Hk [(c & _ & ->)%script1_emitted_from|(c & _ & ->)%script2_emitted_from];
    apply well_formed_coherent.
  - by apply script1_well_formed.
  - by apply script2_well_formed.
Qed.

(** *** Tier 4: the fuzzy names *)

Lemma find_normalized (f : GoldstockCompany.t → string) gss c' :
  c' ∈ map f gss →
  ∃ gs, List.find (λ gs, String.eqb (f gs) c') gss = Some gs
        ∧ gs ∈ gss ∧ f gs = c'.
Proof.
  induction gss as [|g gs IH]; simpl; [by intros ?%elem_of_nil|].
  destruct (String.eqb (f g) c') eqn:E.
  - intros _. apply String.eqb_eq in E. exists g. split; [done | split; [left | done]].
  - apply String.eqb_neq in E.
    intros [?|(gs' & ? & ? & ?)%IH]%elem_of_cons; [done|].
    exists gs'. split; [done | split; [by right | done]].
Qed.

Lemma script1_fuzzy scorer goldstock_companies known_mappings company :
  let query := Script1.normalize_name (Some (Company.company_name company)) in
  let choices := map (λ gs, Script1.normalize_name
                              (Some (GoldstockCompany.company_name gs)))
                     goldstock_companies in
  goldstock_companies ≠ [] →
  Script1.early_tiers goldstock_companies known_mappings company = None →
  truthy query = true →
  fuzzy_outcome scorer Script1.normalize_name goldstock_companies 80 90 query
    (best_score scorer query choices)
    (Script1.match_company scorer goldstock_companies known_mappings company).
Proof.
  intros query choices Hne Hearly Hq.
  assert (∀ (A : Type) (a b : A),
            match goldstock_companies with [] => a | _ :: _ => b end = b)
    as Hmatch by (by destruct goldstock_companies).
  unfold Script1.match_company. rewrite Hearly.
  unfold Script1.fuzzy_tier, Script1.fuzzy_best. fold query.
  rewrite Hmatch, Hq. fold choices.
  assert (∃ c cs, choices = c :: cs) as (c0 & cs & Ec).
  { subst choices. destruct goldstock_companies; [done | simpl; eauto]. }
  rewrite Ec.
  destruct (best_score_spec scorer query c0 cs) as [_ Hmax].
  split.
  - intros Hfloor.
    destruct (extractOne_best scorer query c0 cs 0) as (c' & Hex & Hc'); [lia|].
    pose proof (extractOne_Some _ _ _ _ _ _ Hex) as (_ & Hs & _).
    rewrite Hex. rewrite <- Ec in Hc'. subst choices.
    destruct (find_normalized _ _ _ Hc') as (gs' & -> & Hin & Hn).
    apply Z.leb_le in Hfloor as Hfloor'. rewrite Hfloor'. cbv beta iota.
    rewrite Hfloor'. split_and!; try done.
    exists gs'. split_and!; try done. by rewrite Hn.
  - intros Hlow.
    destruct (Fuzzy.extractOne scorer query (c0 :: cs) 0) as [[c' s]|] eqn:E; [|done].
    apply extractOne_Some in E as (Hc' & -> & _).
    specialize (Hmax c' Hc').
    destruct (List.find _ _); [|done].
    destruct (Z.leb_spec 80 (scorer query c')); [lia | done].
Qed.

Lemma reached_no_match goldstock_companies known_mappings company n t :
  let l := Script2.name_tier goldstock_companies n
             (Script2.ticker_tier goldstock_companies t
                (Script2.known_tier known_mappings company no_match)) in
  Script2.match_ l = None → l = no_match.
Proof.
  unfold Script2.name_tier, Script2.ticker_tier, Script2.known_tier.
  repeat case_match; simplify_eq; done.
Qed.

Lemma script2_fuzzy scorer goldstock_companies known_mappings company :
  let query := Script2.normalize_name (Some (Company.company_name company)) in
  let choices := map (λ gs, Script2.normalize_name
                              (Some (GoldstockCompany.company_name gs)))
                     goldstock_companies in
  goldstock_companies ≠ [] →
  Script2.match_
    (Script2.name_tier goldstock_companies query
       (Script2.ticker_tier goldstock_companies
          (Script2.normalize_ticker (Company.tsx_code company))
          (Script2.known_tier known_mappings company no_match))) = None →
  truthy query = true →
  fuzzy_outcome scorer Script2.normalize_name goldstock_companies 70 85 query
    (best_score scorer query choices)
    (Script2.match_company scorer goldstock_companies known_mappings company).
Proof.
  intros query choices Hne Hreach Hq.
  apply reached_no_match in Hreach.
  unfold Script2.match_company. fold query no_match. rewrite Hreach.
  unfold Script2.fuzzy_tier. simpl Script2.match_. rewrite Hq. fold choices.
  assert (∃ c cs, choices = c :: cs) as (c0 & cs & Ec).
  { subst choices. destruct goldstock_companies; [done | simpl; eauto]. }
  destruct (best_score_spec scorer query c0 cs) as [_ Hmax].
  rewrite <- Ec in Hmax. split.
  - intros Hfloor. rewrite Ec in Hfloor |- *.
    destruct (extractOne_best scorer query c0 cs 70) as (c' & Hex & Hc'); [lia|].
    pose proof (extractOne_Some _ _ _ _ _ _ Hex) as (_ & Hs & _).
    rewrite Hex. rewrite <- Ec in Hc' |- *.
    destruct (list_find_elem_of (λ c, c = c') choices c' Hc' eq_refl)
      as [[idx c''] Hfind].
    rewrite Hfind.
    apply list_find_Some in Hfind as (Hidx & -> & _).
    subst choices. apply list_lookup_fmap_Some in Hidx as (gs & Egs & Hgs).
    rewrite Hgs. split_and!; try done.
    exists gs. split_and!; try done.
    + by eapply list_elem_of_lookup_2.
    + by rewrite Ec, Hs, Egs.
  - intros Hlow.
    destruct (Fuzzy.extractOne scorer query choices 70) as [[c' s]|] eqn:E; [|done].
    apply extractOne_Some in E as (Hc' & -> & Hc & _).
    specialize (Hmax c' Hc'). lia.
Qed.

(** C3: a company that no earlier tier matched, whose normalized name is not
    empty, against a non-empty list of external records.  With [top] the
    greatest score of its normalized name against the normalized names of
    the records: in [mapping_script.py] the outcome is the fuzzy match with
    confidence [top] when [80 ≤ top], matched when [90 ≤ top] and manual
    otherwise, and is unmatched with confidence 0 when [top < 80]; in
    [mapping_script2.py] the same holds with 70 and 85.  An uninterrupted
    run returns that outcome for every such company of its list. *)
Theorem fuzzy_tier_thresholds (scorer : string → string → Z)
  (goldstock_companies : list GoldstockCompany.t)
  (known_mappings : gmap Z Known.t) (company : Company.t) :
  goldstock_companies ≠ [] →
  (let query := Script1.normalize_name (Some (Company.company_name company)) in
   let m := Script1.match_company scorer goldstock_companies known_mappings
              company in
   Script1.early_tiers goldstock_companies known_mappings company = None →
   truthy query = true →
   fuzzy_outcome scorer Script1.normalize_name goldstock_companies 80 90 query
     (best_score scorer query
        (map (λ gs, Script1.normalize_name
                      (Some (GoldstockCompany.company_name gs)))
             goldstock_companies)) m
   ∧ ∀ companies w,
       company ∈ companies →
       m ∈ (Script1.perform_matching scorer goldstock_companies known_mappings
              (λ _, false) companies w).1)
  ∧
  (let query := Script2.normalize_name (Some (Company.company_name company)) in
   let m := Script2.match_company scorer goldstock_companies known_mappings
              company in
   Script2.match_
     (Script2.name_tier goldstock_companies query
        (Script2.ticker_tier goldstock_companies
           (Script2.normalize_ticker (Company.tsx_code company))
           (Script2.known_tier known_mappings company no_match))) = None →
   truthy query = true →
   fuzzy_outcome scorer Script2.normalize_name goldstock_companies 70 85 query
     (best_score scorer query
        (map (λ gs, Script2.normalize_name
                      (Some (GoldstockCompany.company_name gs)))
             goldstock_companies)) m
   ∧ ∀ companies w,
       company ∈ companies →
       m ∈ (Script2.perform_matching scorer goldstock_companies known_mappings
              (λ _, false) companies w).1).
Proof.
  intros Hne. split.
  - intros query m Hearly Hq. split; [by apply script1_fuzzy|].
    intros companies w Hc.
    destruct (script1_emits scorer goldstock_companies known_mappings
                (λ _, false) companies w) as (n & _ & -> & Hall).
    rewrite Hall, firstn_all by done. by apply list_elem_of_fmap_2.
  - intros query m Hreach Hq. split; [by apply script2_fuzzy|].
    intros companies w Hc.
    destruct (script2_emits scorer goldstock_companies known_mappings
                (λ _, false) companies w) as (n & _ & -> & Hall).
    rewrite Hall, firstn_all by done. by apply list_elem_of_fmap_2.
Qed.

(** *** Empty normalized tickers *)

Lemma script1_index_ticker_nonempty idx gs :
  idx !! "" = None → Script1.index_ticker idx gs !! "" = None.
Proof.
  intros H. unfold Script1.index_ticker.
  repeat case_match; try done.
  rewrite lookup_insert_ne; [done|]. by intros ->.
Qed.

Lemma script2_index_ticker_nonempty idx gs :
  idx !! "" = None → Script2.index_ticker idx gs !! "" = None.
Proof.
  intros H. unfold Script2.index_ticker.
  repeat case_match; try done.
  rewrite lookup_insert_ne; [done|]. by intros ->.
Qed.

Lemma script1_gs_by_ticker_nonempty goldstock_companies :
  Script1.gs_by_ticker goldstock_companies !! "" = None.
Proof.
  unfold Script1.gs_by_ticker.
  assert (∀ idx, idx !! "" = None →
            fold_left Script1.index_ticker goldstock_companies idx !! "" = None)
    as H; [|by apply H].
  induction goldstock_companies as [|gs gss IH]; intros idx Hidx; simpl; [done|].
  by apply IH, script1_index_ticker_nonempty.
Qed.

Lemma script2_gs_by_ticker_nonempty goldstock_companies :
  Script2.gs_by_ticker goldstock_companies !! "" = None.
Proof.
  unfold Script2.gs_by_ticker.
  assert (∀ idx, idx !! "" = None →
            fold_left Script2.index_ticker goldstock_companies idx !! "" = None)
    as H; [|by apply H].
  induction goldstock_companies as [|gs gss IH]; intros idx Hidx; simpl; [done|].
  by apply IH, script2_index_ticker_nonempty.
Qed.

Lemma script1_exact_ticker scorer goldstock_companies known_mappings company :
  Mapping.match_method
    (Script1.match_company scorer goldstock_companies known_mappings company)
  = exact_ticker →
  ∃ n, Script1.normalize_ticker (Company.tsx_code company) = Some n
       ∧ truthy n = true
       ∧ is_Some (Script1.gs_by_ticker goldstock_companies !! n).
Proof.
  unfold Script1.match_company, Script1.early_tiers, Script1.known_tier,
    Script1.ticker_tier, Script1.name_tier, Script1.fuzzy_tier,
    Script1.matched_with, Script1.unmatched_mapping.
  repeat case_match; simplify_eq; simpl; try done.
  intros _. eexists. split_and!; [done | done | by eexists].
Qed.

Lemma script2_exact_ticker scorer goldstock_companies known_mappings company :
  Mapping.match_method
    (Script2.match_company scorer goldstock_companies known_mappings company)
  = exact_ticker →
  ∃ n, Script2.normalize_ticker (Company.tsx_code company) = Some n
       ∧ truthy n = true
       ∧ is_Some (Script2.gs_by_ticker goldstock_companies !! n).
Proof.
  unfold Script2.match_company, Script2.fuzzy_tier, Script2.name_tier,
    Script2.ticker_tier, Script2.known_tier, Script2.found.
  repeat case_match; simplify_eq; simpl in *; try done.
  all: intros _; eexists; split_and!; [done | done | by eexists].
Qed.

Lemma script1_tsx_code scorer goldstock_companies known_mappings company :
  Mapping.tsx_code
    (Script1.match_company scorer goldstock_companies known_mappings company)
  = Company.tsx_code company.
Proof.
  unfold Script1.match_company, Script1.early_tiers, Script1.known_tier,
    Script1.ticker_tier, Script1.name_tier, Script1.fuzzy_tier,
    Script1.matched_with, Script1.unmatched_mapping.
  repeat case_match; simplify_eq; done.
Qed.

(** C10: a ticker made of an exchange prefix only is normalized to the empty
    string, not to [None]; the ticker index never holds the empty key; and a
    mapping returned by [perform_matching] with method [exact_ticker] belongs
    to a company whose normalized ticker is a non-empty key of the index, so
    an empty normalized ticker never yields a ticker match.  In both
    scripts. *)
Theorem empty_ticker_never_matches (scorer : string → string → Z)
  (goldstock_companies : list GoldstockCompany.t)
  (known_mappings : gmap Z Known.t) (interrupted : nat → bool)
  (companies : list Company.t) (w : world) (m : Mapping.t) :
  (Script1.normalize_ticker (Some "TSX:") = Some ""
   ∧ Script2.normalize_ticker (Some "TSX:") = Some "")
  ∧ (Script1.gs_by_ticker goldstock_companies !! "" = None
     ∧ Script2.gs_by_ticker goldstock_companies !! "" = None)
  ∧ (m ∈ (Script1.perform_matching scorer goldstock_companies known_mappings
            interrupted companies w).1 →
     Mapping.match_method m = exact_ticker →
     ∃ n, Script1.normalize_ticker (Mapping.tsx_code m) = Some n
          ∧ n ≠ ""
          ∧ is_Some (Script1.gs_by_ticker goldstock_companies !! n))
  ∧ (m ∈ (Script2.perform_matching scorer goldstock_companies known_mappings
            interrupted companies w).1 →
     Mapping.match_method m = exact_ticker →
     ∃ n, Script2.normalize_ticker (Mapping.tsx_code m) = Some n
          ∧ n ≠ ""
          ∧ is_Some (Script2.gs_by_ticker goldstock_companies !! n)).
Proof.
  split_and!.
  - by vm_compute.
  - by vm_compute.
  - apply script1_gs_by_ticker_nonempty.
  - apply script2_gs_by_ticker_nonempty.
  - intros (c & _ & ->)%script1_emitted_from
           (n & Hn & Ht & Hi)%script1_exact_ticker.
    rewrite script1_tsx_code. exists n. split_and!; [done | | done].
    by intros ->.
  - intros (c & _ & ->)%script2_emitted_from
           (n & Hn & Ht & Hi)%script2_exact_ticker.
    exists n. split_and!; [done | | done]. by intros ->.
Qed.

(** ** Persisted state *)

(** C8 (as stated, refuted): a cache file that holds a JSON text other than
    an object is returned as it is, and a checkpoint file that holds an
    object without the two lists as well; neither is the dictionary or the
    checkpoint the claim promises. *)
Lemma load_returns_what_the_file_holds :
  load_cache (Present (Parses (JArr []))) = Returns (JArr [])
  ∧ is_dict (JArr []) = false
  ∧ load_checkpoint (Present (Parses (JObj []))) = Returns (JObj [])
  ∧ load_checkpoint (Present (Parses JNull)) = Returns JNull
  ∧ ¬ (∀ f : file json, ∃ d, load_cache f = Returns (JObj d)).
Proof.
  split_and!; try done.
  intros H. by destruct (H (Present (Parses (JArr [])))) as [d [=]].
Qed.

(** C8 (amended): [load_cache] and [load_checkpoint] never raise; for an
    absent file and for a file that cannot be read or parsed they return
    [{}] and [{"processed_ids": [], "mappings": []}]; for a file that parses
    they return the value it holds, whatever it is. *)
Theorem load_never_raises (f : file json) :
  (∃ v, load_cache f = Returns v)
  ∧ (∃ v, load_checkpoint f = Returns v)
  ∧ match f with
    | Absent | Present (Unparseable _) =>
        load_cache f = Returns (JObj [])
        ∧ load_checkpoint f
          = Returns (JObj [("processed_ids", JArr []); ("mappings", JArr [])])
    | Present (Parses j) =>
        load_cache f = Returns j ∧ load_checkpoint f = Returns j
    end.
Proof.
  destruct f as [|[e|j]]; simpl; split_and!; by eauto.
Qed.

(** ** The record cache across runs *)

Lemma script1_fetch_cached web goldstock_id w cached :
  cache w !! cache_key goldstock_id = Some cached →
  Script1.fetch_company_by_id web goldstock_id w = (cached, w).
Proof. intros H. unfold Script1.fetch_company_by_id. by rewrite H. Qed.

Lemma script2_fetch_cached web goldstock_id w cached :
  cache w !! cache_key goldstock_id = Some cached →
  Script2.fetch_company_by_id web goldstock_id w = (cached, w).
Proof. intros H. unfold Script2.fetch_company_by_id. by rewrite H. Qed.

(** C6 (the code breaks it): [mapping_script.py] writes the cache file only
    when the size of the cache is a multiple of 50, and never in the 404
    branch nor at the end of [main].  In the run of [Scenario], ID 2 is
    answered by 404 and cached as [None] in memory; the run completes and
    leaves no cache file; the next run requests ID 2 (and ID 1) again. *)
Theorem script1_refetches_confirmed_absence :
  let run1 := Script1.main Scenario.scorer Scenario.plain (Some [Scenario.acme])
                Scenario.site Scenario.fresh in
  let run2 := Script1.main Scenario.scorer Scenario.plain (Some [Scenario.acme])
                Scenario.site run1.2 in
  run1.1 = Completed
  ∧ OUTPUT_FILE run1.2 = Some [Scenario.acme_mapping]
  ∧ cache run1.2 !! cache_key 2 = Some None
  ∧ requests run1.2 = [1; 2]
  ∧ CACHE_FILE run1.2 = Absent
  ∧ run2.1 = Completed
  ∧ requests run2.2 = [1; 2; 1; 2].
Proof. by vm_compute. Qed.

(** In [mapping_script2.py] the same two runs request each ID once. *)
Lemma script2_keeps_confirmed_absence :
  let run1 := Script2.main Scenario.scorer Scenario.plain (Some [Scenario.acme])
                Scenario.site Scenario.fresh in
  let run2 := Script2.main Scenario.scorer Scenario.plain (Some [Scenario.acme])
                Scenario.site run1.2 in
  run1.1 = Exited 0
  ∧ CACHE_FILE run1.2 = Present (Parses (cache run1.2))
  ∧ cache run1.2 !! cache_key 2 = Some None
  ∧ run2.1 = Exited 0
  ∧ requests run2.2 = [1; 2].
Proof. by vm_compute. Qed.

(** ** Resuming *)

(** C9 (the code breaks it): in [mapping_script.py], [perform_matching]
    ends with [save_checkpoint(mappings)], which replaces the lists of the
    very dictionary [main] reads the earlier mappings from afterwards.  With
    a checkpoint that covers the whole input list, nothing is left to
    process, the checkpoint in memory is emptied before the merge, the
    table is written without any row, and the summary divides by zero. *)
Theorem script1_resume_loses_checkpoint :
  let run := Script1.main Scenario.scorer Scenario.resuming
               (Some [Scenario.acme]) Scenario.site Scenario.checkpointed in
  CHECKPOINT_FILE Scenario.checkpointed
    = Present (Parses (Checkpoint.mk [1] [Scenario.acme_mapping]))
  ∧ run.1 = Crashed ZeroDivisionError
  ∧ OUTPUT_FILE run.2 = Some []
  ∧ CHECKPOINT_FILE run.2 = Present (Parses (Checkpoint.mk [] [])).
Proof. by vm_compute. Qed.

(** In [mapping_script2.py] the same run writes the checkpointed mappings. *)
Lemma script2_resume_keeps_checkpoint :
  let run := Script2.main Scenario.scorer Scenario.resuming
               (Some [Scenario.acme]) Scenario.site Scenario.checkpointed in
  run.1 = Exited 0
  ∧ OUTPUT_FILE run.2 = Some [Scenario.acme_mapping]
  ∧ requests run.2 = [1; 2].
Proof. by vm_compute. Qed.

(** ** The driver of [mapping_script2.py], in general *)

Lemma fetch_frame_refl w : fetch_frame w w.
Proof.
  unfold fetch_frame. split_and!; try done.
  exists []. split; [by rewrite app_nil_r | by intros g ?%elem_of_nil].
Qed.

Lemma fetch_frame_trans w1 w2 w3 :
  fetch_frame w1 w2 → fetch_frame w2 w3 → fetch_frame w1 w3.
Proof.
  intros (A1 & A2 & A3 & A4 & new1 & A5 & A6) (B1 & B2 & B3 & B4 & new2 & B5 & B6).
  unfold fetch_frame. split_and!; try congruence.
  - intros k v H. by apply B4, A4.
  - exists (new1 ++ new2). split; [by rewrite B5, A5, app_assoc|].
    intros g [Hg|Hg]%elem_of_app; [by apply A6|].
    specialize (B6 g Hg). destruct (cache w1 !! cache_key g) eqn:E; [|done].
    apply A4 in E. congruence.
Qed.

Lemma save_cache_periodically_frame w :
  checkpoint (save_cache_periodically w) = checkpoint w
  ∧ CHECKPOINT_FILE (save_cache_periodically w) = CHECKPOINT_FILE w
  ∧ OUTPUT_FILE (save_cache_periodically w) = OUTPUT_FILE w
  ∧ cache (save_cache_periodically w) = cache w
  ∧ requests (save_cache_periodically w) = requests w.
Proof. unfold save_cache_periodically. by destruct (_ =? _)%nat. Qed.

Lemma script2_fetch_frame web goldstock_id w :
  fetch_frame w (Script2.fetch_company_by_id web goldstock_id w).2.
Proof.
  unfold Script2.fetch_company_by_id.
  destruct (cache w !! cache_key goldstock_id) as [cached|] eqn:E;
    [apply fetch_frame_refl|].
  assert (∀ v, fetch_frame w (save_cache_periodically
            (set_cache (insert (cache_key goldstock_id) v)
                       (add_request goldstock_id w)))) as Hstore.
  { intros v. unfold fetch_frame.
    destruct (save_cache_periodically_frame
                (set_cache (insert (cache_key goldstock_id) v)
                           (add_request goldstock_id w)))
      as (-> & -> & -> & Hc & ->).
    split_and!; try done.
    - intros k v' Hk. rewrite Hc. simpl. rewrite lookup_insert_ne; [done|].
      intros <-. congruence.
    - exists [goldstock_id]. split; [done|].
      by intros g ->%list_elem_of_singleton. }
  destruct (web goldstock_id); simpl; try apply Hstore.
  unfold fetch_frame. split_and!; try done.
  exists [goldstock_id]. split; [done|]. by intros g ->%list_elem_of_singleton.
Qed.

Lemma script2_fetch_all_frame web ids acc w :
  fetch_frame w
    (fold_left (λ '(companies, w) gid,
                  match Script2.fetch_company_by_id web gid w with
                  | (Some result, w') => (companies ++ [result], w')
                  | (None, w') => (companies, w')
                  end) ids (acc, w)).2.
Proof.
  revert acc w. induction ids as [|gid ids IH]; intros acc w; simpl;
    [apply fetch_frame_refl|].
  pose proof (script2_fetch_frame web gid w) as H.
  destruct (Script2.fetch_company_by_id web gid w) as [[r|] w'];
    simpl in H; (eapply fetch_frame_trans; [exact H | apply IH]).
Qed.

Lemma script2_fetch_parallel_frame web start_id max_id w :
  fetch_frame w (Script2.fetch_companies_parallel web start_id max_id w).2.
Proof. apply script2_fetch_all_frame. Qed.

Lemma filter_all_out {A} (f : A → bool) l :
  (∀ x, x ∈ l → f x = false) → List.filter f l = [].
Proof.
  induction l as [|x l IH]; simpl; [done|]. intros H.
  rewrite (H x) by left. apply IH. intros y Hy. apply H. by right.
Qed.

Lemma script2_init w ck :
  CHECKPOINT_FILE w = Present (Parses ck) →
  ∃ c, Script2.CompanyMatcher w = Returns (set_checkpoint ck (set_cache (λ _, c) w))
       ∧ load_cache (CACHE_FILE w) = Returns c.
Proof.
  intros H. unfold Script2.CompanyMatcher. rewrite H. simpl.
  destruct (CACHE_FILE w) as [|[e|c]]; simpl; eauto.
Qed.

(** With [--resume] and a checkpoint that covers every company of a
    non-empty input list, [mapping_script2.py] writes the mappings of the
    checkpoint, unchanged and in their order, as soon as one external record
    is fetched. *)
Lemma script2_resume_complete scorer a JSON_FILE web w ck :
  resume a = true → clear_cache a = false →
  CHECKPOINT_FILE w = Present (Parses ck) →
  Script2.load_companies (limit a) JSON_FILE ≠ [] →
  (∀ c, c ∈ Script2.load_companies (limit a) JSON_FILE →
        Company.company_id c ∈ Checkpoint.processed_ids ck) →
  (∀ w0, Script2.CompanyMatcher w = Returns w0 →
         (Script2.fetch_companies_parallel web 1 (max_id a) w0).1 ≠ []) →
  OUTPUT_FILE (Script2.main scorer a JSON_FILE web w).2
  = Some (Checkpoint.mappings ck).
Proof.
  intros Hres Hclear Hck Hne Hall Hfetch.
  unfold Script2.main. rewrite Hclear, Hres.
  destruct (script2_init w ck Hck) as (c0 & Hinit & _).
  specialize (Hfetch _ Hinit). rewrite Hinit.
  destruct (Script2.load_companies (limit a) JSON_FILE) as [|c cs] eqn:Ecs; [done|].
  cbn [checkpoint set_checkpoint].
  destruct (Checkpoint.processed_ids ck) as [|p ps] eqn:Ep.
  { specialize (Hall c ltac:(left)). by apply elem_of_nil in Hall. }
  rewrite filter_all_out.
  2:{ intros x Hx. apply negb_false_iff, bool_decide_eq_true.
      apply elem_of_list_to_set. rewrite ?Ep. by apply Hall. }
  pose proof (script2_fetch_parallel_frame web 1 (max_id a)
                (set_checkpoint ck (set_cache (λ _, c0) w))) as (Hk & _).
  destruct (Script2.fetch_companies_parallel web 1 (max_id a) _) as [gss w2].
  simpl in Hfetch, Hk. destruct gss as [|g gss]; [done|].
  unfold Script2.perform_matching. cbn [Script2.matching_loop].
  rewrite Hk. cbn [checkpoint set_checkpoint].
  destruct (Checkpoint.mappings ck) as [|m ms]; [done|].
  by rewrite app_nil_r.
Qed.

Lemma script2_loop_requests scorer gss known interrupted total i companies mappings w :
  requests (Script2.matching_loop scorer gss known interrupted total i
              companies mappings w).2 = requests w.
Proof.
  revert i mappings w. induction companies as [|c cs IH]; intros i mappings w;
    cbn [Script2.matching_loop]; [done|].
  destruct (interrupted (2 * i)%nat); [done|].
  destruct (interrupted (2 * i + 1)%nat).
  - by destruct (_ || _).
  - rewrite IH. by destruct (_ || _).
Qed.

Lemma script2_matching_requests scorer gss known interrupted companies w :
  requests (Script2.perform_matching scorer gss known interrupted companies w).2
  = requests w.
Proof.
  unfold Script2.perform_matching. destruct gss; [done|].
  apply script2_loop_requests.
Qed.

(** A run of [mapping_script2.py] that ends with [sys.exit(0)] has written
    its whole cache, [None] entries included. *)
Lemma script2_clean_run_saves_cache scorer a JSON_FILE web w :
  (Script2.main scorer a JSON_FILE web w).1 = Exited 0 →
  CACHE_FILE (Script2.main scorer a JSON_FILE web w).2
  = Present (Parses (cache (Script2.main scorer a JSON_FILE web w).2)).
Proof.
  unfold Script2.main.
  destruct (Script2.CompanyMatcher _) as [w0|e]; [|done].
  destruct (Script2.load_companies _ _) as [|c cs]; [done|].
  destruct (Script2.fetch_companies_parallel _ _ _ _) as [[|g gss] w2]; [done|].
  destruct (Script2.perform_matching _ _ _ _ _ _) as [mappings w3].
  match goal with
  | |- context [match ?ms with [] => _ | _ :: _ => _ end] =>
      destruct ms as [|m ms']; [done|]
  end.
  intros _. cbn [fst snd]. by destruct (exists_ _).
Qed.

(** A run of [mapping_script2.py] without [--clear-cache] requests no ID
    whose key the cache file already holds. *)
Lemma script2_run_requests scorer a JSON_FILE web w c :
  clear_cache a = false →
  CACHE_FILE w = Present (Parses c) →
  ∃ new, requests (Script2.main scorer a JSON_FILE web w).2 = requests w ++ new
         ∧ ∀ g, g ∈ new → c !! cache_key g = None.
Proof.
  intros Hclear Hc.
  assert (∀ w', requests w' = requests w →
            ∃ new, requests w' = requests w ++ new
                   ∧ ∀ g, g ∈ new → c !! cache_key g = None) as Hsame.
  { intros w' ->. exists []. split; [by rewrite app_nil_r|].
    by intros g ?%elem_of_nil. }
  unfold Script2.main. rewrite Hclear.
  unfold Script2.CompanyMatcher. rewrite Hc. cbn [load_cache json_load try_except].
  destruct (load_checkpoint (CHECKPOINT_FILE w)) as [k|e]; [|by apply Hsame].
  destruct (Script2.load_companies _ _) as [|c1 cs]; [by apply Hsame|].
  match goal with
  | |- context [Script2.fetch_companies_parallel web 1 (max_id a) ?w0] =>
      pose proof (script2_fetch_parallel_frame web 1 (max_id a) w0)
        as (_ & _ & _ & _ & new & Hreq & Hnew);
      destruct (Script2.fetch_companies_parallel web 1 (max_id a) w0)
        as [gss w2]
  end.
  cbn [snd requests set_checkpoint set_cache cache] in Hreq, Hnew.
  assert (∀ w', requests w' = requests w2 →
            ∃ new, requests w' = requests w ++ new
                   ∧ ∀ g, g ∈ new → c !! cache_key g = None) as Hafter.
  { intros w' ->. exists new. by rewrite Hreq. }
  destruct gss as [|g gss]; [by apply Hafter|].
  match goal with
  | |- context [Script2.perform_matching ?s ?g ?k ?i ?cs ?w'] =>
      pose proof (script2_matching_requests s g k i cs w') as Hm;
      destruct (Script2.perform_matching s g k i cs w') as [mappings w3]
  end.
  simpl in Hm.
  match goal with
  | |- context [match ?ms with [] => _ | _ :: _ => _ end] =>
      destruct ms as [|m ms']
  end; apply Hafter; cbn [snd]; [done|].
  by destruct (exists_ _).
Qed.

(** Two consecutive runs of [mapping_script2.py] on the same files: after a
    first run that ends with [sys.exit(0)], a second run without
    [--clear-cache] requests no ID that the first one left in the cache, be it
    with a record or with [None]. *)
Lemma script2_absence_durable scorer a1 a2 JSON_FILE1 JSON_FILE2 web1 web2 w :
  let run1 := Script2.main scorer a1 JSON_FILE1 web1 w in
  let run2 := Script2.main scorer a2 JSON_FILE2 web2 run1.2 in
  run1.1 = Exited 0 → clear_cache a2 = false →
  ∃ new, requests run2.2 = requests run1.2 ++ new
         ∧ ∀ g, is_Some (cache run1.2 !! cache_key g) → g ∉ new.
Proof.
  intros run1 run2 Hexit Hclear.
  pose proof (script2_clean_run_saves_cache scorer a1 JSON_FILE1 web1 w Hexit)
    as Hsaved. fold run1 in Hsaved.
  destruct (script2_run_requests scorer a2 JSON_FILE2 web2 run1.2 _ Hclear Hsaved)
    as (new & Hreq & Hnew).
  exists new. split; [done|].
  intros g [v Hv] Hg. specialize (Hnew g Hg). congruence.
Qed.

(** ** The examples of the specification *)

Example override_example :
  Script2.match_company Scenario.scorer [Scenario.acme_record]
    Scenario.agnico_override Scenario.agnico
  = Mapping.mk 10 "Agnico Eagle Mines Ltd" (Some "TSX:AEM") (Some "8")
               (Some "Agnico Eagle Mines Ltd") matched 100 known_mapping.
Proof. by vm_compute. Qed.

Example exact_ticker_example :
  let company := Company.mk 7 "Alpha Beta" (Some "CVE:ABC") in
  let record := GoldstockCompany.mk "42" "Gamma Delta" (Some "ABC.V") [] None in
  Script1.normalize_ticker (Some "CVE:ABC") = Some "ABC"
  ∧ Script1.normalize_ticker (Some "ABC.V") = Some "ABC"
  ∧ Script1.match_company Scenario.scorer [record] ∅ company
    = Mapping.mk 7 "Alpha Beta" (Some "CVE:ABC") (Some "42") (Some "Gamma Delta")
                 matched 100 exact_ticker
  ∧ Script2.match_company Scenario.scorer [record] ∅ company
    = Mapping.mk 7 "Alpha Beta" (Some "CVE:ABC") (Some "42") (Some "Gamma Delta")
                 matched 100 exact_ticker.
Proof. split_and!; by vm_compute. Qed.

Example fuzzy_example :
  Script1.match_company Scenario.score_78 [Scenario.probe_record] ∅ Scenario.probe
  = Mapping.mk 5 "Probe Gold Group" None None None unmatched 0 none
  ∧ Script2.match_company Scenario.score_78 [Scenario.probe_record] ∅ Scenario.probe
    = Mapping.mk 5 "Probe Gold Group" None (Some "374") (Some "Probe Gold Corp")
                 manual 78 fuzzy_name.
Proof. split_and!; by vm_compute. Qed.

Example unmatched_example :
  Script2.match_company (λ _ _, 40) [Scenario.probe_record] ∅ Scenario.probe
  = Mapping.mk 5 "Probe Gold Group" None None None unmatched 0 none.
Proof. by vm_compute. Qed.

(** * Further properties *)

Import More.

(** ** The two indexes *)

Lemma last_filter_cons {A} (P : A → bool) x l :
  last (List.filter P (x :: l)) =
  match last (List.filter P l) with
  | Some y => Some y
  | None => if P x then Some x else None
  end.
Proof.
  simpl. destruct (P x); [|by destruct (last _)].
  rewrite last_cons. by destruct (last _).
Qed.

Section IndexFold.

Context {A : Type} (step : gmap string A → A → gmap string A).
Variable files : string → A → bool.
Hypothesis step_lookup : ∀ idx x key,
  step idx x !! key = if files key x then Some x else idx !! key.

Lemma index_fold_lookup l idx key :
  fold_left step l idx !! key =
  match last (List.filter (files key) l) with
  | Some x => Some x
  | None => idx !! key
  end.
Proof using step_lookup.
  revert idx. induction l as [|x l IH]; intros idx; [done|].
  cbn [fold_left]. rewrite IH, last_filter_cons, step_lookup.
  destruct (last _); [done|]. by destruct (files key x).
Qed.

End IndexFold.

Lemma script1_index_ticker_lookup idx gs key :
  Script1.index_ticker idx gs !! key =
  if bool_decide (key ≠ ""
       ∧ Script1.normalize_ticker (GoldstockCompany.ticker gs) = Some key)
  then Some gs else idx !! key.
Proof.
  unfold Script1.index_ticker.
  destruct (GoldstockCompany.ticker gs) as [t|] eqn:Et.
  2:{ rewrite bool_decide_eq_false_2; [done|]. by intros [_ ?]. }
  rewrite script1_normalize_ticker_eq.
  destruct (truthy t) eqn:Ht.
  2:{ rewrite bool_decide_eq_false_2; [done|]. by intros [_ ?]. }
  match goal with
  | |- context [match (if ?b then Some ?x else Some ?y) with _ => _ end] =>
      assert ((if b then Some x else Some y) = Some (if b then x else y)) as ->
        by (by destruct b);
      generalize (if b then x else y)
  end.
  intros n. destruct (truthy n) eqn:Hn.
  - destruct (decide (n = key)) as [->|Hne].
    + rewrite lookup_insert_eq, bool_decide_eq_true_2; [done|].
      split; [by intros -> | done].
    + rewrite lookup_insert_ne by done.
      rewrite bool_decide_eq_false_2; [done|]. intros [_ [=]]. done.
  - rewrite bool_decide_eq_false_2; [done|].
    intros [Hk [= ->]]. by destruct key.
Qed.

Lemma script2_index_ticker_lookup idx gs key :
  Script2.index_ticker idx gs !! key =
  if bool_decide (key ≠ ""
       ∧ Script2.normalize_ticker (GoldstockCompany.ticker gs) = Some key)
  then Some gs else idx !! key.
Proof.
  unfold Script2.index_ticker.
  destruct (GoldstockCompany.ticker gs) as [t|] eqn:Et.
  2:{ rewrite bool_decide_eq_false_2; [done|]. by intros [_ ?]. }
  rewrite script2_normalize_ticker_eq.
  destruct (truthy t) eqn:Ht.
  2:{ rewrite bool_decide_eq_false_2; [done|]. by intros [_ ?]. }
  generalize (str (ticker_pipeline Script2.exchange_prefixes
                     Script2.exchange_suffixes (chars t))).
  intros n. destruct (truthy n) eqn:Hn.
  - destruct (decide (n = key)) as [->|Hne].
    + rewrite lookup_insert_eq, bool_decide_eq_true_2; [done|].
      split; [by intros -> | done].
    + rewrite lookup_insert_ne by done.
      rewrite bool_decide_eq_false_2; [done|]. intros [_ [=]]. done.
  - rewrite bool_decide_eq_false_2; [done|].
    intros [Hk [= ->]]. by destruct key.
Qed.

Lemma script1_gs_by_ticker_last goldstock_companies key :
  Script1.gs_by_ticker goldstock_companies !! key
  = last (filed_by_ticker Script1.normalize_ticker key goldstock_companies).
Proof.
  unfold Script1.gs_by_ticker, filed_by_ticker.
  rewrite (index_fold_lookup Script1.index_ticker
             (λ key gs, bool_decide (key ≠ ""
                ∧ Script1.normalize_ticker (GoldstockCompany.ticker gs) = Some key))).
  - by destruct (last _).
  - intros. apply script1_index_ticker_lookup.
Qed.

Lemma script2_gs_by_ticker_last goldstock_companies key :
  Script2.gs_by_ticker goldstock_companies !! key
  = last (filed_by_ticker Script2.normalize_ticker key goldstock_companies).
Proof.
  unfold Script2.gs_by_ticker, filed_by_ticker.
  rewrite (index_fold_lookup Script2.index_ticker
             (λ key gs, bool_decide (key ≠ ""
                ∧ Script2.normalize_ticker (GoldstockCompany.ticker gs) = Some key))).
  - by destruct (last _).
  - intros. apply script2_index_ticker_lookup.
Qed.

(** X1: a look-up in the ticker index returns the last record of the list
    whose ticker normalizes to the key, and nothing when there is none or
    when the key is empty: later records overwrite earlier ones. *)
Theorem ticker_index_last_wins (goldstock_companies : list GoldstockCompany.t)
  (key : string) :
  Script1.gs_by_ticker goldstock_companies !! key
  = last (filed_by_ticker Script1.normalize_ticker key goldstock_companies)
  ∧ Script2.gs_by_ticker goldstock_companies !! key
    = last (filed_by_ticker Script2.normalize_ticker key goldstock_companies).
Proof.
  split; [apply script1_gs_by_ticker_last | apply script2_gs_by_ticker_last].
Qed.

Section NameIndex.

Variable normalize_name : option string → string.
Variable gs : GoldstockCompany.t.
Variable index_one_name :
  gmap string GoldstockCompany.t → string → gmap string GoldstockCompany.t.
Hypothesis index_one_name_eq : ∀ idx name,
  index_one_name idx name =
  if truthy (normalize_name (Some name))
  then <[normalize_name (Some name) := gs]> idx else idx.

Lemma index_one_name_lookup idx name key :
  index_one_name idx name !! key =
  if bool_decide (key ≠ "" ∧ key = normalize_name (Some name))
  then Some gs else idx !! key.
Proof using index_one_name_eq.
  rewrite index_one_name_eq.
  destruct (truthy (normalize_name (Some name))) eqn:Hn.
  - destruct (decide (normalize_name (Some name) = key)) as [<-|Hne].
    + rewrite lookup_insert_eq, bool_decide_eq_true_2; [done|].
      split; [|done]. intros E. by rewrite E in Hn.
    + rewrite lookup_insert_ne by done.
      rewrite bool_decide_eq_false_2; [done|]. by intros [_ ->].
  - rewrite bool_decide_eq_false_2; [done|].
    intros [Hk ->]. by destruct (normalize_name (Some name)).
Qed.

Lemma index_names_lookup names idx key :
  fold_left index_one_name names idx !! key =
  if bool_decide (key ≠ "" ∧ key ∈ map (λ n, normalize_name (Some n)) names)
  then Some gs else idx !! key.
Proof using index_one_name_eq.
  revert idx. induction names as [|n names IH]; intros idx.
  - simpl. rewrite bool_decide_eq_false_2; [done|]. by intros [_ ?%elem_of_nil].
  - cbn [fold_left map]. rewrite IH, index_one_name_lookup.
    destruct (decide (key = "")) as [->|Hk].
    { rewrite !bool_decide_eq_false_2; [done | by intros [? _]..]. }
    destruct (decide (key ∈ map (λ n, normalize_name (Some n)) names)) as [Hin|Hin].
    { rewrite !(bool_decide_eq_true_2 (_ ∧ _ ∈ _)); [done | split; [done|]..].
      - by right.
      - done. }
    rewrite (bool_decide_eq_false_2 (_ ∧ _ ∈ map _ names)) by (by intros [_ ?]).
    destruct (decide (key = normalize_name (Some n))) as [E|E].
    + rewrite !bool_decide_eq_true_2; [done | split; [done|]..]; [|done].
      rewrite E at 1. left.
    + rewrite !bool_decide_eq_false_2; [done | |by intros [_ ?]].
      intros [_ [?|?]%elem_of_cons]; done.
Qed.

End NameIndex.

Lemma script1_index_names_lookup idx gs key :
  Script1.index_names idx gs !! key =
  if bool_decide
       (key ≠ ""
        ∧ key ∈ map (λ n, Script1.normalize_name (Some n))
                    (GoldstockCompany.company_name gs
                       :: GoldstockCompany.aliases gs))
  then Some gs else idx !! key.
Proof.
  unfold Script1.index_names.
  change (fold_left (Script1.index_one_name gs) (GoldstockCompany.aliases gs)
            (Script1.index_one_name gs idx (GoldstockCompany.company_name gs)))
    with (fold_left (Script1.index_one_name gs)
            (GoldstockCompany.company_name gs :: GoldstockCompany.aliases gs) idx).
  by apply (index_names_lookup Script1.normalize_name gs).
Qed.

Lemma script2_index_names_lookup idx gs key :
  Script2.index_names idx gs !! key =
  if bool_decide
       (key ≠ ""
        ∧ key ∈ map (λ n, Script2.normalize_name (Some n))
                    (GoldstockCompany.company_name gs
                       :: GoldstockCompany.aliases gs))
  then Some gs else idx !! key.
Proof.
  unfold Script2.index_names.
  change (fold_left (Script2.index_one_name gs) (GoldstockCompany.aliases gs)
            (Script2.index_one_name gs idx (GoldstockCompany.company_name gs)))
    with (fold_left (Script2.index_one_name gs)
            (GoldstockCompany.company_name gs :: GoldstockCompany.aliases gs) idx).
  by apply (index_names_lookup Script2.normalize_name gs).
Qed.

Lemma script1_gs_by_name_last goldstock_companies key :
  Script1.gs_by_normalized_name goldstock_companies !! key
  = last (filed_by_name Script1.normalize_name key goldstock_companies).
Proof.
  unfold Script1.gs_by_normalized_name, filed_by_name.
  rewrite (index_fold_lookup Script1.index_names
             (λ key gs, bool_decide (key ≠ ""
                ∧ key ∈ map (λ n, Script1.normalize_name (Some n))
                            (GoldstockCompany.company_name gs
                               :: GoldstockCompany.aliases gs)))).
  - by destruct (last _).
  - intros. apply script1_index_names_lookup.
Qed.

Lemma script2_gs_by_name_last goldstock_companies key :
  Script2.gs_by_normalized_name goldstock_companies !! key
  = last (filed_by_name Script2.normalize_name key goldstock_companies).
Proof.
  unfold Script2.gs_by_normalized_name, filed_by_name.
  rewrite (index_fold_lookup Script2.index_names
             (λ key gs, bool_decide (key ≠ ""
                ∧ key ∈ map (λ n, Script2.normalize_name (Some n))
                            (GoldstockCompany.company_name gs
                               :: GoldstockCompany.aliases gs)))).
  - by destruct (last _).
  - intros. apply script2_index_names_lookup.
Qed.

(** X2: a look-up in the name index returns the last record of the list
    whose name, or one of whose aliases, normalizes to the key, and nothing
    when there is none or when the key is empty. *)
Theorem name_index_last_wins (goldstock_companies : list GoldstockCompany.t)
  (key : string) :
  Script1.gs_by_normalized_name goldstock_companies !! key
  = last (filed_by_name Script1.normalize_name key goldstock_companies)
  ∧ Script2.gs_by_normalized_name goldstock_companies !! key
    = last (filed_by_name Script2.normalize_name key goldstock_companies).
Proof.
  split; [apply script1_gs_by_name_last | apply script2_gs_by_name_last].
Qed.

(** What a hit says about the record found. *)
Lemma filed_by_ticker_last nt key gss gs :
  last (filed_by_ticker nt key gss) = Some gs →
  gs ∈ gss ∧ key ≠ "" ∧ nt (GoldstockCompany.ticker gs) = Some key.
Proof.
  intros H%last_Some_elem_of. unfold filed_by_ticker in H.
  apply list_elem_of_In, filter_In in H as [Hin H].
  apply bool_decide_eq_true in H. by apply list_elem_of_In in Hin.
Qed.

Lemma filed_by_name_last nn key gss gs :
  last (filed_by_name nn key gss) = Some gs →
  gs ∈ gss ∧ key ≠ ""
  ∧ key ∈ map (λ n, nn (Some n))
              (GoldstockCompany.company_name gs :: GoldstockCompany.aliases gs).
Proof.
  intros H%last_Some_elem_of. unfold filed_by_name in H.
  apply list_elem_of_In, filter_In in H as [Hin H].
  apply bool_decide_eq_true in H. by apply list_elem_of_In in Hin.
Qed.

(** ** The exact tiers *)

Section ExactTiers.

Variable scorer : string → string → Z.
Variable goldstock_companies : list GoldstockCompany.t.
Variable known_mappings : gmap Z Known.t.
Variable company : Company.t.

Hypothesis no_override :
  known_mappings !! Company.company_id company = None.

Lemma script1_ticker_hit n gs :
  Script1.normalize_ticker (Company.tsx_code company) = Some n → n ≠ "" →
  Script1.gs_by_ticker goldstock_companies !! n = Some gs →
  Script1.match_company scorer goldstock_companies known_mappings company
  = Mapping.mk (Company.company_id company) (Company.company_name company)
      (Company.tsx_code company) (Some (GoldstockCompany.goldstock_id gs))
      (Some (GoldstockCompany.company_name gs)) matched 100 exact_ticker.
Proof using no_override.
  intros Hn Hne Hgs.
  unfold Script1.match_company, Script1.early_tiers, Script1.known_tier,
    Script1.ticker_tier, Script1.matched_with.
  rewrite no_override.
  destruct (Company.tsx_code company) as [t|]; [|done].
  destruct (truthy t) eqn:Ht.
  2:{ rewrite script1_normalize_ticker_eq, Ht in Hn. done. }
  rewrite Hn. destruct n; [done|]. cbn [truthy]. by rewrite Hgs.
Qed.

Lemma script2_ticker_hit n gs :
  Script2.normalize_ticker (Company.tsx_code company) = Some n → n ≠ "" →
  Script2.gs_by_ticker goldstock_companies !! n = Some gs →
  Script2.match_company scorer goldstock_companies known_mappings company
  = Mapping.mk (Company.company_id company) (Company.company_name company)
      (Company.tsx_code company) (Some (GoldstockCompany.goldstock_id gs))
      (Some (GoldstockCompany.company_name gs)) matched 100 exact_ticker.
Proof using no_override.
  intros Hn Hne Hgs.
  unfold Script2.match_company, Script2.known_tier.
  rewrite no_override, Hn. unfold Script2.ticker_tier. cbn [Script2.match_].
  destruct n; [done|]. cbn [truthy]. by rewrite Hgs.
Qed.

Lemma script1_ticker_miss :
  (∀ n, Script1.normalize_ticker (Company.tsx_code company) = Some n → n ≠ "" →
        Script1.gs_by_ticker goldstock_companies !! n = None) →
  Script1.ticker_tier goldstock_companies company = None.
Proof.
  intros Hmiss. unfold Script1.ticker_tier.
  destruct (Company.tsx_code company) as [t|]; [|done].
  destruct (truthy t); [|done].
  destruct (Script1.normalize_ticker (Some t)) as [n|]; [|done].
  destruct (truthy n) eqn:Hn; [|done].
  rewrite Hmiss; [done | done |]. by intros ->.
Qed.

Lemma script2_ticker_miss l :
  (∀ n, Script2.normalize_ticker (Company.tsx_code company) = Some n → n ≠ "" →
        Script2.gs_by_ticker goldstock_companies !! n = None) →
  Script2.ticker_tier goldstock_companies
    (Script2.normalize_ticker (Company.tsx_code company)) l = l.
Proof.
  intros Hmiss. unfold Script2.ticker_tier.
  destruct (Script2.match_ l); [done|].
  destruct (Script2.normalize_ticker (Company.tsx_code company)) as [n|]; [|done].
  destruct (truthy n) eqn:Hn; [|done].
  rewrite Hmiss; [done | done |]. by intros ->.
Qed.

Lemma script1_name_hit gs :
  (∀ n, Script1.normalize_ticker (Company.tsx_code company) = Some n → n ≠ "" →
        Script1.gs_by_ticker goldstock_companies !! n = None) →
  Script1.gs_by_normalized_name goldstock_companies
    !! Script1.normalize_name (Some (Company.company_name company)) = Some gs →
  Script1.match_company scorer goldstock_companies known_mappings company
  = Mapping.mk (Company.company_id company) (Company.company_name company)
      (Company.tsx_code company) (Some (GoldstockCompany.goldstock_id gs))
      (Some (GoldstockCompany.company_name gs)) matched 95 exact_name.
Proof using no_override.
  intros Hmiss Hgs.
  unfold Script1.match_company, Script1.early_tiers, Script1.known_tier.
  rewrite no_override, script1_ticker_miss by done.
  unfold Script1.name_tier, Script1.matched_with. by rewrite Hgs.
Qed.

Lemma script2_name_hit gs :
  (∀ n, Script2.normalize_ticker (Company.tsx_code company) = Some n → n ≠ "" →
        Script2.gs_by_ticker goldstock_companies !! n = None) →
  Script2.gs_by_normalized_name goldstock_companies
    !! Script2.normalize_name (Some (Company.company_name company)) = Some gs →
  Script2.match_company scorer goldstock_companies known_mappings company
  = Mapping.mk (Company.company_id company) (Company.company_name company)
      (Company.tsx_code company) (Some (GoldstockCompany.goldstock_id gs))
      (Some (GoldstockCompany.company_name gs)) matched 95 exact_name.
Proof using no_override.
  intros Hmiss Hgs.
  unfold Script2.match_company, Script2.known_tier.
  rewrite no_override, script2_ticker_miss by done.
  unfold Script2.name_tier. cbn [Script2.match_]. by rewrite Hgs.
Qed.

End ExactTiers.

(** X3: for a company without override, a non-empty normalized ticker found
    in the ticker index settles the outcome, whatever its name is: matched to
    the indexed record with confidence 100 and method [exact_ticker]. *)
Theorem exact_ticker_tier (scorer : string → string → Z)
  (goldstock_companies : list GoldstockCompany.t)
  (known_mappings : gmap Z Known.t) (company : Company.t)
  (n : string) (gs : GoldstockCompany.t) :
  known_mappings !! Company.company_id company = None → n ≠ "" →
  (Script1.normalize_ticker (Company.tsx_code company) = Some n →
   Script1.gs_by_ticker goldstock_companies !! n = Some gs →
   Script1.match_company scorer goldstock_companies known_mappings company
   = Mapping.mk (Company.company_id company) (Company.company_name company)
       (Company.tsx_code company) (Some (GoldstockCompany.goldstock_id gs))
       (Some (GoldstockCompany.company_name gs)) matched 100 exact_ticker)
  ∧ (Script2.normalize_ticker (Company.tsx_code company) = Some n →
     Script2.gs_by_ticker goldstock_companies !! n = Some gs →
     Script2.match_company scorer goldstock_companies known_mappings company
     = Mapping.mk (Company.company_id company) (Company.company_name company)
         (Company.tsx_code company) (Some (GoldstockCompany.goldstock_id gs))
         (Some (GoldstockCompany.company_name gs)) matched 100 exact_ticker).
Proof.
  intros Hk Hn. split; intros H1 H2.
  - by apply (script1_ticker_hit _ _ _ _ Hk n).
  - by apply (script2_ticker_hit _ _ _ _ Hk n).
Qed.

(** X4: for a company without override whose ticker gives no hit, a
    normalized name found in the name index settles the outcome: matched to
    the indexed record with confidence 95 and method [exact_name]; the fuzzy
    tier is not consulted. *)
Theorem exact_name_tier (scorer : string → string → Z)
  (goldstock_companies : list GoldstockCompany.t)
  (known_mappings : gmap Z Known.t) (company : Company.t)
  (gs : GoldstockCompany.t) :
  known_mappings !! Company.company_id company = None →
  ((∀ n, Script1.normalize_ticker (Company.tsx_code company) = Some n → n ≠ "" →
         Script1.gs_by_ticker goldstock_companies !! n = None) →
   Script1.gs_by_normalized_name goldstock_companies
     !! Script1.normalize_name (Some (Company.company_name company)) = Some gs →
   Script1.match_company scorer goldstock_companies known_mappings company
   = Mapping.mk (Company.company_id company) (Company.company_name company)
       (Company.tsx_code company) (Some (GoldstockCompany.goldstock_id gs))
       (Some (GoldstockCompany.company_name gs)) matched 95 exact_name)
  ∧ ((∀ n, Script2.normalize_ticker (Company.tsx_code company) = Some n → n ≠ "" →
           Script2.gs_by_ticker goldstock_companies !! n = None) →
     Script2.gs_by_normalized_name goldstock_companies
       !! Script2.normalize_name (Some (Company.company_name company)) = Some gs →
     Script2.match_company scorer goldstock_companies known_mappings company
     = Mapping.mk (Company.company_id company) (Company.company_name company)
         (Company.tsx_code company) (Some (GoldstockCompany.goldstock_id gs))
         (Some (GoldstockCompany.company_name gs)) matched 95 exact_name).
Proof.
  intros Hk. split; intros H1 H2.
  - by apply script1_name_hit.
  - by apply script2_name_hit.
Qed.

(** ** Where a match comes from *)

Lemma truthy_nonempty s : truthy s = true → s ≠ "".
Proof. by destruct s. Qed.

Ltac mapping_fields :=
  cbn [Mapping.match_method Mapping.goldstock_id Mapping.goldstock_name
       Mapping.match_status Mapping.confidence_score Mapping.company_id
       Mapping.company_name Mapping.tsx_code].

Lemma script1_explained scorer goldstock_companies known_mappings company :
  explained Script1.normalize_ticker Script1.normalize_name scorer 80
    goldstock_companies known_mappings company
    (Script1.match_company scorer goldstock_companies known_mappings company).
Proof.
  unfold Script1.match_company, Script1.early_tiers, Script1.known_tier.
  destruct (known_mappings !! Company.company_id company) as [k|] eqn:Ek.
  { unfold explained. mapping_fields. exists k. split_and!; first [assumption | reflexivity]. }
  destruct (Script1.ticker_tier goldstock_companies company) as [m|] eqn:Et.
  { unfold Script1.ticker_tier in Et.
    destruct (Company.tsx_code company) as [t|] eqn:Etsx; [|discriminate].
    destruct (truthy t); [|discriminate].
    destruct (Script1.normalize_ticker (Some t)) as [n|] eqn:En; [|discriminate].
    destruct (truthy n) eqn:Hn; [|discriminate].
    destruct (Script1.gs_by_ticker goldstock_companies !! n) as [gs|] eqn:Egs;
      [|discriminate].
    injection Et as <-.
    rewrite script1_gs_by_ticker_last in Egs.
    apply filed_by_ticker_last in Egs as (Hin & Hne & Hk).
    unfold explained, Script1.matched_with, carries. mapping_fields.
    exists gs, n. rewrite Etsx. split_and!; first [assumption | reflexivity]. }
  unfold Script1.name_tier.
  destruct (Script1.gs_by_normalized_name goldstock_companies !! _)
    as [gs|] eqn:Egs.
  { rewrite script1_gs_by_name_last in Egs.
    apply filed_by_name_last in Egs as (Hin & Hne & Hk).
    unfold explained, Script1.matched_with, carries. mapping_fields.
    exists gs. split_and!; first [assumption | reflexivity]. }
  unfold Script1.fuzzy_tier, Script1.fuzzy_best, Script1.unmatched_mapping.
  assert (∀ m : Mapping.t,
    Mapping.match_method m = none → Mapping.goldstock_id m = None →
    Mapping.goldstock_name m = None → Mapping.match_status m = unmatched →
    explained Script1.normalize_ticker Script1.normalize_name scorer 80
      goldstock_companies known_mappings company m) as Hnone.
  { intros m H1 H2 H3 H4. unfold explained. rewrite H1. by split_and!. }
  destruct goldstock_companies as [|g0 gss] eqn:Egss;
    [by apply Hnone|]. rewrite <- Egss in *.
  destruct (truthy _) eqn:Hq; [|by apply Hnone].
  destruct (Fuzzy.extractOne _ _ _ _) as [[c' s]|] eqn:Ex; [|by apply Hnone].
  apply extractOne_Some in Ex as (Hc' & -> & _).
  destruct (find_normalized _ _ _ Hc') as (gs' & -> & Hin & Hn').
  destruct (Z.leb_spec 80 (scorer (Script1.normalize_name
              (Some (Company.company_name company))) c')) as [Hle|Hlt];
    [|by apply Hnone].
  cbv beta iota. apply Z.leb_le in Hle as Hle'. rewrite Hle'.
  unfold explained, Script1.matched_with, carries. mapping_fields.
  exists gs'. split_and!; try first [assumption | reflexivity].
  - by apply truthy_nonempty.
  - by rewrite Hn'.
Qed.

Lemma script2_explained scorer goldstock_companies known_mappings company :
  explained Script2.normalize_ticker Script2.normalize_name scorer 70
    goldstock_companies known_mappings company
    (Script2.match_company scorer goldstock_companies known_mappings company).
Proof.
  unfold Script2.match_company, Script2.known_tier.
  destruct (known_mappings !! Company.company_id company) as [k|] eqn:Ek.
  { unfold explained, Script2.ticker_tier, Script2.name_tier,
      Script2.fuzzy_tier, Script2.found.
    cbn [Script2.match_ Script2.goldstock_id Script2.goldstock_name
         Script2.status_ Script2.confidence Script2.match_method].
    mapping_fields. exists k. split_and!; first [assumption | reflexivity]. }
  destruct (Script2.match_ (Script2.ticker_tier goldstock_companies
              (Script2.normalize_ticker (Company.tsx_code company))
              (Script2.mkLocals None 0 unmatched None None none)))
    as [gs|] eqn:Et.
  { unfold Script2.ticker_tier in *. cbn [Script2.match_] in *.
    destruct (Script2.normalize_ticker (Company.tsx_code company)) as [n|] eqn:En;
      [|discriminate].
    destruct (truthy n) eqn:Hn; [|discriminate].
    destruct (Script2.gs_by_ticker goldstock_companies !! n) as [gs'|] eqn:Egs;
      [|discriminate].
    rewrite script2_gs_by_ticker_last in Egs.
    apply filed_by_ticker_last in Egs as (Hin & Hne & Hk).
    unfold explained, Script2.name_tier, Script2.fuzzy_tier, Script2.found, carries.
    cbn [Script2.match_ Script2.goldstock_id Script2.goldstock_name
         Script2.status_ Script2.confidence Script2.match_method].
    mapping_fields. exists gs', n. split_and!; first [assumption | reflexivity]. }
  assert (Script2.ticker_tier goldstock_companies
            (Script2.normalize_ticker (Company.tsx_code company))
            (Script2.mkLocals None 0 unmatched None None none)
          = Script2.mkLocals None 0 unmatched None None none) as ->.
  { unfold Script2.ticker_tier in *. cbn [Script2.match_] in *.
    destruct (Script2.normalize_ticker _); [|reflexivity].
    destruct (truthy _); [|reflexivity].
    destruct (Script2.gs_by_ticker goldstock_companies !! _);
      [discriminate | reflexivity]. }
  clear Et. unfold Script2.name_tier. cbn [Script2.match_].
  destruct (Script2.gs_by_normalized_name goldstock_companies !! _)
    as [gs|] eqn:Egs.
  { rewrite script2_gs_by_name_last in Egs.
    apply filed_by_name_last in Egs as (Hin & Hne & Hk).
    unfold explained, Script2.fuzzy_tier, Script2.found, carries.
    cbn [Script2.match_ Script2.goldstock_id Script2.goldstock_name
         Script2.status_ Script2.confidence Script2.match_method].
    mapping_fields. exists gs. split_and!; first [assumption | reflexivity]. }
  unfold Script2.fuzzy_tier. cbn [Script2.match_].
  assert (explained Script2.normalize_ticker Script2.normalize_name scorer 70
            goldstock_companies known_mappings company
            (Mapping.mk (Company.company_id company)
               (Company.company_name company) (Company.tsx_code company)
               None None unmatched 0 none)) as Hnone.
  { unfold explained. mapping_fields. by split_and!. }
  destruct (truthy _) eqn:Hq; [|exact Hnone].
  destruct (Fuzzy.extractOne _ _ _ _) as [[c' s]|] eqn:Ex; [|exact Hnone].
  apply extractOne_Some in Ex as (Hc' & -> & Hfloor & _).
  destruct (list_find _ _) as [[idx c'']|] eqn:Hfind; [|exact Hnone].
  apply list_find_Some in Hfind as (Hidx & -> & _).
  apply list_lookup_fmap_Some in Hidx as (gs & Egs' & Hgs).
  rewrite Hgs.
  unfold explained, Script2.found, carries.
  cbn [Script2.match_ Script2.goldstock_id Script2.goldstock_name
       Script2.status_ Script2.confidence Script2.match_method].
  mapping_fields. exists gs. split_and!; try first [assumption | reflexivity].
  - by eapply list_elem_of_lookup_2.
  - by apply truthy_nonempty.
  - by rewrite Egs'.
Qed.

(** X5: the method of a mapping tells where its external identity comes
    from.  Whatever the company, the records and the override table: an
    unmatched mapping names no record; a [known_mapping] one carries the ID
    and name of the company's override; an [exact_ticker] one those of a
    record of the list whose ticker normalizes to the same non-empty string
    as the company's code; an [exact_name] one those of a record one of whose
    names normalizes as the company's name; a [fuzzy_name] one those of a
    record whose normalized name scores the reported confidence, at least 80
    ([mapping_script.py]) or 70 ([mapping_script2.py]).  The ID and the name
    of a mapping always come from the same record. *)
Theorem match_explained (scorer : string → string → Z)
  (goldstock_companies : list GoldstockCompany.t)
  (known_mappings : gmap Z Known.t) (company : Company.t) :
  explained Script1.normalize_ticker Script1.normalize_name scorer 80
    goldstock_companies known_mappings company
    (Script1.match_company scorer goldstock_companies known_mappings company)
  ∧ explained Script2.normalize_ticker Script2.normalize_name scorer 70
      goldstock_companies known_mappings company
      (Script2.match_company scorer goldstock_companies known_mappings company).
Proof. split; [apply script1_explained | apply script2_explained]. Qed.

(** ** What the matching loop has saved when it stops *)

Lemma matching_frame_refl w : matching_frame w w.
Proof. done. Qed.

Lemma matching_frame_save ms w0 w :
  matching_frame w0 w →
  matching_frame w0 (save_checkpoint ms (save_mappings ms w))
  ∧ matching_frame w0 (save_mappings ms (save_checkpoint ms w)).
Proof. intros (? & ? & ?). by split. Qed.

Lemma saved_save ms w :
  saved ms (save_checkpoint ms (save_mappings ms w))
  ∧ saved ms (save_mappings ms (save_checkpoint ms w)).
Proof. by split. Qed.

Lemma persisted_saved ms w w' : ms ≠ [] → saved ms w' → persisted ms w w'.
Proof. by destruct ms. Qed.

Lemma script1_loop_frame scorer gss known interrupted i companies mappings w0 w :
  matching_frame w0 w →
  matching_frame w0
    (Script1.matching_loop scorer gss known interrupted i companies mappings w).2.
Proof.
  revert i mappings w. induction companies as [|c cs IH]; intros i mappings w Hw;
    cbn [Script1.matching_loop]; [done|].
  destruct (interrupted i); [done|].
  destruct (Script1.early_tiers gss known c); [by apply IH|].
  apply IH. destruct (_ =? _)%nat; [|done].
  by apply matching_frame_save.
Qed.

(** X6: the matching of [mapping_script.py] never loses a mapping it
    returns.  Whatever the companies, the records and the moments at which
    an interruption is seen, when [perform_matching] returns, the table, the
    checkpoint file and the checkpoint dictionary hold exactly the returned
    mappings, and the cache, its file and the network were left alone. *)
Theorem script1_matching_persists_all (scorer : string → string → Z)
  (goldstock_companies : list GoldstockCompany.t)
  (known_mappings : gmap Z Known.t) (interrupted : nat → bool)
  (companies : list Company.t) (w : world) :
  let r := Script1.perform_matching scorer goldstock_companies known_mappings
             interrupted companies w in
  saved r.1 r.2 ∧ matching_frame w r.2.
Proof.
  unfold Script1.perform_matching.
  pose proof (script1_loop_frame scorer goldstock_companies known_mappings
                interrupted 0 companies [] w w (matching_frame_refl w)) as Hf.
  destruct (Script1.matching_loop _ _ _ _ _ _ _ _) as [ms w']. cbn [fst snd] in *.
  split; [apply saved_save | by apply matching_frame_save].
Qed.

Lemma script2_loop_persisted scorer gss known interrupted n i companies
  mappings w0 w k0 :
  length mappings = i → (i + length companies = n)%nat →
  (10 * (i / 10) ≤ k0)%nat → (k0 ≤ i)%nat →
  (companies = [] → k0 = i) →
  persisted (take k0 mappings) w0 w → matching_frame w0 w →
  let r := Script2.matching_loop scorer gss known interrupted n i companies
             mappings w in
  ∃ k, (k ≤ length r.1)%nat ∧ (length r.1 < k + 10)%nat
       ∧ persisted (take k r.1) w0 r.2 ∧ matching_frame w0 r.2
       ∧ ((∀ j, interrupted (2 * j)%nat = false) → k = length r.1).
Proof.
  revert i mappings w k0.
  induction companies as [|c cs IH]; intros i mappings w k0 Hlen Hn Hlo Hhi
    Hlast Hp Hf; cbn [Script2.matching_loop].
  - exists k0. cbn [fst snd].
    refine (conj _ (conj _ (conj Hp (conj Hf _)))).
    + lia.
    + pose proof (Nat.div_mod i 10). pose proof (Nat.mod_upper_bound i 10). lia.
    + intros _. rewrite Hlen. by apply Hlast.
  - destruct (interrupted (2 * i)%nat) eqn:Htop.
    { exists k0. cbn [fst snd].
      refine (conj _ (conj _ (conj Hp (conj Hf _)))).
      - lia.
      - pose proof (Nat.div_mod i 10). pose proof (Nat.mod_upper_bound i 10). lia.
      - intros H. by rewrite H in Htop. }
    set (m := Script2.match_company scorer gss known c).
    assert (length (mappings ++ [m]) = S i) as Hlen'
      by (rewrite length_app; cbn; lia).
    assert (mappings ++ [m] ≠ []) as Hne by (by destruct mappings).
    destruct (interrupted (2 * i + 1)%nat).
    { exists (S i). cbn [fst snd]. rewrite Hlen'.
      refine (conj _ (conj _ (conj _ (conj _ _)))).
      - lia.
      - lia.
      - rewrite <- Hlen', firstn_all. apply persisted_saved; [done|].
        apply saved_save.
      - apply matching_frame_save.
        destruct (_ || _); [by apply matching_frame_save | done].
      - done. }
    destruct (((i + 1) mod 10 =? 0)%nat || (i =? n - 1)%nat) eqn:Esave.
    + apply (IH (S i) _ _ (S i)).
      * done.
      * cbn [length] in Hn. lia.
      * pose proof (Nat.div_mod (S i) 10). lia.
      * lia.
      * done.
      * rewrite <- Hlen', firstn_all. apply persisted_saved; [done|].
        apply saved_save.
      * by apply matching_frame_save.
    + apply orb_false_iff in Esave as [Hmod Hend].
      apply Nat.eqb_neq in Hmod, Hend.
      apply (IH (S i) _ _ k0).
      * done.
      * cbn [length] in Hn. lia.
      * assert ((S i) / 10 = i / 10)%nat as ->; [|done].
        pose proof (Nat.div_mod i 10). pose proof (Nat.mod_upper_bound i 10).
        pose proof (Nat.div_mod (S i) 10). pose proof (Nat.mod_upper_bound (S i) 10).
        replace (i + 1)%nat with (S i) in Hmod by lia. lia.
      * lia.
      * intros ->. cbn [length] in Hn. lia.
      * rewrite take_app_le by lia. done.
      * done.
Qed.

(** X7: the matching of [mapping_script2.py] saves every tenth mapping and
    the last one, so fewer than ten returned mappings can be missing from the
    disk.  Whatever the moments at which an interruption is seen, there is a
    prefix of the returned mappings, at most nine shorter than the whole,
    which the table, the checkpoint file and the checkpoint dictionary hold
    exactly (nothing was written when that prefix is empty); the cache, its
    file and the network were left alone; and when no interruption is seen
    at the top of an iteration, the prefix is the whole result. *)
Theorem script2_matching_loses_under_ten (scorer : string → string → Z)
  (goldstock_companies : list GoldstockCompany.t)
  (known_mappings : gmap Z Known.t) (interrupted : nat → bool)
  (companies : list Company.t) (w : world) :
  let r := Script2.perform_matching scorer goldstock_companies known_mappings
             interrupted companies w in
  ∃ k, (k ≤ length r.1)%nat ∧ (length r.1 < k + 10)%nat
       ∧ persisted (take k r.1) w r.2 ∧ matching_frame w r.2
       ∧ ((∀ j, interrupted (2 * j)%nat = false) → k = length r.1).
Proof.
  unfold Script2.perform_matching.
  destruct goldstock_companies as [|g gss] eqn:E.
  { exists 0%nat. cbn [fst snd length].
    refine (conj _ (conj _ (conj _ (conj _ _)))); [lia | lia | done | done | done]. }
  rewrite <- E.
  apply (script2_loop_persisted _ _ _ _ _ 0 companies [] w w 0);
    [done | done | cbn; lia | lia | done | done | done].
Qed.

(** ** The fetcher *)

Lemma cache_key_inj g1 g2 : cache_key g1 = cache_key g2 → g1 = g2.
Proof.
  unfold cache_key. cbn [String.append]. intros [= H]. by apply (inj pretty).
Qed.

Lemma uncached_true c g : uncached c g = true ↔ c !! cache_key g = None.
Proof. unfold uncached. by rewrite bool_decide_eq_true. Qed.

Lemma uncached_false c g : uncached c g = false ↔ is_Some (c !! cache_key g).
Proof.
  unfold uncached. by rewrite bool_decide_eq_false, <- not_eq_None_Some.
Qed.

Section FetchAll.

Variable fetch : Z → world → option GoldstockCompany.t * world.
Variable failed : Z → bool.

Hypothesis fetch_hit : ∀ g w v,
  cache w !! cache_key g = Some v → fetch g w = (v, w).
Hypothesis fetch_miss : ∀ g w,
  cache w !! cache_key g = None →
  requests (fetch g w).2 = requests w ++ [g]
  ∧ uncached (cache (fetch g w).2) g = failed g.
Hypothesis fetch_other : ∀ g g' w,
  g' ≠ g → cache (fetch g w).2 !! cache_key g' = cache w !! cache_key g'.
Hypothesis fetch_local : ∀ g w w',
  cache w !! cache_key g = cache w' !! cache_key g →
  (fetch g w).1 = (fetch g w').1.

Lemma fetch_all_spec ids acc w :
  NoDup ids →
  let r := fold_left (λ '(companies, w) gid,
                        match fetch gid w with
                        | (Some result, w') => (companies ++ [result], w')
                        | (None, w') => (companies, w')
                        end) ids (acc, w) in
  r.1 = acc ++ omap (λ g, (fetch g w).1) ids
  ∧ requests r.2 = requests w ++ List.filter (uncached (cache w)) ids
  ∧ (∀ g, g ∉ ids → cache r.2 !! cache_key g = cache w !! cache_key g)
  ∧ (∀ g, g ∈ ids →
          uncached (cache r.2) g = uncached (cache w) g && failed g).
Proof.
  revert acc w. induction ids as [|g0 ids IH]; intros acc w Hnd;
    cbn [fold_left omap list_omap List.filter].
  { cbn [fst snd]. rewrite !app_nil_r.
    split_and!; [done | done | done |]. by intros g ?%elem_of_nil. }
  apply NoDup_cons in Hnd as [Hg0 Hnd].
  set (w1 := (fetch g0 w).2).
  assert (requests w1
          = requests w ++ (if uncached (cache w) g0 then [g0] else [])
          ∧ uncached (cache w1) g0 = uncached (cache w) g0 && failed g0)
    as [Hreq Hself].
  { subst w1. destruct (cache w !! cache_key g0) as [v|] eqn:E.
    - rewrite (fetch_hit _ _ _ E). cbn [snd].
      assert (uncached (cache w) g0 = false) as ->
        by (apply uncached_false; by rewrite E).
      by rewrite app_nil_r.
    - destruct (fetch_miss _ _ E) as [-> ->].
      apply uncached_true in E. by rewrite E. }
  assert (∀ g, g ≠ g0 → cache w1 !! cache_key g = cache w !! cache_key g)
    as Hother by (intros g Hg; by apply fetch_other).
  assert (∀ g, g ≠ g0 → uncached (cache w1) g = uncached (cache w) g)
    as Hother'.
  { intros g Hg. unfold uncached. by rewrite Hother. }
  assert (omap (λ g, (fetch g w1).1) ids = omap (λ g, (fetch g w).1) ids
          ∧ List.filter (uncached (cache w1)) ids
            = List.filter (uncached (cache w)) ids) as [Hres Hfil].
  { clear IH Hnd. induction ids as [|g ids IH']; [done|].
    apply not_elem_of_cons in Hg0 as [Hne Hg0].
    destruct (IH' Hg0) as [IH1 IH2]. cbn [omap list_omap List.filter].
    rewrite IH1, IH2, (Hother' g) by done.
    by rewrite (fetch_local g w1 w) by (by apply Hother). }
  assert (∃ r0 acc', fetch g0 w = (r0, w1)
            ∧ acc' = acc ++ match r0 with Some r => [r] | None => [] end
            ∧ match fetch g0 w with
              | (Some result, w') => (acc ++ [result], w')
              | (None, w') => (acc, w')
              end = (acc', w1)) as (r0 & acc' & E0 & Eacc & ->).
  { subst w1. destruct (fetch g0 w) as [[r|] w']; eexists _, _;
      (split; [done|]); (split; [done|]); cbn [snd]; by rewrite ?app_nil_r. }
  subst acc'.
  destruct (IH (acc ++ match r0 with Some r => [r] | None => [] end) w1 Hnd)
    as (H1 & H2 & H3 & H4).
  cbn zeta. rewrite H1, H2, Hres, Hfil, Hreq, E0. cbn [fst].
  split_and!.
  - destruct r0; cbn [option_bind mbind]; by rewrite <- ?app_assoc.
  - rewrite <- app_assoc. by destruct (uncached (cache w) g0).
  - intros g [Hne Hg]%not_elem_of_cons. rewrite H3 by done. by apply Hother.
  - intros g [->|Hg]%elem_of_cons.
    + unfold uncached at 1. rewrite H3 by done. exact Hself.
    + rewrite H4 by done. rewrite Hother'; [done|]. by intros ->.
Qed.

End FetchAll.

Lemma cache_save_cache_periodically w :
  cache (save_cache_periodically w) = cache w.
Proof. apply save_cache_periodically_frame. Qed.

Lemma requests_save_cache_periodically w :
  requests (save_cache_periodically w) = requests w.
Proof. apply save_cache_periodically_frame. Qed.

Lemma uncached_insert c g v : uncached (<[cache_key g := v]> c) g = false.
Proof. apply uncached_false. by rewrite lookup_insert_eq. Qed.

Lemma script1_fetch_miss web g w :
  cache w !! cache_key g = None →
  requests (Script1.fetch_company_by_id web g w).2 = requests w ++ [g]
  ∧ uncached (cache (Script1.fetch_company_by_id web g w).2) g = fails web g.
Proof.
  intros E. unfold Script1.fetch_company_by_id, fails. rewrite E.
  destruct (web g); cbn [snd];
    rewrite ?cache_save_cache_periodically, ?requests_save_cache_periodically;
    cbn [cache requests set_cache add_request]; rewrite ?uncached_insert;
    (split; [done|]); [done | done | done |].
  by apply uncached_true.
Qed.

Lemma script2_fetch_miss web g w :
  cache w !! cache_key g = None →
  requests (Script2.fetch_company_by_id web g w).2 = requests w ++ [g]
  ∧ uncached (cache (Script2.fetch_company_by_id web g w).2) g = fails web g.
Proof.
  intros E. unfold Script2.fetch_company_by_id, fails. rewrite E.
  destruct (web g); cbn [snd];
    rewrite ?cache_save_cache_periodically, ?requests_save_cache_periodically;
    cbn [cache requests set_cache add_request]; rewrite ?uncached_insert;
    (split; [done|]); [done | done | done |].
  by apply uncached_true.
Qed.

Lemma script1_fetch_other web g g' w :
  g' ≠ g →
  cache (Script1.fetch_company_by_id web g w).2 !! cache_key g'
  = cache w !! cache_key g'.
Proof.
  intros Hne. unfold Script1.fetch_company_by_id.
  assert (cache_key g ≠ cache_key g') as Hk
    by (intros H%cache_key_inj; congruence).
  destruct (cache w !! cache_key g); [done|].
  destruct (web g); cbn [snd];
    rewrite ?cache_save_cache_periodically;
    cbn [cache set_cache add_request]; by rewrite ?lookup_insert_ne.
Qed.

Lemma script2_fetch_other web g g' w :
  g' ≠ g →
  cache (Script2.fetch_company_by_id web g w).2 !! cache_key g'
  = cache w !! cache_key g'.
Proof.
  intros Hne. unfold Script2.fetch_company_by_id.
  assert (cache_key g ≠ cache_key g') as Hk
    by (intros H%cache_key_inj; congruence).
  destruct (cache w !! cache_key g); [done|].
  destruct (web g); cbn [snd];
    rewrite ?cache_save_cache_periodically;
    cbn [cache set_cache add_request]; by rewrite ?lookup_insert_ne.
Qed.

Lemma script1_fetch_local web g w w' :
  cache w !! cache_key g = cache w' !! cache_key g →
  (Script1.fetch_company_by_id web g w).1
  = (Script1.fetch_company_by_id web g w').1.
Proof.
  intros E. unfold Script1.fetch_company_by_id. rewrite <- E.
  destruct (cache w !! cache_key g); [done|]. by destruct (web g).
Qed.

Lemma script2_fetch_local web g w w' :
  cache w !! cache_key g = cache w' !! cache_key g →
  (Script2.fetch_company_by_id web g w).1
  = (Script2.fetch_company_by_id web g w').1.
Proof.
  intros E. unfold Script2.fetch_company_by_id. rewrite <- E.
  destruct (cache w !! cache_key g); [done|]. by destruct (web g).
Qed.

Lemma script1_fetch_parallel_spec web start_id max_id w :
  let ids := seqZ start_id (max_id + 1 - start_id) in
  let r := Script1.fetch_companies_parallel web start_id max_id w in
  r.1 = omap (λ g, (Script1.fetch_company_by_id web g w).1) ids
  ∧ requests r.2 = requests w ++ List.filter (uncached (cache w)) ids
  ∧ (∀ g, g ∉ ids → cache r.2 !! cache_key g = cache w !! cache_key g)
  ∧ (∀ g, g ∈ ids →
          uncached (cache r.2) g = uncached (cache w) g && fails web g).
Proof.
  apply (fetch_all_spec (Script1.fetch_company_by_id web) (fails web)
           (script1_fetch_cached web) (script1_fetch_miss web)
           (script1_fetch_other web) (script1_fetch_local web) _ [] w).
  apply NoDup_seqZ.
Qed.

Lemma script2_fetch_parallel_spec web start_id max_id w :
  let ids := seqZ start_id (max_id + 1 - start_id) in
  let r := Script2.fetch_companies_parallel web start_id max_id w in
  r.1 = omap (λ g, (Script2.fetch_company_by_id web g w).1) ids
  ∧ requests r.2 = requests w ++ List.filter (uncached (cache w)) ids
  ∧ (∀ g, g ∉ ids → cache r.2 !! cache_key g = cache w !! cache_key g)
  ∧ (∀ g, g ∈ ids →
          uncached (cache r.2) g = uncached (cache w) g && fails web g).
Proof.
  apply (fetch_all_spec (Script2.fetch_company_by_id web) (fails web)
           (script2_fetch_cached web) (script2_fetch_miss web)
           (script2_fetch_other web) (script2_fetch_local web) _ [] w).
  apply NoDup_seqZ.
Qed.

(** X8: [fetch_companies_parallel], its pool run one task after the other
    in the order of the IDs, sends one request for each ID of
    [start_id .. max_id] that the cache does not hold when it starts, and no
    other request: a cached ID, be it cached with a record or as absent, is
    never requested, and no ID is requested twice. *)
Theorem fetch_requests_the_uncached (web : Z → response) (start_id max_id : Z)
  (w : world) :
  let ids := seqZ start_id (max_id + 1 - start_id) in
  requests (Script1.fetch_companies_parallel web start_id max_id w).2
  = requests w ++ List.filter (uncached (cache w)) ids
  ∧ requests (Script2.fetch_companies_parallel web start_id max_id w).2
    = requests w ++ List.filter (uncached (cache w)) ids.
Proof.
  split.
  - apply script1_fetch_parallel_spec.
  - apply script2_fetch_parallel_spec.
Qed.


(** X10: after a pass of [fetch_companies_parallel] the cache in memory
    answers for every ID of the range except those whose request failed: an
    ID of the range is missing from the cache afterwards exactly when it was
    missing before and its request failed.  The entries of the IDs outside
    the range are as before. *)
Theorem fetch_caches_all_but_failures (web : Z → response) (start_id max_id : Z)
  (w : world) (g : Z) :
  let w1 := (Script1.fetch_companies_parallel web start_id max_id w).2 in
  let w2 := (Script2.fetch_companies_parallel web start_id max_id w).2 in
  (start_id ≤ g ≤ max_id →
   uncached (cache w1) g = uncached (cache w) g && fails web g
   ∧ uncached (cache w2) g = uncached (cache w) g && fails web g)
  ∧ (¬ start_id ≤ g ≤ max_id →
     cache w1 !! cache_key g = cache w !! cache_key g
     ∧ cache w2 !! cache_key g = cache w !! cache_key g).
Proof.
  intros w1 w2.
  destruct (script1_fetch_parallel_spec web start_id max_id w)
    as (_ & _ & A3 & A4).
  destruct (script2_fetch_parallel_spec web start_id max_id w)
    as (_ & _ & B3 & B4).
  split; intros Hg.
  - assert (g ∈ seqZ start_id (max_id + 1 - start_id)) as Hin
      by (apply elem_of_seqZ; lia).
    split; [by apply A4 | by apply B4].
  - assert (g ∉ seqZ start_id (max_id + 1 - start_id)) as Hout
      by (rewrite elem_of_seqZ; lia).
    split; [by apply A3 | by apply B3].
Qed.

Lemma script1_fetch_again web web' g w :
  fails web g = false →
  Script1.fetch_company_by_id web' g (Script1.fetch_company_by_id web g w).2
  = Script1.fetch_company_by_id web g w.
Proof.
  intros Hok. destruct (cache w !! cache_key g) as [v|] eqn:E.
  { rewrite (script1_fetch_cached web g w v E). cbn [snd].
    by apply script1_fetch_cached. }
  unfold Script1.fetch_company_by_id at 2 3. unfold fails in Hok. rewrite E.
  destruct (web g); [| | |done]; cbn [snd fst].
  all: unfold Script1.fetch_company_by_id;
    rewrite ?cache_save_cache_periodically; cbn [cache set_cache add_request];
    by rewrite lookup_insert_eq.
Qed.

Lemma script2_fetch_again web web' g w :
  fails web g = false →
  Script2.fetch_company_by_id web' g (Script2.fetch_company_by_id web g w).2
  = Script2.fetch_company_by_id web g w.
Proof.
  intros Hok. destruct (cache w !! cache_key g) as [v|] eqn:E.
  { rewrite (script2_fetch_cached web g w v E). cbn [snd].
    by apply script2_fetch_cached. }
  unfold Script2.fetch_company_by_id at 2 3. unfold fails in Hok. rewrite E.
  destruct (web g); [| | |done]; cbn [snd fst].
  all: unfold Script2.fetch_company_by_id;
    rewrite ?cache_save_cache_periodically; cbn [cache set_cache add_request];
    by rewrite lookup_insert_eq.
Qed.

(** X22: an answered fetch is remembered.  Once [fetch_company_by_id] has
    returned for an ID whose request did not fail, be it with a record or
    with nothing, fetching the same ID again returns the same result without
    any request and changes nothing, whatever the site would answer by then. *)
Theorem fetch_is_memoised (web web' : Z → response) (goldstock_id : Z)
  (w : world) :
  fails web goldstock_id = false →
  Script1.fetch_company_by_id web' goldstock_id
    (Script1.fetch_company_by_id web goldstock_id w).2
  = Script1.fetch_company_by_id web goldstock_id w
  ∧ Script2.fetch_company_by_id web' goldstock_id
      (Script2.fetch_company_by_id web goldstock_id w).2
    = Script2.fetch_company_by_id web goldstock_id w.
Proof.
  intros Hok. split; [by apply script1_fetch_again | by apply script2_fetch_again].
Qed.

(** ** The drivers *)

Lemma script1_fetch_files web g w :
  let w' := (Script1.fetch_company_by_id web g w).2 in
  checkpoint w' = checkpoint w ∧ CHECKPOINT_FILE w' = CHECKPOINT_FILE w
  ∧ OUTPUT_FILE w' = OUTPUT_FILE w.
Proof.
  unfold Script1.fetch_company_by_id.
  destruct (cache w !! cache_key g); [done|].
  destruct (web g); cbn [snd]; try done;
    by destruct (save_cache_periodically_frame
                   (set_cache (insert (cache_key g) None) (add_request g w)))
      as (-> & -> & -> & _) ||
    match goal with
    | |- context [save_cache_periodically ?w0] =>
        by destruct (save_cache_periodically_frame w0) as (-> & -> & -> & _)
    end.
Qed.

Lemma script1_fetch_all_files web ids acc w :
  let w' := (fold_left (λ '(companies, w) gid,
                          match Script1.fetch_company_by_id web gid w with
                          | (Some result, w') => (companies ++ [result], w')
                          | (None, w') => (companies, w')
                          end) ids (acc, w)).2 in
  checkpoint w' = checkpoint w ∧ CHECKPOINT_FILE w' = CHECKPOINT_FILE w
  ∧ OUTPUT_FILE w' = OUTPUT_FILE w.
Proof.
  revert acc w.
  induction ids as [|g ids IH]; intros acc w; cbn [fold_left]; [done|].
  destruct (script1_fetch_files web g w) as (H1 & H2 & H3).
  destruct (Script1.fetch_company_by_id web g w) as [[r|] w1];
    cbn [snd] in *; rewrite <- H1, <- H2, <- H3; apply IH.
Qed.

Lemma script1_fetch_parallel_files web start_id max_id w :
  let w' := (Script1.fetch_companies_parallel web start_id max_id w).2 in
  checkpoint w' = checkpoint w ∧ CHECKPOINT_FILE w' = CHECKPOINT_FILE w
  ∧ OUTPUT_FILE w' = OUTPUT_FILE w.
Proof. apply script1_fetch_all_files. Qed.

Lemma script2_fetch_parallel_files web start_id max_id w :
  let w' := (Script2.fetch_companies_parallel web start_id max_id w).2 in
  checkpoint w' = checkpoint w ∧ CHECKPOINT_FILE w' = CHECKPOINT_FILE w
  ∧ OUTPUT_FILE w' = OUTPUT_FILE w.
Proof.
  destruct (script2_fetch_parallel_frame web start_id max_id w)
    as (H1 & H2 & H3 & _). done.
Qed.

Lemma script1_CompanyMatcher_returns w :
  ∃ c k, Script1.CompanyMatcher w
         = Returns (set_checkpoint k (set_cache (λ _, c) w))
         ∧ load_cache (CACHE_FILE w) = Returns c
         ∧ load_checkpoint (CHECKPOINT_FILE w) = Returns k.
Proof.
  unfold Script1.CompanyMatcher.
  destruct (CACHE_FILE w) as [|[e|c]], (CHECKPOINT_FILE w) as [|[e'|k]];
    cbn [load_cache load_checkpoint json_load try_except]; eauto.
Qed.

Lemma script2_CompanyMatcher_returns w :
  ∃ c k, Script2.CompanyMatcher w
         = Returns (set_checkpoint k (set_cache (λ _, c) w))
         ∧ load_cache (CACHE_FILE w) = Returns c
         ∧ load_checkpoint (CHECKPOINT_FILE w) = Returns k.
Proof.
  unfold Script2.CompanyMatcher.
  destruct (CACHE_FILE w) as [|[e|c]], (CHECKPOINT_FILE w) as [|[e'|k]];
    cbn [load_cache load_checkpoint json_load try_except]; eauto.
Qed.

Lemma script1_matching_all scorer gss known companies w :
  (Script1.perform_matching scorer gss known (λ _, false) companies w).1
  = map (Script1.match_company scorer gss known) companies.
Proof.
  destruct (script1_emits scorer gss known (λ _, false) companies w)
    as (n & _ & -> & Hn).
  rewrite Hn by done. by rewrite firstn_all.
Qed.

Lemma script2_matching_all scorer gss known companies w :
  gss ≠ [] →
  (Script2.perform_matching scorer gss known (λ _, false) companies w).1
  = map (Script2.match_company scorer gss known) companies.
Proof.
  intros Hne.
  destruct (script2_emits scorer gss known (λ _, false) companies w)
    as (n & _ & -> & Hn).
  rewrite Hn by done. by rewrite firstn_all.
Qed.

Lemma filter_all_in {A} (f : A → bool) l :
  (∀ x, x ∈ l → f x = true) → List.filter f l = l.
Proof.
  induction l as [|x l IH]; cbn [List.filter]; [done|]. intros H.
  rewrite (H x) by left. f_equal. apply IH. intros y Hy. apply H. by right.
Qed.

Ltac world_fields :=
  cbn [exists_ save_cache save_checkpoint save_mappings set_CACHE_FILE
       set_CHECKPOINT_FILE set_checkpoint set_OUTPUT_FILE set_cache add_request
       CHECKPOINT_FILE CACHE_FILE OUTPUT_FILE cache checkpoint requests].

Lemma match_nonempty {A B} (l : list A) (x y : B) :
  l ≠ [] → match l with [] => x | _ :: _ => y end = y.
Proof. by destruct l. Qed.

Lemma resume_step (res : bool) (k : Checkpoint.t) (all : list Company.t) :
  match res, Checkpoint.processed_ids k with
  | true, _ :: _ =>
      List.filter
        (λ c, negb (bool_decide
                      (Company.company_id c
                       ∈ (list_to_set (Checkpoint.processed_ids k) : gset Z))))
        all
  | _, _ => all
  end = remaining res k all.
Proof.
  unfold remaining. destruct res; [|by destruct (Checkpoint.processed_ids k)].
  destruct (Checkpoint.processed_ids k) as [|p ps] eqn:E.
  - symmetry. apply filter_all_in. intros x _.
    apply negb_true_iff, bool_decide_eq_false. by intros ?%elem_of_nil.
  - generalize (p :: ps). intros ids.
    induction all as [|c cs IH]; cbn [List.filter]; [done|].
    rewrite IH.
    assert (bool_decide (Company.company_id c ∈ (list_to_set ids : gset Z))
            = bool_decide (Company.company_id c ∈ ids)) as ->; [|done].
    apply bool_decide_ext. apply elem_of_list_to_set.
Qed.

Lemma script2_main_spec scorer a JSON_FILE web w :
  let w_c := if clear_cache a
             then set_CHECKPOINT_FILE Absent (set_CACHE_FILE Absent w) else w in
  ∃ c k,
    load_cache (CACHE_FILE w_c) = Returns c
    ∧ load_checkpoint (CHECKPOINT_FILE w_c) = Returns k
    ∧ let w0 := set_checkpoint k (set_cache (λ _, c) w_c) in
      let all := Script2.load_companies (limit a) JSON_FILE in
      let f := Script2.fetch_companies_parallel web 1 (max_id a) w0 in
      let new := map (Script2.match_company scorer f.1 Script2.known_mappings)
                     (remaining (resume a) k all) in
      let rows := rows_written (resume a) (Checkpoint.mappings k) new in
      let run := Script2.main scorer a JSON_FILE web w in
      (all = [] → run = (Exited 1, w0))
      ∧ (all ≠ [] → f.1 = [] → run = (Exited 1, f.2))
      ∧ (all ≠ [] → f.1 ≠ [] →
         OUTPUT_FILE run.2 = Some rows
         ∧ cache run.2 = cache f.2 ∧ requests run.2 = requests f.2
         ∧ CACHE_FILE run.2 = Present (Parses (cache f.2))
         ∧ (rows = [] → run.1 = Crashed ZeroDivisionError)
         ∧ (rows ≠ [] → run.1 = Exited 0 ∧ CHECKPOINT_FILE run.2 = Absent)).
Proof.
  intros w_c.
  destruct (script2_CompanyMatcher_returns w_c) as (c & k & Hinit & Hc & Hk).
  exists c, k. split; [done|]. split; [done|].
  intros w0 all f new rows run.
  unfold run, Script2.main. fold w_c. rewrite Hinit. fold w0 all.
  destruct (decide (all = [])) as [Eall|Eall].
  { rewrite Eall. by split_and!. }
  rewrite (match_nonempty all) by done.
  replace (checkpoint w0) with k by done.
  rewrite (resume_step (resume a) k all).
  fold f.
  destruct (script2_fetch_parallel_files web 1 (max_id a) w0) as (F1 & F2 & F3).
  fold f in F1, F2, F3.
  split; [done|].
  destruct (decide (f.1 = [])) as [Ef|Ef].
  { destruct f as [gss w2]. cbn [fst snd] in *. subst gss. by split. }
  split; [done|]. intros _ _.
  pose proof (script2_matching_all scorer f.1 Script2.known_mappings
                (remaining (resume a) k all) f.2 Ef) as Hms.
  fold new in Hms.
  pose proof (script2_loop_persisted scorer f.1 Script2.known_mappings
              (λ _, false) (length (remaining (resume a) k all)) 0
              (remaining (resume a) k all) [] f.2 f.2 0 eq_refl eq_refl)
    as Hloop.
  destruct Hloop as (n & _ & _ & Hp & Hf & Hn);
    [cbn; lia | lia | done | done | done |].
  unfold Script2.perform_matching in *.
  rewrite (match_nonempty f.1) in Hms by done.
  destruct f as [gss w2]. cbn [fst snd] in *.
  destruct (Script2.matching_loop _ _ _ _ _ _ _ _ _) as [ms w3].
  cbn [fst snd] in *. subst ms.
  replace (match gss with [] => ([], w2) | _ :: _ => (new, w3) end)
    with (new, w3) by (by destruct gss). rewrite Hn, firstn_all in Hp by done.
  destruct Hf as (Hf1 & Hf2 & Hf3).
  assert ((if resume a
           then match Checkpoint.mappings (checkpoint w3) with
                | [] => new
                | _ :: _ => Checkpoint.mappings (checkpoint w3) ++ new
                end
           else new) = rows) as ->.
  { unfold rows, rows_written. destruct (resume a); [|done].
    destruct new as [|m ms] eqn:Enew.
    - destruct Hp as (_ & _ & ->). rewrite F1. cbn [checkpoint set_checkpoint w0].
      destruct (Checkpoint.mappings k); [done | by rewrite app_nil_r].
    - destruct Hp as (_ & _ & ->). done. }
  rewrite (match_nonempty gss) by done.
  destruct rows as [|r rs] eqn:Erows; cbn [fst snd].
  - split_and!; [done | done | done | by rewrite <- Hf1 | done | done].
  - cbn [exists_ save_cache save_checkpoint save_mappings set_CACHE_FILE
         set_CHECKPOINT_FILE set_checkpoint set_OUTPUT_FILE CHECKPOINT_FILE
         CACHE_FILE OUTPUT_FILE cache checkpoint requests].
    split_and!; [done | done | done | by rewrite <- Hf1 | done | done].
Qed.

Lemma script1_main_spec scorer a JSON_FILE web w :
  let w_c := if clear_cache a && exists_ (CACHE_FILE w)
             then set_CACHE_FILE Absent w else w in
  ∃ c k,
    load_cache (CACHE_FILE w_c) = Returns c
    ∧ load_checkpoint (CHECKPOINT_FILE w_c) = Returns k
    ∧ let w0 := set_checkpoint k (set_cache (λ _, c) w_c) in
      let all := Script1.load_companies (limit a) JSON_FILE in
      let f := Script1.fetch_companies_parallel web 1 (max_id a) w0 in
      let new := map (Script1.match_company scorer f.1 Script1.known_mappings)
                     (remaining (resume a) k all) in
      let rows := rows_written (resume a) [] new in
      let run := Script1.main scorer a JSON_FILE web w in
      (all = [] → run = (Completed, w0))
      ∧ (all ≠ [] → f.1 = [] → run = (Completed, f.2))
      ∧ (all ≠ [] → f.1 ≠ [] →
         OUTPUT_FILE run.2 = Some rows
         ∧ cache run.2 = cache f.2 ∧ requests run.2 = requests f.2
         ∧ CACHE_FILE run.2 = CACHE_FILE f.2
         ∧ (rows = [] → run.1 = Crashed ZeroDivisionError)
         ∧ (rows ≠ [] → run.1 = Completed ∧ CHECKPOINT_FILE run.2 = Absent)).
Proof.
  intros w_c.
  destruct (script1_CompanyMatcher_returns w_c) as (c & k & Hinit & Hc & Hk).
  exists c, k. split; [done|]. split; [done|].
  intros w0 all f new rows run.
  unfold run, Script1.main. fold w_c. rewrite Hinit. fold w0 all.
  destruct (decide (all = [])) as [Eall|Eall].
  { rewrite Eall. by split_and!. }
  rewrite (match_nonempty all) by done.
  replace (checkpoint w0) with k by done.
  rewrite (resume_step (resume a) k all).
  fold f.
  split; [done|].
  destruct (decide (f.1 = [])) as [Ef|Ef].
  { destruct f as [gss w2]. cbn [fst snd] in *. subst gss. by split. }
  split; [done|]. intros _ _.
  pose proof (script1_matching_all scorer f.1 Script1.known_mappings
                (remaining (resume a) k all) f.2) as Hms.
  fold new in Hms.
  pose proof (script1_loop_frame scorer f.1 Script1.known_mappings (λ _, false)
                0 (remaining (resume a) k all) [] f.2 f.2
                (matching_frame_refl _)) as (Hf1 & Hf2 & Hf3).
  unfold Script1.perform_matching in *.
  destruct f as [gss w2]. cbn [fst snd] in *.
  destruct (Script1.matching_loop _ _ _ _ _ _ _ _) as [ms w3].
  cbn [fst snd] in *. subst ms.
  rewrite (match_nonempty gss) by done.
  world_fields. cbn [Checkpoint.mappings].
  assert ((if resume a
           then match new with [] => new | _ :: _ => new ++ new end
           else new) = rows) as ->.
  { unfold rows, rows_written. destruct (resume a); [|done]. by destruct new. }
  destruct rows as [|r rs] eqn:Erows; cbn [fst snd]; world_fields;
    split_and!; done.
Qed.

(** ** Whole runs *)

Lemma load_cache_starting (f : file Cache) :
  load_cache f = Returns (starting_cache false f).
Proof. by destruct f as [|[e|c]]. Qed.

Lemma filter_uncached_empty ids : List.filter (uncached ∅) ids = ids.
Proof. apply filter_all_in. intros g _. by apply uncached_true. Qed.




Lemma script2_start_cache a w c :
  load_cache (CACHE_FILE (if clear_cache a
                          then set_CHECKPOINT_FILE Absent (set_CACHE_FILE Absent w)
                          else w)) = Returns c →
  c = starting_cache (clear_cache a) (CACHE_FILE w).
Proof.
  unfold starting_cache. destruct w as [ca ck cf kf o r].
  destruct (clear_cache a), cf as [|[e|c']];
    cbn [CACHE_FILE set_CACHE_FILE set_CHECKPOINT_FILE load_cache json_load
         try_except];
    congruence.
Qed.


Lemma script2_run_requests_exact scorer a JSON_FILE web w :
  requests (Script2.main scorer a JSON_FILE web w).2
  = requests w
    ++ match Script2.load_companies (limit a) JSON_FILE with
       | [] => []
       | _ :: _ =>
           List.filter (uncached (starting_cache (clear_cache a) (CACHE_FILE w)))
                       (seqZ 1 (max_id a + 1 - 1))
       end.
Proof.
  destruct (script2_main_spec scorer a JSON_FILE web w)
    as (c & k & Hc & Hk & H1 & H2 & H3).
  apply script2_start_cache in Hc.
  match type of H2 with
  | _ → (Script2.fetch_companies_parallel web 1 (max_id a) ?w0).1 = [] → _ =>
      destruct (script2_fetch_parallel_spec web 1 (max_id a) w0)
        as (_ & Hreq & _)
  end.
  cbn [requests set_checkpoint set_cache cache] in Hreq. rewrite <- Hc.
  assert (∀ w' : world, requests w'
          = requests (if clear_cache a
                      then set_CHECKPOINT_FILE Absent (set_CACHE_FILE Absent w)
                      else w)
        → requests w' = requests w) as Hw
    by (intros w' ->; by destruct (clear_cache a)).
  rewrite (Hw _ eq_refl) in Hreq.
  destruct (Script2.load_companies (limit a) JSON_FILE) as [|c1 cs] eqn:Eall.
  { rewrite H1 by done. cbn [snd]. world_fields. rewrite app_nil_r.
    by apply Hw. }
  destruct (decide ((Script2.fetch_companies_parallel web 1 (max_id a)
              (set_checkpoint k (set_cache (λ _, c)
                 (if clear_cache a
                  then set_CHECKPOINT_FILE Absent (set_CACHE_FILE Absent w)
                  else w)))).1 = [])) as [E|E].
  - rewrite H2 by done. exact Hreq.
  - destruct (H3 ltac:(done) E) as (_ & _ & -> & _). exact Hreq.
Qed.


Lemma script1_start_files a w :
  let w_c := if clear_cache a && exists_ (CACHE_FILE w)
             then set_CACHE_FILE Absent w else w in
  OUTPUT_FILE w_c = OUTPUT_FILE w ∧ CHECKPOINT_FILE w_c = CHECKPOINT_FILE w.
Proof. by destruct (_ && _). Qed.

Lemma script2_start_files a w :
  let w_c := if clear_cache a
             then set_CHECKPOINT_FILE Absent (set_CACHE_FILE Absent w) else w in
  OUTPUT_FILE w_c = OUTPUT_FILE w
  ∧ (clear_cache a = false → CHECKPOINT_FILE w_c = CHECKPOINT_FILE w).
Proof. by destruct (clear_cache a). Qed.

Lemma map_nonempty {A B} (f : A → B) l : l ≠ [] → map f l ≠ [].
Proof. by destruct l. Qed.

Lemma script1_plain_run scorer a JSON_FILE web w :
  resume a = false →
  let run := Script1.main scorer a JSON_FILE web w in
  let all := Script1.load_companies (limit a) JSON_FILE in
  run.1 = Completed
  ∧ (OUTPUT_FILE w = None → ∀ rows, OUTPUT_FILE run.2 = Some rows →
     ∃ gss, gss ≠ []
       ∧ rows = map (Script1.match_company scorer gss Script1.known_mappings) all).
Proof.
  intros Hres run all.
  destruct (script1_main_spec scorer a JSON_FILE web w)
    as (c1 & k1 & _ & _ & A1 & A2 & A3).
  fold run all in A1, A2, A3.
  rewrite Hres in A3. unfold rows_written, remaining in A3.
  destruct (script1_start_files a w) as [S1 _].
  match type of A2 with
  | _ → (Script1.fetch_companies_parallel web 1 (max_id a) ?w0).1 = [] → _ =>
      destruct (script1_fetch_parallel_files web 1 (max_id a) w0) as (_ & _ & F1);
      set (f1 := Script1.fetch_companies_parallel web 1 (max_id a) w0) in *
  end.
  cbn [OUTPUT_FILE set_checkpoint set_cache] in F1. rewrite S1 in F1.
  split.
  - destruct (decide (all = [])) as [E|E]; [by rewrite A1|].
    destruct (decide (f1.1 = [])) as [E'|E']; [by rewrite A2|].
    destruct (A3 E E') as (_ & _ & _ & _ & _ & H).
    apply H. by apply map_nonempty.
  - intros Hout rows Hrows.
    destruct (decide (all = [])) as [E|E].
    { rewrite A1 in Hrows by done. cbn [snd OUTPUT_FILE set_checkpoint set_cache]
        in Hrows. congruence. }
    destruct (decide (f1.1 = [])) as [E'|E'].
    { rewrite A2 in Hrows by done. cbn [snd] in Hrows. congruence. }
    destruct (A3 E E') as (H & _).
    exists f1.1. split; [done | congruence].
Qed.

Lemma script2_plain_run scorer a JSON_FILE web w :
  resume a = false →
  let run := Script2.main scorer a JSON_FILE web w in
  let all := Script2.load_companies (limit a) JSON_FILE in
  (run.1 = Exited 0 ∨ run.1 = Exited 1)
  ∧ (OUTPUT_FILE w = None → ∀ rows, OUTPUT_FILE run.2 = Some rows →
     ∃ gss, gss ≠ []
       ∧ rows = map (Script2.match_company scorer gss Script2.known_mappings) all).
Proof.
  intros Hres run all.
  destruct (script2_main_spec scorer a JSON_FILE web w)
    as (c2 & k2 & _ & _ & B1 & B2 & B3).
  fold run all in B1, B2, B3.
  rewrite Hres in B3. unfold rows_written, remaining in B3.
  destruct (script2_start_files a w) as [S2 _].
  match type of B2 with
  | _ → (Script2.fetch_companies_parallel web 1 (max_id a) ?w0).1 = [] → _ =>
      destruct (script2_fetch_parallel_files web 1 (max_id a) w0) as (_ & _ & F2);
      set (f2 := Script2.fetch_companies_parallel web 1 (max_id a) w0) in *
  end.
  cbn [OUTPUT_FILE set_checkpoint set_cache] in F2. rewrite S2 in F2.
  split.
  - destruct (decide (all = [])) as [E|E]; [right; by rewrite B1|].
    destruct (decide (f2.1 = [])) as [E'|E']; [right; by rewrite B2|].
    destruct (B3 E E') as (_ & _ & _ & _ & _ & H).
    left. apply H. by apply map_nonempty.
  - intros Hout rows Hrows.
    destruct (decide (all = [])) as [E|E].
    { rewrite B1 in Hrows by done. cbn [snd OUTPUT_FILE set_checkpoint set_cache]
        in Hrows. congruence. }
    destruct (decide (f2.1 = [])) as [E'|E'].
    { rewrite B2 in Hrows by done. cbn [snd] in Hrows. congruence. }
    destruct (B3 E E') as (H & _).
    exists f2.1. split; [done | congruence].
Qed.


Lemma script1_table_positive id known :
  Script1.known_mappings !! id = Some known → 0 < Known.confidence_score known.
Proof.
  unfold Script1.known_mappings. intros H%elem_of_list_to_map_2.
  repeat (apply elem_of_cons in H as [H|H]; [by simplify_eq|]).
  by apply elem_of_nil in H.
Qed.

Lemma script2_table_positive id known :
  Script2.known_mappings !! id = Some known → 0 < Known.confidence_score known.
Proof.
  unfold Script2.known_mappings. intros H%elem_of_list_to_map_2.
  repeat (apply elem_of_cons in H as [H|H]; [by simplify_eq|]).
  by apply elem_of_nil in H.
Qed.

(** X21: with the override table that [main] hard-codes, every row of the
    table a run without [--resume] writes is coherent: it is unmatched,
    without external ID, without method and with confidence 0 all at once or
    not at all, and a matched or manual row has an external ID, a method and
    a positive confidence. *)
Theorem plain_run_rows_coherent (scorer : string → string → Z) (a : args)
  (JSON_FILE : option (list Company.t)) (web : Z → response) (w : world)
  (rows : list Mapping.t) (m : Mapping.t) :
  resume a = false → OUTPUT_FILE w = None →
  OUTPUT_FILE (Script1.main scorer a JSON_FILE web w).2 = Some rows
  ∨ OUTPUT_FILE (Script2.main scorer a JSON_FILE web w).2 = Some rows →
  m ∈ rows →
  coherent m
  ∧ (Mapping.match_status m ≠ unmatched →
     Mapping.goldstock_id m ≠ None ∧ Mapping.match_method m ≠ none
     ∧ 0 < Mapping.confidence_score m).
Proof.
  intros Hres Hout [Hrows|Hrows] Hm.
  - destruct (script1_plain_run scorer a JSON_FILE web w Hres) as [_ A].
    destruct (A Hout rows Hrows) as (gss & _ & ->).
    apply list_elem_of_fmap in Hm as (c & -> & _).
    apply well_formed_coherent, script1_well_formed.
    apply script1_table_positive.
  - destruct (script2_plain_run scorer a JSON_FILE web w Hres) as [_ B].
    destruct (B Hout rows Hrows) as (gss & _ & ->).
    apply list_elem_of_fmap in Hm as (c & -> & _).
    apply well_formed_coherent, script2_well_formed.
    apply script2_table_positive.
Qed.




(** X20: a second run of [mapping_script2.py] retries exactly the requests
    that failed.  After a first run that ended with exit code 0, a run on the
    files it left, without [--clear-cache], with the same [--max-id] and at
    least one company loaded, requests the IDs that the first run requested
    without getting an answer, and no other ID. *)
Theorem script2_rerun_retries_failures (scorer : string → string → Z)
  (a1 a2 : args) (JSON_FILE1 JSON_FILE2 : option (list Company.t))
  (web1 web2 : Z → response) (w : world) :
  let run1 := Script2.main scorer a1 JSON_FILE1 web1 w in
  let run2 := Script2.main scorer a2 JSON_FILE2 web2 run1.2 in
  run1.1 = Exited 0 → clear_cache a2 = false → max_id a2 = max_id a1 →
  Script2.load_companies (limit a2) JSON_FILE2 ≠ [] →
  requests run2.2
  = requests run1.2
    ++ List.filter
         (λ g, uncached (starting_cache (clear_cache a1) (CACHE_FILE w)) g
               && fails web1 g)
         (seqZ 1 (max_id a1 + 1 - 1)).
Proof.
  intros run1 run2 Hexit Hclear Hmax Hall.
  unfold run2. rewrite script2_run_requests_exact, Hclear, Hmax.
  rewrite (match_nonempty _ _ _ Hall). f_equal.
  destruct (script2_main_spec scorer a1 JSON_FILE1 web1 w)
    as (c & k & Hc & _ & B1 & B2 & B3).
  fold run1 in B1, B2, B3. apply script2_start_cache in Hc.
  match type of B2 with
  | _ → (Script2.fetch_companies_parallel web1 1 (max_id a1) ?w0).1 = [] → _ =>
      destruct (script2_fetch_parallel_spec web1 1 (max_id a1) w0)
        as (_ & _ & _ & Hcache);
      set (f := Script2.fetch_companies_parallel web1 1 (max_id a1) w0) in *
  end.
  cbn [cache set_checkpoint set_cache] in Hcache. rewrite Hc in Hcache.
  destruct (decide (Script2.load_companies (limit a1) JSON_FILE1 = [])) as [E|E].
  { rewrite B1 in Hexit by done. discriminate. }
  destruct (decide (f.1 = [])) as [E'|E'].
  { rewrite B2 in Hexit by done. discriminate. }
  destruct (B3 E E') as (_ & H2 & _ & H4 & _).
  rewrite H4. cbn [starting_cache].
  apply filter_ext_in. intros g Hg. apply Hcache. by apply list_elem_of_In.
Qed.

(** ** The shape of normalized text, and letter case *)

Lemma lower_upper_char c : lower_char (upper_char c) = lower_char c.
Proof. each_char c. Qed.

Lemma upper_lower_char c : upper_char (lower_char c) = upper_char c.
Proof. each_char c. Qed.

Lemma upper_char_LF c : Ascii.eqb (upper_char c) LF = Ascii.eqb c LF.
Proof. each_char c. Qed.

Lemma lower_upper_l l : lower_l (upper_l l) = lower_l l.
Proof.
  unfold lower_l, upper_l. rewrite map_map. apply map_ext, lower_upper_char.
Qed.

Lemma upper_lower_l l : upper_l (lower_l l) = upper_l l.
Proof.
  unfold lower_l, upper_l. rewrite map_map. apply map_ext, upper_lower_char.
Qed.









Lemma ci_eqb_upper a b : ci_eqb a (upper_char b) = ci_eqb a b.
Proof. unfold ci_eqb. by rewrite lower_upper_char. Qed.

Lemma ci_after_prefix_upper p l :
  ci_after_prefix p (upper_l l) = upper_l <$> ci_after_prefix p l.
Proof.
  revert l. induction p as [|a p IH]; intros [|b l]; cbn; try done.
  rewrite ci_eqb_upper. destruct (ci_eqb a b); [apply IH | done].
Qed.

Lemma sub_exchange_prefix_upper alts l :
  sub_exchange_prefix alts (upper_l l) = upper_l (sub_exchange_prefix alts l).
Proof.
  induction alts as [|a alts IH]; cbn [sub_exchange_prefix]; [done|].
  rewrite ci_after_prefix_upper.
  destruct (ci_after_prefix _ l); cbn; [done | apply IH].
Qed.

Lemma upper_l_reverse l : upper_l (reverse l) = reverse (upper_l l).
Proof. unfold upper_l. by rewrite map_reverse'. Qed.

Lemma ci_before_suffix_upper p l :
  ci_before_suffix p (upper_l l) = upper_l <$> ci_before_suffix p l.
Proof.
  unfold ci_before_suffix.
  rewrite <- upper_l_reverse, ci_after_prefix_upper.
  destruct (ci_after_prefix _ _); cbn; [|done].
  by rewrite upper_l_reverse.
Qed.

Lemma first_suffix_upper alts l :
  first_suffix alts (upper_l l) = upper_l <$> first_suffix alts l.
Proof.
  induction alts as [|a alts IH]; cbn [first_suffix]; [done|].
  rewrite ci_before_suffix_upper.
  destruct (ci_before_suffix a l); cbn; [done | apply IH].
Qed.

Lemma split_eol_upper l :
  split_eol (upper_l l) = (upper_l (split_eol l).1, (split_eol l).2).
Proof.
  unfold split_eol. rewrite <- upper_l_reverse.
  destruct (reverse l) as [|c r]; cbn [upper_l map]; [done|].
  rewrite upper_char_LF. destruct (Ascii.eqb c LF); cbn [fst snd]; [|done].
  by rewrite <- upper_l_reverse.
Qed.

Lemma sub_exchange_suffix_upper alts l :
  sub_exchange_suffix alts (upper_l l) = upper_l (sub_exchange_suffix alts l).
Proof.
  unfold sub_exchange_suffix. rewrite split_eol_upper.
  destruct (split_eol l) as [body eol] eqn:E. cbn [fst snd].
  rewrite first_suffix_upper.
  destruct (first_suffix _ body); cbn; [|done].
  unfold upper_l. rewrite map_app. f_equal.
  apply split_eol_spec in E as [_ [->| ->]]; done.
Qed.

Lemma sub_ticker_punct_upper l :
  sub_ticker_punct (upper_l l) = upper_l (sub_ticker_punct l).
Proof.
  unfold sub_ticker_punct.
  induction l as [|c l IH]; cbn [upper_l map List.filter]; [done|].
  rewrite punct_upper_char. fold (upper_l l). rewrite IH.
  by destruct (is_ticker_punct c).
Qed.

Lemma ticker_pipeline_upper P S l :
  ticker_pipeline P S (upper_l l) = ticker_pipeline P S l.
Proof.
  unfold ticker_pipeline.
  rewrite sub_exchange_prefix_upper, sub_exchange_suffix_upper,
    sub_ticker_punct_upper.
  unfold upper_l at 2. rewrite strip_map by apply isspace_upper_char.
  apply upper_l_idem.
Qed.

(** X18: [normalize_ticker] of [mapping_script2.py] ignores letter case: two
    tickers that differ only in the case of their letters, in the exchange
    code, in the symbol or in the suffix, normalize to the same key. *)
Theorem script2_normalize_ticker_ignores_case (t1 t2 : string) :
  upper t1 = upper t2 →
  Script2.normalize_ticker (Some t1) = Script2.normalize_ticker (Some t2).
Proof.
  unfold upper, on_chars. intros H%str_inj.
  rewrite !script2_normalize_ticker_eq.
  assert (truthy t1 = truthy t2) as ->.
  { rewrite !truthy_chars. unfold upper_l in H.
    by destruct (chars t1), (chars t2). }
  rewrite <- (ticker_pipeline_upper _ _ (chars t1)), H.
  by rewrite ticker_pipeline_upper.
Qed.


(** ** The input list and the order of the result *)


(** X24: the matching never skips, repeats or reorders.  Whatever the
    moments at which an interruption is seen, [perform_matching] returns the
    outcomes of the engine for a prefix of the companies, in their order; it
    returns them for all the companies when no interruption is seen, given,
    in [mapping_script2.py], at least one external record. *)
Theorem matching_covers_a_prefix (scorer : string → string → Z)
  (goldstock_companies : list GoldstockCompany.t)
  (known_mappings : gmap Z Known.t) (interrupted : nat → bool)
  (companies : list Company.t) (w : world) :
  (∃ n, (Script1.perform_matching scorer goldstock_companies known_mappings
           interrupted companies w).1
        = map (Script1.match_company scorer goldstock_companies known_mappings)
              (take n companies)
        ∧ ((∀ k, interrupted k = false) → (length companies ≤ n)%nat))
  ∧ (∃ n, (Script2.perform_matching scorer goldstock_companies known_mappings
             interrupted companies w).1
          = map (Script2.match_company scorer goldstock_companies known_mappings)
                (take n companies)
          ∧ ((∀ k, interrupted k = false) → goldstock_companies ≠ [] →
             (length companies ≤ n)%nat)).
Proof.
  split.
  - destruct (script1_emits scorer goldstock_companies known_mappings
                interrupted companies w) as (n & _ & H1 & H2).
    exists n. split; [done|]. intros H. by rewrite H2.
  - destruct (script2_emits scorer goldstock_companies known_mappings
                interrupted companies w) as (n & _ & H1 & H2).
    exists n. split; [done|]. intros H Hne. by rewrite H2.
Qed.

(** ** Instances of the theorems on concrete inputs *)

Lemma normalize_ticker_idempotent_iff_witness :
  Script2.normalize_ticker (Script2.normalize_ticker (Some "CVE:ABC"))
  = Script2.normalize_ticker (Some "CVE:ABC").
Proof.
  apply (proj2 (normalize_ticker_idempotent_iff (Some "CVE:ABC"))).
  vm_compute. reflexivity.
Defined.

Lemma normalize_name_idempotent_iff_witness :
  Script1.normalize_name (Some (Script1.normalize_name (Some "Agnico Eagle Mines Ltd")))
  = Script1.normalize_name (Some "Agnico Eagle Mines Ltd").
Proof.
  apply (proj1 (proj2 (proj2 (proj2 (proj2
           (normalize_name_idempotent_iff (Some "Agnico Eagle Mines Ltd"))))))).
  vm_compute. reflexivity.
Defined.

Lemma aliases_parenthetical_witness :
  chars "Bar" ∈ findall_parens (chars "Foo (Bar)")
  ∧ "Bar" ∈ Script2.extract_company_aliases "Foo (Bar)".
Proof.
  assert (chars "Bar" ∈ findall_parens (chars "Foo (Bar)")) as H
    by (vm_compute; left).
  split; [exact H|].
  exact (proj1 (proj2 (proj2 (aliases_parenthetical "Foo (Bar)"))) (chars "Bar") H).
Defined.

Lemma known_override_wins_witness :
  let emitted :=
    (Script1.perform_matching Scenario.scorer [Scenario.acme_record]
       Scenario.agnico_override (λ _, false) [Scenario.agnico] Scenario.fresh).1 in
  ∃ m, m ∈ emitted
       ∧ Mapping.match_method m = known_mapping
       ∧ Mapping.match_status m = matched
       ∧ Mapping.goldstock_id m = Some "8"
       ∧ Mapping.confidence_score m = 100.
Proof.
  intros emitted.
  pose proof (known_override_wins Scenario.scorer [Scenario.acme_record]
                Scenario.agnico_override (λ _, false) [Scenario.agnico]
                Scenario.fresh) as [Hsound Hcomplete].
  set (known := Known.mk "8" "Agnico Eagle Mines Ltd" 100).
  assert (Scenario.agnico_override !! Company.company_id Scenario.agnico
          = Some known) as Hk by (vm_compute; reflexivity).
  destruct (Hcomplete Scenario.agnico known (λ _, eq_refl)
              ltac:(left) Hk) as [Hin _].
  exists (override_mapping Scenario.agnico known). split; [exact Hin|].
  destruct (Hsound _ known (or_introl Hin) Hk) as (H1 & H2 & H3 & _ & H5).
  by split_and!.
Defined.

Lemma mapping_invariant_witness :
  coherent Scenario.acme_mapping.
Proof.
  refine (proj1 (mapping_invariant Scenario.scorer [Scenario.acme_record]
                   Scenario.agnico_override (λ _, false) [Scenario.acme]
                   Scenario.fresh Scenario.acme_mapping _ _)).
  - unfold Scenario.agnico_override.
    intros id known [_ <-]%lookup_singleton_Some. vm_compute. reflexivity.
  - left. vm_compute. left.
Defined.

Lemma fuzzy_tier_thresholds_witness :
  Mapping.match_status
    (Script1.match_company Scenario.score_78 [Scenario.probe_record] ∅
                           Scenario.probe) = unmatched
  ∧ Mapping.match_status
      (Script2.match_company Scenario.score_78 [Scenario.probe_record] ∅
                             Scenario.probe) = manual
  ∧ Mapping.confidence_score
      (Script2.match_company Scenario.score_78 [Scenario.probe_record] ∅
                             Scenario.probe) = 78.
Proof.
  destruct (fuzzy_tier_thresholds Scenario.score_78 [Scenario.probe_record] ∅
              Scenario.probe ltac:(discriminate)) as [H1 H2].
  destruct (H1 ltac:(vm_compute; reflexivity) ltac:(vm_compute; reflexivity))
    as [[_ Hlow] _].
  destruct (H2 ltac:(vm_compute; reflexivity) ltac:(vm_compute; reflexivity))
    as [[Hacc _] _].
  destruct (Hlow ltac:(vm_compute; reflexivity)) as (E1 & _).
  destruct (Hacc ltac:(vm_compute; discriminate)) as (_ & E2 & E3 & _).
  split_and!; [exact E1 | exact E3 | exact E2].
Defined.

Lemma empty_ticker_never_matches_witness :
  ∃ n, Script2.normalize_ticker (Mapping.tsx_code Scenario.acme_mapping) = Some n
       ∧ n ≠ ""
       ∧ is_Some (Script2.gs_by_ticker [Scenario.acme_record] !! n).
Proof.
  refine (proj2 (proj2 (proj2
    (empty_ticker_never_matches Scenario.scorer [Scenario.acme_record] ∅
       (λ _, false) [Scenario.acme] Scenario.fresh Scenario.acme_mapping))) _ _).
  - vm_compute. left.
  - reflexivity.
Defined.

Lemma load_never_raises_witness :
  load_cache (Present (Unparseable JSONDecodeError)) = Returns (JObj [])
  ∧ load_checkpoint (Present (Unparseable JSONDecodeError))
    = Returns (JObj [("processed_ids", JArr []); ("mappings", JArr [])]).
Proof.
  exact (proj2 (proj2 (load_never_raises (Present (Unparseable JSONDecodeError))))).
Defined.

(** ** Instances of the further properties on concrete inputs *)

Lemma exact_ticker_tier_witness :
  Script2.match_company Scenario.scorer [Scenario.acme_record] ∅ Scenario.acme
  = Scenario.acme_mapping.
Proof.
  refine (proj2 (exact_ticker_tier Scenario.scorer [Scenario.acme_record] ∅
                   Scenario.acme "ACM" Scenario.acme_record _ _) _ _).
  - reflexivity.
  - discriminate.
  - vm_compute. reflexivity.
  - vm_compute. reflexivity.
Defined.

Lemma exact_name_tier_witness :
  Script2.match_company Scenario.scorer [Scenario.acme_record] ∅
    (Company.mk 2 "Acme Mining" None)
  = Mapping.mk 2 "Acme Mining" None (Some "1") (Some "Acme Mining Corp")
      matched 95 exact_name.
Proof.
  refine (proj2 (exact_name_tier Scenario.scorer [Scenario.acme_record] ∅
                   (Company.mk 2 "Acme Mining" None) Scenario.acme_record _) _ _).
  - reflexivity.
  - intros n Hn. discriminate Hn.
  - vm_compute. reflexivity.
Defined.

Lemma script2_matching_loses_under_ten_witness :
  let r := Script2.perform_matching Scenario.scorer [Scenario.acme_record] ∅
             (λ _, false) [Scenario.acme] Scenario.fresh in
  ∃ k, persisted (take k r.1) Scenario.fresh r.2 ∧ k = length r.1.
Proof.
  intros r.
  destruct (script2_matching_loses_under_ten Scenario.scorer
              [Scenario.acme_record] ∅ (λ _, false) [Scenario.acme]
              Scenario.fresh) as (k & _ & _ & Hp & _ & Hk).
  exists k. split; [exact Hp|]. apply Hk. intros j. reflexivity.
Defined.

Lemma fetch_caches_all_but_failures_witness :
  uncached (cache (Script2.fetch_companies_parallel Scenario.site 1 2
                     Scenario.fresh).2) 2
  = uncached (cache Scenario.fresh) 2 && fails Scenario.site 2.
Proof.
  refine (proj2 (proj1 (fetch_caches_all_but_failures Scenario.site 1 2
                          Scenario.fresh 2) _)).
  lia.
Defined.

Lemma fetch_is_memoised_witness :
  Script2.fetch_company_by_id (λ _, RequestFailed) 1
    (Script2.fetch_company_by_id Scenario.site 1 Scenario.fresh).2
  = Script2.fetch_company_by_id Scenario.site 1 Scenario.fresh.
Proof.
  refine (proj2 (fetch_is_memoised Scenario.site (λ _, RequestFailed) 1
                   Scenario.fresh _)).
  reflexivity.
Defined.


Lemma plain_run_rows_coherent_witness :
  coherent Scenario.acme_mapping.
Proof.
  refine (proj1 (plain_run_rows_coherent Scenario.scorer Scenario.plain
                   (Some [Scenario.acme]) Scenario.site Scenario.fresh
                   [Scenario.acme_mapping] Scenario.acme_mapping _ _ _ _)).
  - reflexivity.
  - reflexivity.
  - right. vm_compute. reflexivity.
  - left.
Defined.



Lemma script2_rerun_retries_failures_witness :
  let run1 := Script2.main Scenario.scorer Scenario.plain (Some [Scenario.acme])
                Scenario.site Scenario.fresh in
  let run2 := Script2.main Scenario.scorer Scenario.plain (Some [Scenario.acme])
                Scenario.site run1.2 in
  requests run2.2
  = requests run1.2
    ++ List.filter
         (λ g, uncached (starting_cache (clear_cache Scenario.plain)
                           (CACHE_FILE Scenario.fresh)) g
               && fails Scenario.site g)
         (seqZ 1 (max_id Scenario.plain + 1 - 1)).
Proof.
  refine (script2_rerun_retries_failures Scenario.scorer Scenario.plain
            Scenario.plain (Some [Scenario.acme]) (Some [Scenario.acme])
            Scenario.site Scenario.site Scenario.fresh _ _ _ _).
  - vm_compute. reflexivity.
  - reflexivity.
  - reflexivity.
  - discriminate.
Defined.


Lemma script2_normalize_ticker_ignores_case_witness :
  Script2.normalize_ticker (Some "tsx:acm.to")
  = Script2.normalize_ticker (Some "TSX:ACM.TO").
Proof.
  refine (script2_normalize_ticker_ignores_case "tsx:acm.to" "TSX:ACM.TO" _).
  vm_compute. reflexivity.
Defined.



Lemma matching_covers_a_prefix_witness :
  ∃ n, (Script2.perform_matching Scenario.scorer [Scenario.acme_record] ∅
          (λ _, false) [Scenario.acme] Scenario.fresh).1
       = map (Script2.match_company Scenario.scorer [Scenario.acme_record] ∅)
             (take n [Scenario.acme])
       ∧ (length [Scenario.acme] ≤ n)%nat.
Proof.
  destruct (proj2 (matching_covers_a_prefix Scenario.scorer
                     [Scenario.acme_record] ∅ (λ _, false) [Scenario.acme]
                     Scenario.fresh)) as (n & H1 & H2).
  exists n. split; [exact H1|]. apply H2.
  - intros k. reflexivity.
  - discriminate.
Defined.
